(** * PathFinder: maze generation by backtracking and A* search on a grid

    A shallow embedding of [main.py]: the class [MazeGenerator] (iterative
    randomized depth-first carving), the class [PathFinder] (A* with the
    Manhattan heuristic over a [heapq] frontier) and the class [GameState]
    with the loop of [main] that drives both, followed by the properties
    that the specification states and by further properties of the code. *)

From Stdlib Require Import ZArith Lia ZifyNat List Permutation.
From stdpp Require Import base tactics option list gmap.

Local Open Scope Z_scope.

(** Let [lia] reason about division and remainder by a constant. *)
Ltac Zify.zify_post_hook ::= Z.div_mod_to_equations.
#[local] Arguments Z.div : simpl never.
#[local] Arguments Z.modulo : simpl never.
#[local] Arguments Nat.div : simpl never.

(** ** Python values shared by both classes *)

(** A cell is the tuple [(x, y)]; the grid is a list of rows, [grid[y][x]],
    holding [1] for a wall and [0] for an open cell. *)
Abbreviation Cell := (Z * Z)%type.
Abbreviation Grid := (list (list Z)).

(** Exceptions the embedded code can raise. *)
Inductive exn : Type := IndexError | KeyError.

(** Outcome of running a piece of code under a step budget. *)
Inductive res (A : Type) : Type :=
| Done (a : A)
| Raise (e : exn)
| Timeout.
Arguments Done {A} a.
Arguments Raise {A} e.
Arguments Timeout {A}.

Global Instance res_ret : MRet res := fun A a => Done a.
Global Instance res_bind : MBind res := fun A B k m =>
  match m with
  | Done a => k a
  | Raise e => Raise e
  | Timeout => Timeout
  end.

(** [l[i]] for a Python list: a negative index counts from the end, an index
    out of range raises [IndexError]. *)
Definition py_index {A} (l : list A) (i : Z) : option nat :=
  let n := Z.of_nat (length l) in
  if (0 <=? i) && (i <? n) then Some (Z.to_nat i)
  else if (i <? 0) && (- n <=? i) then Some (Z.to_nat (n + i))
  else None.

Definition py_get {A} (l : list A) (i : Z) : res A :=
  match py_index l i with
  | Some k => match l !! k with Some a => Done a | None => Raise IndexError end
  | None => Raise IndexError
  end.

Definition py_set {A} (l : list A) (i : Z) (a : A) : res (list A) :=
  match py_index l i with
  | Some k => Done (<[k := a]> l)
  | None => Raise IndexError
  end.

(** [grid[y][x]] and [grid[y][x] = v]. The rows are distinct objects (they
    come from a list comprehension), so a write changes one row only. *)
Definition grid_get (g : Grid) (x y : Z) : res Z :=
  row ← py_get g y; py_get row x.

Definition grid_set (g : Grid) (x y : Z) (v : Z) : res Grid :=
  row ← py_get g y;
  row' ← py_set row x v;
  py_set g y row'.

(** ** MazeGenerator *)

Module MazeGenerator.

(** The global [random] generator: an unbounded sequence of raw draws fixed by
    the seed, and the number of draws consumed so far. *)
Record Rng : Type := mkRng { draws : nat -> nat; pos : nat }.

(** [randbelow(n)], the primitive [random.shuffle] is built on. *)
Definition randbelow (n : nat) (r : Rng) : nat * Rng :=
  ((draws r (pos r) mod n)%nat, mkRng (draws r) (S (pos r))).

(** [x[i], x[j] = x[j], x[i]] *)
Definition swap {A} (x : list A) (i j : nat) : list A :=
  match x !! i, x !! j with
  | Some a, Some b => <[j := a]> (<[i := b]> x)
  | _, _ => x
  end.

(** [random.shuffle(x)]:
    [for i in reversed(range(1, len(x))): j = randbelow(i + 1); swap i j]. *)
Fixpoint shuffle_loop {A} (i : nat) (x : list A) (r : Rng) : list A * Rng :=
  match i with
  | O => (x, r)
  | S i' =>
      let '(j, r') := randbelow (S i) r in
      shuffle_loop i' (swap x i j) r'
  end.

Definition shuffle {A} (x : list A) (r : Rng) : list A * Rng :=
  shuffle_loop (length x - 1)%nat x r.

(** The object [self] together with the locals of a running [generate]. *)
Record State : Type := mkState {
  width : Z;
  height : Z;
  grid : Grid;
  directions : list (Z * Z);
  stack : list Cell;
  rng : Rng
}.

(** What [generate(animate=True)] yields: the carved cell, or [None]. *)
Inductive event : Type :=
| Carved (c : Cell)
| StepBoundary.

(** [[[1 for _ in range(width)] for _ in range(height)]] *)
Definition fresh_grid (w h : Z) : Grid :=
  replicate (Z.to_nat h) (replicate (Z.to_nat w) 1).

Definition initial_directions : list (Z * Z) :=
  [(-2, 0); (2, 0); (0, -2); (0, 2)].

(** [MazeGenerator(width, height)] with the random generator in state [r];
    the stack does not exist before [generate] starts. *)
Definition init (w h : Z) (r : Rng) : State :=
  mkState w h (fresh_grid w h) initial_directions [] r.

(** The prologue of [generate]: open the start cell and push it. *)
Definition begin (st : State) : res State :=
  g ← grid_set (grid st) 1 1 0;
  Done (mkState (width st) (height st) g (directions st) [(1, 1)] (rng st)).

(** The [for dx, dy in self.directions] loop for the top cell [(x, y)]:
    the first direction whose target is inside the border and still a wall
    is carved. [None] when the loop ends with [carved] still false. *)
Fixpoint try_carve (w h : Z) (g : Grid) (x y : Z) (dirs : list (Z * Z))
  : res (option (Grid * Cell)) :=
  match dirs with
  | [] => Done None
  | (dx, dy) :: rest =>
      let nx := x + dx in
      let ny := y + dy in
      if (1 <=? nx) && (nx <? w - 1) && ((1 <=? ny) && (ny <? h - 1)) then
        v ← grid_get g nx ny;
        if v =? 1 then
          g1 ← grid_set g nx ny 0;
          g2 ← grid_set g1 (x + dx / 2) (y + dy / 2) 0;
          Done (Some (g2, (nx, ny)))
        else try_carve w h g x y rest
      else try_carve w h g x y rest
  end.

(** One iteration of [while stack] with top of stack [(x, y)]: the new state and
    what the iteration yields under [animate]. *)
Definition step (animate : bool) (st : State) (x y : Z) : res (State * list event) :=
  let '(dirs, r) := shuffle (directions st) (rng st) in
  carved ← try_carve (width st) (height st) (grid st) x y dirs;
  match carved with
  | Some (g, n) =>
      Done (mkState (width st) (height st) g dirs (stack st ++ [n]) r,
            if animate then [Carved n] else [])
  | None =>
      Done (mkState (width st) (height st) (grid st) dirs (removelast (stack st)) r,
            if animate then [StepBoundary] else [])
  end.

(** The loop of [generate], with the events yielded so far. *)
Fixpoint loop (fuel : nat) (animate : bool) (st : State) (evs : list event)
  : res (State * list event) :=
  match fuel with
  | O => Timeout
  | S fuel' =>
      match last (stack st) with
      | None => Done (st, evs)
      | Some (x, y) =>
          r ← step animate st x y;
          loop fuel' animate (fst r) (evs ++ snd r)
      end
  end.

(** [generate] driven to exhaustion on a fresh generator. *)
Definition generate (fuel : nat) (animate : bool) (w h : Z) (r : Rng)
  : res (State * list event) :=
  st ← begin (init w h r);
  loop fuel animate st [].

(** The state after [n] iterations of the loop (the final state when the
    loop ends earlier): every point the driver can observe. *)
Fixpoint iterate (n : nat) (st : State) : res State :=
  match n with
  | O => Done st
  | S n' =>
      match last (stack st) with
      | None => Done st
      | Some (x, y) =>
          r ← step true st x y;
          iterate n' (fst r)
      end
  end.

(** A fresh generator whose [generate(animate=True)] was advanced [n]
    times. *)
Definition observe (n : nat) (w h : Z) (r : Rng) : res State :=
  st ← begin (init w h r);
  iterate n st.

(** [generate] driven to exhaustion on the generator [st], fresh or not:
    [self.grid] and [self.directions] are as an earlier run left them. *)
Definition generate_on (fuel : nat) (animate : bool) (st : State)
  : res (State * list event) :=
  st' ← begin st;
  loop fuel animate st' [].

(** [next(it)] for the iterator [it = self.generate(animate=True)]: the
    prologue runs at the first call ([started] is false before it), then
    one turn of the loop up to its [yield]. [None] stands for
    [StopIteration]. *)
Definition next (started : bool) (st : State) : res (State * option event) :=
  st1 ← (if started then Done st else begin st);
  match last (stack st1) with
  | None => Done (st1, None)
  | Some (x, y) => r ← step true st1 x y; Done (r.1, head r.2)
  end.

End MazeGenerator.

(** ** heapq *)

(** The functions of Python's [heapq] module that [astar] calls, as the
    library implements them on a list: [heap[0]] is a least entry and
    [heap[(k - 1) >> 1]] is the parent of [heap[k]]. *)

Module heapq.

(** A frontier entry is the tuple [(priority, (x, y))]. *)
Abbreviation Entry := (Z * (Z * Z))%type.

(** Python's [<] on tuples: the first position where the operands differ
    decides. *)
Definition cell_lt (a b : Cell) : bool :=
  if negb (a.1 =? b.1) then a.1 <? b.1 else a.2 <? b.2.

Definition entry_lt (a b : Entry) : bool :=
  if negb (a.1 =? b.1) then a.1 <? b.1 else cell_lt a.2 b.2.

(** [heap[i]] and [heap[i] = x] at a position counted from the front. *)
Definition item {A} (l : list A) (i : nat) : res A :=
  match l !! i with
  | Some a => Done a
  | None => Raise IndexError
  end.

Definition set_item {A} (l : list A) (i : nat) (a : A) : res (list A) :=
  if decide (i < length l)%nat then Done (<[i := a]> l) else Raise IndexError.

(** The loop of [_siftdown(heap, startpos, pos)]: the new item moves towards
    the root while it is smaller than its parent. *)
Fixpoint siftdown_loop (fuel : nat) (heap : list Entry) (startpos pos : nat)
    (newitem : Entry) : res (list Entry) :=
  match fuel with
  | O => Timeout
  | S fuel' =>
      if decide (startpos < pos)%nat then
        let parentpos := ((pos - 1) / 2)%nat in
        parent ← item heap parentpos;
        if entry_lt newitem parent then
          heap' ← set_item heap pos parent;
          siftdown_loop fuel' heap' startpos parentpos newitem
        else set_item heap pos newitem
      else set_item heap pos newitem
  end.

(** [_siftdown(heap, startpos, pos)]; the position decreases at every turn
    of the loop, so [pos + 1] turns are enough. *)
Definition siftdown (heap : list Entry) (startpos pos : nat) : res (list Entry) :=
  newitem ← item heap pos;
  siftdown_loop (S pos) heap startpos pos newitem.

(** The loop of [_siftup(heap, pos)]: the smaller child moves up until a leaf
    is reached; the result is the heap and the position of the leaf. *)
Fixpoint siftup_loop (fuel : nat) (heap : list Entry) (endpos pos : nat)
  : res (list Entry * nat) :=
  match fuel with
  | O => Timeout
  | S fuel' =>
      let childpos := (2 * pos + 1)%nat in
      if decide (childpos < endpos)%nat then
        let rightpos := (childpos + 1)%nat in
        smaller ←
          (if decide (rightpos < endpos)%nat then
             c ← item heap childpos;
             r ← item heap rightpos;
             Done (if negb (entry_lt c r) then rightpos else childpos)
           else Done childpos);
        v ← item heap smaller;
        heap' ← set_item heap pos v;
        siftup_loop fuel' heap' endpos smaller
      else Done (heap, pos)
  end.

(** [_siftup(heap, pos)]; the position increases at every turn of the loop,
    so [len(heap) + 1] turns are enough. *)
Definition siftup (heap : list Entry) (pos : nat) : res (list Entry) :=
  let endpos := length heap in
  let startpos := pos in
  newitem ← item heap pos;
  r ← siftup_loop (S endpos) heap endpos pos;
  heap' ← set_item r.1 r.2 newitem;
  siftdown heap' startpos r.2.

(** [heapq.heappush(heap, item)] *)
Definition heappush (heap : list Entry) (x : Entry) : res (list Entry) :=
  let heap' := heap ++ [x] in
  siftdown heap' 0 (length heap' - 1).

(** [heapq.heappop(heap)]: the popped entry and the heap that is left. *)
Definition heappop (heap : list Entry) : res (Entry * list Entry) :=
  match last heap with
  | None => Raise IndexError
  | Some lastelt =>
      let heap' := removelast heap in
      if decide (heap' = []) then Done (lastelt, [])
      else
        returnitem ← item heap' 0;
        heap1 ← set_item heap' 0 lastelt;
        heap2 ← siftup heap1 0;
        Done (returnitem, heap2)
  end.

End heapq.

(** ** PathFinder *)

Module PathFinder.

Import heapq.

(** [heuristic(a, b)]: the Manhattan distance. *)
Definition heuristic (a b : Cell) : Z :=
  Z.abs (a.1 - b.1) + Z.abs (a.2 - b.2).

(** The argument [grid] (an object shared with the caller) and the locals of a
    running [astar]. *)
Record State : Type := mkState {
  grid : Grid;
  frontier : list Entry;
  came_from : gmap Cell (option Cell);
  cost_so_far : gmap Cell Z;
  visited : gset Cell
}.

(** What [astar] yields: [(visited.copy(), frontier.copy(), path)] where
    [path] is [None] during the search. *)
Abbreviation Snapshot := (gset Cell * list Entry * option (list Cell))%type.

Definition snapshot (st : State) (path : option (list Cell)) : Snapshot :=
  (visited st, frontier st, path).

(** [0 <= nx < len(grid[0]) and 0 <= ny < len(grid)], evaluated left to right:
    [grid[0]] is read only when [0 <= nx] holds. *)
Definition in_bounds (g : Grid) (nx ny : Z) : res bool :=
  if 0 <=? nx then
    row0 ← py_get g 0;
    if nx <? Z.of_nat (length row0)
    then Done ((0 <=? ny) && (ny <? Z.of_nat (length g)))
    else Done false
  else Done false.

(** [d[k]] on a dict. *)
Definition dict_item {K : Type} `{Countable K} {V : Type} (d : gmap K V) (k : K) : res V :=
  match d !! k with
  | Some v => Done v
  | None => Raise KeyError
  end.

(** The body of [for dx, dy in ...] for one direction. *)
Definition relax (end_ current : Cell) (st : State) (d : Z * Z) : res State :=
  let nx := current.1 + d.1 in
  let ny := current.2 + d.2 in
  inb ← in_bounds (grid st) nx ny;
  if (inb : bool) then
    v ← grid_get (grid st) nx ny;
    if v =? 0 then
      let neighbor : Cell := (nx, ny) in
      c ← dict_item (cost_so_far st) current;
      let new_cost := c + 1 in
      let better :=
        match cost_so_far st !! neighbor with
        | None => true
        | Some old => new_cost <? old
        end in
      if better then
        let priority := new_cost + heuristic end_ neighbor in
        frontier' ← heappush (frontier st) (priority, neighbor);
        Done (mkState (grid st)
                frontier'
                (<[neighbor := Some current]> (came_from st))
                (<[neighbor := new_cost]> (cost_so_far st))
                (visited st))
      else Done st
    else Done st
  else Done st.

Definition neighbor_offsets : list (Z * Z) := [(-1, 0); (1, 0); (0, -1); (0, 1)].

Fixpoint expand (end_ current : Cell) (st : State) (ds : list (Z * Z)) : res State :=
  match ds with
  | [] => Done st
  | d :: ds' => st' ← relax end_ current st d; expand end_ current st' ds'
  end.

Definition set_frontier (st : State) (f : list Entry) : State :=
  mkState (grid st) f (came_from st) (cost_so_far st) (visited st).

Definition add_visited (st : State) (c : Cell) : State :=
  mkState (grid st) (frontier st) (came_from st) (cost_so_far st) ({[c]} ∪ visited st).

(** The loop [while frontier], with the snapshots yielded so far. The state
    a [break] leaves behind is the one with the entry popped. *)
Fixpoint search (fuel : nat) (visualize : bool) (end_ : Cell) (st : State)
    (out : list Snapshot) : list Snapshot * res State :=
  match fuel with
  | O => (out, Timeout)
  | S fuel' =>
      match frontier st with
      | [] => (out, Done st)
      | _ :: _ =>
          match heappop (frontier st) with
          | Done ((_, current), rest) =>
              let st1 := set_frontier st rest in
              if decide (current = end_) then (out, Done st1)
              else
                match expand end_ current st1 neighbor_offsets with
                | Done st2 =>
                    let st3 := add_visited st2 current in
                    search fuel' visualize end_ st3
                      (if visualize then out ++ [snapshot st3 None] else out)
                | Raise e => (out, Raise e)
                | Timeout => (out, Timeout)
                end
          | Raise e => (out, Raise e)
          | Timeout => (out, Timeout)
          end
      end
  end.

(** [came_from.get(current)]: [None] for a missing key and for the value
    [None]. *)
Definition dict_get_cell (d : gmap Cell (option Cell)) (k : Cell) : option Cell :=
  match d !! k with
  | Some v => v
  | None => None
  end.

(** The loop [while current != start] of the reconstruction. *)
Fixpoint walk_back (fuel : nat) (visualize : bool) (start : Cell) (st : State)
    (current : Cell) (path : list Cell) (out : list Snapshot)
  : list Snapshot * res (list Cell) :=
  match fuel with
  | O => (out, Timeout)
  | S fuel' =>
      if decide (current = start) then (out, Done path)
      else
        let path1 := path ++ [current] in
        match dict_get_cell (came_from st) current with
        | None => (out, Done [])
        | Some prev =>
            walk_back fuel' visualize start st prev path1
              (if visualize then out ++ [snapshot st (Some path1)] else out)
        end
  end.

(** The result of driving [astar] to exhaustion: everything it yielded, in
    order, and the state it ended in. *)
Record Run : Type := mkRun { emitted : list Snapshot; outcome : res State }.

(** The locals before the loop, once [(0, start)] is on the frontier. *)
Definition initial (g : Grid) (start : Cell) : res State :=
  frontier0 ← heappush [] (0, start);
  Done (mkState g frontier0 {[start := None]} {[start := 0]} ∅).

Definition astar (fuel : nat) (visualize : bool) (g : Grid) (start end_ : Cell) : Run :=
  match initial g start with
  | Done st0 =>
      match search fuel visualize end_ st0 [] with
      | (out, Done st) =>
          match walk_back fuel visualize start st end_ [] out with
          | (out', Done path) =>
              let path' := reverse (path ++ [start]) in
              mkRun (out' ++ [snapshot st (Some path')]) (Done st)
          | (out', Raise e) => mkRun out' (Raise e)
          | (out', Timeout) => mkRun out' Timeout
          end
      | (out, Raise e) => mkRun out (Raise e)
      | (out, Timeout) => mkRun out Timeout
      end
  | Raise e => mkRun [] (Raise e)
  | Timeout => mkRun [] Timeout
  end.

(** The path carried by the last snapshot. *)
Definition final_path (r : Run) : option (list Cell) :=
  match last (emitted r) with
  | Some (_, _, p) => p
  | None => None
  end.

(** The iterator [astar(grid, start, end, visualize=True)] between two calls
    of [next]: not started, suspended at the [yield] of the search loop,
    suspended at the [yield] of the reconstruction with its [current] and
    [path], or past the final [yield]. *)
Inductive Iter : Type :=
| Fresh
| Searching (st : State)
| Walking (st : State) (current : Cell) (path : list Cell)
| Finished.

(** The iterator keeps a reference to [grid]: it reads what the list holds
    at the time of the call. *)
Definition with_grid (st : State) (g : Grid) : State :=
  mkState g (frontier st) (came_from st) (cost_so_far st) (visited st).

(** From the head of [while current != start] to the next [yield]. *)
Definition walk_head (start : Cell) (st : State) (current : Cell) (path : list Cell)
  : Iter * Snapshot :=
  if decide (current = start)
  then (Finished, snapshot st (Some (reverse (path ++ [start]))))
  else
    let path1 := path ++ [current] in
    match dict_get_cell (came_from st) current with
    | None => (Finished, snapshot st (Some (reverse ([] ++ [start]))))
    | Some prev => (Walking st prev path1, snapshot st (Some path1))
    end.

(** From the head of [while frontier] to the next [yield]. *)
Definition search_head (start end_ : Cell) (st : State) : res (Iter * Snapshot) :=
  match frontier st with
  | [] => Done (walk_head start st end_ [])
  | _ :: _ =>
      popped ← heappop (frontier st);
      let current := popped.1.2 in
      let st1 := set_frontier st popped.2 in
      if decide (current = end_) then Done (walk_head start st1 end_ [])
      else
        st2 ← expand end_ current st1 neighbor_offsets;
        let st3 := add_visited st2 current in
        Done (Searching st3, snapshot st3 None)
  end.

(** [next(it)] while [grid] holds [g]; [None] stands for [StopIteration]. *)
Definition next (g : Grid) (start end_ : Cell) (it : Iter)
  : res (Iter * option Snapshot) :=
  match it with
  | Fresh =>
      st0 ← initial g start;
      r ← search_head start end_ st0;
      Done (r.1, Some r.2)
  | Searching st =>
      r ← search_head start end_ (with_grid st g);
      Done (r.1, Some r.2)
  | Walking st current path =>
      let r := walk_head start (with_grid st g) current path in
      Done (r.1, Some r.2)
  | Finished => Done (Finished, None)
  end.

(** The iterator advanced until [StopIteration], at most [n] times, over a
    grid that does not change: what it yielded and what it has become. *)
Fixpoint drain (n : nat) (g : Grid) (start end_ : Cell) (it : Iter)
  : res (list Snapshot * Iter) :=
  match n with
  | O => Done ([], it)
  | S n' =>
      r ← next g start end_ it;
      match r.2 with
      | None => Done ([], r.1)
      | Some snap =>
          r' ← drain n' g start end_ r.1;
          Done (snap :: r'.1, r'.2)
      end
  end.

End PathFinder.

(** ** GameState *)

Module GameState.

Definition CELL_SIZE : Z := 8.
Definition GRID_WIDTH : Z := 101.
Definition GRID_HEIGHT : Z := 101.
Definition WINDOW_WIDTH : Z := GRID_WIDTH * CELL_SIZE.
Definition WINDOW_HEIGHT : Z := GRID_HEIGHT * CELL_SIZE.

(** The [pygame] events and keys the class tells apart. *)
Inductive Key : Type := K_SPACE | K_RETURN | K_OTHER.

Inductive Event : Type :=
| QUIT
| MOUSEBUTTONDOWN (pos : Z * Z) (button : Z)
| KEYDOWN (key : Key)
| OTHER.

(** The fields of [self]. [self.grid] is the same list object as
    [self.maze.grid] from [__init__] on, so the grid is kept once, in
    [maze], together with the locals of the running [generate] and the
    random generator. An iterator of [generate] is represented by whether
    its body has started; an iterator of [astar] by its arguments and
    its state. *)
Record State : Type := mkState {
  maze : MazeGenerator.State;
  start : option Cell;
  end_ : option Cell;
  path : option (list Cell);
  visited : gset Cell;
  frontier : list heapq.Entry;
  generating : bool;
  solving : bool;
  animation_speed : Z;
  gen_iterator : option bool;
  astar_iterator : option (Cell * Cell * PathFinder.Iter)
}.

(** How a method of the class can end. *)
Inductive failure : Type :=
| Exception (e : exn)
| TypeError
| OutOfFuel.

Inductive result (A : Type) : Type :=
| Ok (a : A)
| Fail (f : failure).
Arguments Ok {A} a.
Arguments Fail {A} f.

(** [GameState()] with the random generator in state [r]. *)
Definition new (r : MazeGenerator.Rng) : State :=
  mkState (MazeGenerator.init GRID_WIDTH GRID_HEIGHT r)
    None None None ∅ [] false false 0 None None.

Definition set_start (st : State) (c : option Cell) : State :=
  mkState (maze st) c (end_ st) (path st) (visited st) (frontier st)
    (generating st) (solving st) (animation_speed st)
    (gen_iterator st) (astar_iterator st).

Definition set_end (st : State) (c : option Cell) : State :=
  mkState (maze st) (start st) c (path st) (visited st) (frontier st)
    (generating st) (solving st) (animation_speed st)
    (gen_iterator st) (astar_iterator st).

(** [handle_mouse_click(event)] with [event.pos] and [event.button]. *)
Definition handle_mouse_click (st : State) (pos : Z * Z) (button : Z) : res State :=
  let grid_x := pos.1 / CELL_SIZE in
  let grid_y := pos.2 / CELL_SIZE in
  if button =? 1 then
    v ← grid_get (MazeGenerator.grid (maze st)) grid_x grid_y;
    if v =? 0 then Done (set_start st (Some (grid_x, grid_y))) else Done st
  else if button =? 3 then
    v ← grid_get (MazeGenerator.grid (maze st)) grid_x grid_y;
    if v =? 0 then Done (set_end st (Some (grid_x, grid_y))) else Done st
  else Done st.

(** [regenerate_maze()]: the iterator is created, its body has not
    started. *)
Definition regenerate_maze (st : State) : State :=
  mkState (maze st) None None None (visited st) (frontier st)
    true (solving st) (animation_speed st)
    (Some false) (astar_iterator st).

(** [start_solving()], called behind the guard [self.start and self.end]:
    [s] and [e] are the values of [self.start] and [self.end]. *)
Definition start_solving (st : State) (s e : Cell) : State :=
  mkState (maze st) (start st) (end_ st) (path st) (visited st) (frontier st)
    (generating st) true (animation_speed st)
    (gen_iterator st) (Some (s, e, PathFinder.Fresh)).

(** [handle_key_press(event)] with [event.key]; a tuple is true, [None] is
    not. *)
Definition handle_key_press (st : State) (key : Key) : State :=
  match key with
  | K_SPACE => regenerate_maze st
  | K_RETURN =>
      match start st, end_ st with
      | Some s, Some e => start_solving st s e
      | _, _ => st
      end
  | K_OTHER => st
  end.

(** [handle_events()] over the events [pygame.event.get()] returned: the
    state and the value returned. *)
Fixpoint handle_events (st : State) (events : list Event) : res (State * bool) :=
  match events with
  | [] => Done (st, true)
  | QUIT :: _ => Done (st, false)
  | MOUSEBUTTONDOWN pos button :: rest =>
      st' ← handle_mouse_click st pos button;
      handle_events st' rest
  | KEYDOWN key :: rest => handle_events (handle_key_press st key) rest
  | OTHER :: rest => handle_events st rest
  end.

(** The first half of [update()]: [next(self.gen_iterator)]. *)
Definition update_generating (st : State) : result State :=
  if generating st then
    match gen_iterator st with
    | None => Fail TypeError
    | Some started =>
        match MazeGenerator.next started (maze st) with
        | Done (m, Some _) =>
            Ok (mkState m (start st) (end_ st) (path st) (visited st) (frontier st)
                  true (solving st) (animation_speed st)
                  (Some true) (astar_iterator st))
        | Done (m, None) =>
            Ok (mkState m (start st) (end_ st) (path st) (visited st) (frontier st)
                  false (solving st) (animation_speed st)
                  (Some true) (astar_iterator st))
        | Raise e => Fail (Exception e)
        | Timeout => Fail OutOfFuel
        end
    end
  else Ok st.

(** The second half of [update()]: [next(self.astar_iterator)]. *)
Definition update_solving (st : State) : result State :=
  if solving st then
    match astar_iterator st with
    | None => Fail TypeError
    | Some (s, e, it) =>
        match PathFinder.next (MazeGenerator.grid (maze st)) s e it with
        | Done (it', Some (v, f, p)) =>
            Ok (mkState (maze st) (start st) (end_ st) p v f
                  (generating st) true (animation_speed st)
                  (gen_iterator st) (Some (s, e, it')))
        | Done (it', None) =>
            Ok (mkState (maze st) (start st) (end_ st) (path st) (visited st)
                  (frontier st) (generating st) false (animation_speed st)
                  (gen_iterator st) (Some (s, e, it')))
        | Raise e => Fail (Exception e)
        | Timeout => Fail OutOfFuel
        end
    end
  else Ok st.

Definition update (st : State) : result State :=
  match update_generating st with
  | Ok st1 => update_solving st1
  | Fail f => Fail f
  end.

(** The colours of the [Colors] enum. *)
Inductive Colors : Type := WHITE | BLACK | GREY | GREEN | RED | BLUE | PURPLE | YELLOW.

(** What [draw] does to the screen, call by call: [screen.fill],
    [pygame.draw.rect] with a colour and a rectangle
    [(left, top, width, height)], and [pygame.display.flip]. *)
Inductive DrawOp : Type :=
| Fill (color : Colors)
| Rect (color : Colors) (rect : Z * Z * Z * Z)
| Flip.

(** [(x*CELL_SIZE, y*CELL_SIZE, CELL_SIZE, CELL_SIZE)] *)
Definition cell_rect (c : Cell) : Z * Z * Z * Z :=
  (c.1 * CELL_SIZE, c.2 * CELL_SIZE, CELL_SIZE, CELL_SIZE).

(** The cells in the order of
    [for y in range(GRID_HEIGHT): for x in range(GRID_WIDTH)]. *)
Definition grid_cells : list Cell :=
  flat_map (fun y => map (fun x => (x, y)) (seqZ 0 GRID_WIDTH)) (seqZ 0 GRID_HEIGHT).

(** [draw()]: the calls it makes, in order. The visited set is gone through
    in the order the set gives its elements; [if self.path:] skips [None]
    and the empty list, [if self.start:] and [if self.end:] skip [None]. *)
Definition draw (st : State) : res (list DrawOp) :=
  cells ← mapM (fun c : Cell =>
                  v ← grid_get (MazeGenerator.grid (maze st)) c.1 c.2;
                  Done (Rect (if v =? 0 then WHITE else BLACK) (cell_rect c)))
               grid_cells;
  Done ([Fill BLACK] ++ cells ++
        map (fun c => Rect GREY (cell_rect c)) (elements (visited st)) ++
        map (fun e : heapq.Entry => Rect PURPLE (cell_rect e.2)) (frontier st) ++
        match path st with
        | Some (c :: p) => map (fun c => Rect BLUE (cell_rect c)) (c :: p)
        | _ => []
        end ++
        match start st with
        | Some c => [Rect GREEN (cell_rect c)]
        | None => []
        end ++
        match end_ st with
        | Some c => [Rect RED (cell_rect c)]
        | None => []
        end ++
        [Flip]).

(** One turn of the loop of [main()] as far as the state goes: the events of
    the frame are handled, then the state is updated; [draw] reads the state
    and changes nothing of it. The flag is [running]. *)
Definition frame (st : State) (events : list Event) : result (State * bool) :=
  match handle_events st events with
  | Done (st1, running) =>
      match update st1 with
      | Ok st2 => Ok (st2, running)
      | Fail f => Fail f
      end
  | Raise e => Fail (Exception e)
  | Timeout => Fail OutOfFuel
  end.

(** [main()] over the events of successive frames; the loop ends with the
    frame whose events made [handle_events] return false. *)
Fixpoint main_loop (st : State) (frames : list (list Event)) : result State :=
  match frames with
  | [] => Ok st
  | events :: rest =>
      match frame st events with
      | Ok (st', running) => if (running : bool) then main_loop st' rest else Ok st'
      | Fail f => Fail f
      end
  end.

Definition main (r : MazeGenerator.Rng) (frames : list (list Event)) : result State :=
  main_loop (regenerate_maze (new r)) frames.

End GameState.

(** ** Vocabulary of the specification *)

(** The state of cell [(x, y)], for a cell inside the grid. *)
Definition cell_at (g : Grid) (c : Cell) : option Z :=
  if (0 <=? c.1) && (0 <=? c.2)
  then row ← g !! Z.to_nat c.2; row !! Z.to_nat c.1
  else None.

Definition is_open (g : Grid) (c : Cell) : Prop := cell_at g c = Some 0.
Definition is_wall (g : Grid) (c : Cell) : Prop := cell_at g c = Some 1.

Definition is_openb (g : Grid) (c : Cell) : bool :=
  match cell_at g c with
  | Some v => v =? 0
  | None => false
  end.

(** A [w] by [h] grid: [h] rows of [w] cells each. *)
Definition rectangular (w h : nat) (g : Grid) : Prop :=
  length g = h ∧ Forall (fun row => length row = w) g.

(** Two cells are neighbours in the 4-connected grid. *)
Definition adjacent (a b : Cell) : Prop :=
  Z.abs (a.1 - b.1) + Z.abs (a.2 - b.2) = 1.

(** [walk g a n b]: [n] moves lead from [a] to [b], each onto an open
    neighbour. *)
Inductive walk (g : Grid) (a : Cell) : nat -> Cell -> Prop :=
| walk_here : walk g a 0 a
| walk_step n b c : walk g a n b -> adjacent b c -> is_open g c -> walk g a (S n) c.

Definition reachable (g : Grid) (a b : Cell) : Prop := exists n, walk g a n b.

(** The breadth-first distance: the least number of moves of a walk. *)
Definition distance (g : Grid) (a b : Cell) (n : nat) : Prop :=
  walk g a n b ∧ forall m, walk g a m b -> (n <= m)%nat.

(** A sequence of open cells, each adjacent to the next. *)
Fixpoint chain (g : Grid) (p : list Cell) : Prop :=
  match p with
  | [] => True
  | a :: t =>
      is_open g a ∧
      match t with
      | [] => True
      | b :: _ => adjacent a b ∧ chain g t
      end
  end.

Definition path_from_to (g : Grid) (a b : Cell) (p : list Cell) : Prop :=
  head p = Some a ∧ last p = Some b ∧ chain g p.

(** Cells strictly inside the outer border, and cells on it. *)
Definition interior (w h : Z) (c : Cell) : Prop :=
  1 <= c.1 < w - 1 ∧ 1 <= c.2 < h - 1.

Definition on_border (w h : Z) (c : Cell) : Prop :=
  0 <= c.1 < w ∧ 0 <= c.2 < h ∧
  (c.1 = 0 ∨ c.1 = w - 1 ∨ c.2 = 0 ∨ c.2 = h - 1).

(** Rooms are the cells at even offsets from [(1, 1)]; the other open cells
    of a maze are the connectors carved between two rooms. *)
Definition is_room (c : Cell) : bool := Z.odd c.1 && Z.odd c.2.

Definition all_cells (w h : Z) : list Cell := list_prod (seqZ 0 w) (seqZ 0 h).

Definition count_cells (p : Cell -> bool) (w h : Z) : nat :=
  length (List.filter p (all_cells w h)).

Definition open_rooms (g : Grid) (w h : Z) : nat :=
  count_cells (fun c => is_room c && is_openb g c) w h.

Definition open_connectors (g : Grid) (w h : Z) : nat :=
  count_cells (fun c => negb (is_room c) && is_openb g c) w h.

Definition open_cells (g : Grid) (w h : Z) : nat :=
  count_cells (is_openb g) w h.

(** *** The frontier *)

(** The lexicographic order on [(priority, x, y)]. *)
Definition lex_le (a b : Z * (Z * Z)) : Prop :=
  a.1 < b.1 ∨ (a.1 = b.1 ∧ (a.2.1 < b.2.1 ∨ (a.2.1 = b.2.1 ∧ a.2.2 <= b.2.2))).

(** The heap order of [heapq]: no entry is below its parent. *)
Definition heap_ok (l : list heapq.Entry) : Prop :=
  forall i x p, (0 < i)%nat -> l !! i = Some x -> l !! ((i - 1) / 2)%nat = Some p ->
    lex_le p x.

(** The heap order with the entry at [pos] on its way up: it may be below
    its parent, and its children are not below its parent. *)
Definition up_ok (l : list heapq.Entry) (pos : nat) : Prop :=
  (forall i x p, (0 < i)%nat -> i ≠ pos ->
     l !! i = Some x -> l !! ((i - 1) / 2)%nat = Some p -> lex_le p x) ∧
  (forall c x p, (0 < pos)%nat -> (0 < c)%nat -> ((c - 1) / 2)%nat = pos ->
     l !! c = Some x -> l !! ((pos - 1) / 2)%nat = Some p -> lex_le p x).

(** The heap order with the entry at [pos] on its way down: it may be above
    its children, and its children are not below its parent. *)
Definition down_ok (l : list heapq.Entry) (pos : nat) : Prop :=
  (forall i x p, (0 < i)%nat -> i ≠ pos -> ((i - 1) / 2)%nat ≠ pos ->
     l !! i = Some x -> l !! ((i - 1) / 2)%nat = Some p -> lex_le p x) ∧
  (forall c x p, (0 < pos)%nat -> (0 < c)%nat -> ((c - 1) / 2)%nat = pos ->
     l !! c = Some x -> l !! ((pos - 1) / 2)%nat = Some p -> lex_le p x).

(** Reading the list in which the entries at [pos] and [q] were exchanged. *)
Definition exchanged (l l' : list heapq.Entry) (pos q : nat)
    (nv qv : heapq.Entry) : Prop :=
  forall i, l' !! i =
    if decide (i = q) then Some nv else if decide (i = pos) then Some qv else l !! i.

(** The states [astar] is in at the head of its loop [while frontier]: the
    initial one, and the one each completed iteration leaves. *)
Inductive loop_head (g : Grid) (start end_ : Cell) : PathFinder.State -> Prop :=
| lh_initial st0 :
    PathFinder.initial g start = Done st0 -> loop_head g start end_ st0
| lh_next st p current rest st2 :
    loop_head g start end_ st ->
    heapq.heappop (PathFinder.frontier st) = Done ((p, current), rest) ->
    current ≠ end_ ->
    PathFinder.expand end_ current (PathFinder.set_frontier st rest)
      PathFinder.neighbor_offsets = Done st2 ->
    loop_head g start end_ (PathFinder.add_visited st2 current).

(** The head of the second iteration on a grid of two open rows of three
    cells, from [(0, 0)] towards [(2, 1)]: two entries of equal priority. *)
Definition second_head : PathFinder.State :=
  PathFinder.add_visited
    (PathFinder.mkState [[0; 0; 0]; [0; 0; 0]]
       [(3, (0, 1)); (3, (1, 0))]
       (<[(0, 1) := Some (0, 0)]> (<[(1, 0) := Some (0, 0)]> {[(0, 0) := None]}))
       (<[(0, 1) := 1]> (<[(1, 0) := 1]> {[(0, 0) := 0]}))
       ∅)
    (0, 0).

(** A snapshot whose visited set does not hold the end cell. *)
Definition end_unvisited (end_ : Cell) (snap : PathFinder.Snapshot) : Prop :=
  end_ ∉ snap.1.1.

(** *** The maze *)

(** An open connector lies between two open rooms of its row or column. *)
Definition joins (g : Grid) (c : Cell) : Prop :=
  (Z.even c.1 = true ∧ Z.odd c.2 = true ∧
   is_open g (c.1 - 1, c.2) ∧ is_open g (c.1 + 1, c.2)) ∨
  (Z.odd c.1 = true ∧ Z.even c.2 = true ∧
   is_open g (c.1, c.2 - 1) ∧ is_open g (c.1, c.2 + 1)).

(** What holds of the generator at the head of every loop iteration. *)
Record maze_inv (st : MazeGenerator.State) : Prop := mk_maze_inv {
  inv_width : 3 <= MazeGenerator.width st;
  inv_height : 3 <= MazeGenerator.height st;
  inv_rect :
    rectangular (Z.to_nat (MazeGenerator.width st)) (Z.to_nat (MazeGenerator.height st))
      (MazeGenerator.grid st);
  inv_vals : forall c v, cell_at (MazeGenerator.grid st) c = Some v -> v = 0 ∨ v = 1;
  inv_open : forall c, is_open (MazeGenerator.grid st) c ->
    interior (MazeGenerator.width st) (MazeGenerator.height st) c ∧
    (is_room c = true ∨ joins (MazeGenerator.grid st) c);
  inv_stack : forall c, c ∈ MazeGenerator.stack st ->
    is_open (MazeGenerator.grid st) c ∧ is_room c = true;
  inv_start : is_open (MazeGenerator.grid st) (1, 1);
  inv_conn : forall c, is_open (MazeGenerator.grid st) c ->
    reachable (MazeGenerator.grid st) (1, 1) c;
  inv_count :
    open_rooms (MazeGenerator.grid st) (MazeGenerator.width st) (MazeGenerator.height st) =
    S (open_connectors (MazeGenerator.grid st) (MazeGenerator.width st) (MazeGenerator.height st));
  inv_dirs : forall d, d ∈ MazeGenerator.directions st <-> d ∈ MazeGenerator.initial_directions;
  inv_done : forall c d,
    is_open (MazeGenerator.grid st) c -> is_room c = true ->
    c ∉ MazeGenerator.stack st -> d ∈ MazeGenerator.initial_directions ->
    interior (MazeGenerator.width st) (MazeGenerator.height st) (c.1 + d.1, c.2 + d.2) ->
    is_open (MazeGenerator.grid st) (c.1 + d.1, c.2 + d.2)
}.

(** The quantity that every loop iteration decreases. *)
Definition maze_measure (st : MazeGenerator.State) : nat :=
  (Z.to_nat (MazeGenerator.width st) * Z.to_nat (MazeGenerator.height st)
   - open_cells (MazeGenerator.grid st) (MazeGenerator.width st) (MazeGenerator.height st)
   + length (MazeGenerator.stack st))%nat.

(** *** The search *)

Section SearchVocabulary.

Import heapq PathFinder.

Variables (W H : nat) (g : Grid) (start end_ : Cell).

(** Every cell the search can ever record: the start and the cells of the
    grid. *)
Definition universe : list Cell := start :: all_cells (Z.of_nat W) (Z.of_nat H).

Definition unseen_weight (cost : gmap Cell Z) (c : Cell) : nat :=
  match cost !! c with Some _ => 0 | None => 1 end.

Definition cost_weight (cost : gmap Cell Z) (c : Cell) : nat :=
  match cost !! c with Some k => Z.to_nat k | None => length universe end.

Definition unseen (st : State) : nat :=
  sum_list_with (unseen_weight (cost_so_far st)) universe.

Definition potential (st : State) : nat :=
  sum_list_with (cost_weight (cost_so_far st)) universe.

(** The quantity that every iteration of [while frontier] decreases. *)
Definition search_measure (st : State) : nat :=
  (potential st + length (frontier st))%nat.

(** What holds of the locals of [astar] throughout the search. *)
Record search_inv (st : State) : Prop := mk_search_inv {
  si_grid : grid st = g;
  si_start_cost : cost_so_far st !! start = Some 0;
  si_start_from : came_from st !! start = Some None;
  si_walk : forall c k, cost_so_far st !! c = Some k ->
    exists n, walk g start n c ∧ Z.of_nat n <= k;
  si_bound : forall c k, cost_so_far st !! c = Some k ->
    k + Z.of_nat (unseen st) < Z.of_nat (length universe);
  si_from : forall c, c ≠ start -> forall k, cost_so_far st !! c = Some k ->
    exists p kp, came_from st !! c = Some (Some p) ∧ is_open g c ∧ adjacent p c ∧
      cost_so_far st !! p = Some kp ∧ kp + 1 <= k;
  si_from_dom : forall c, is_Some (came_from st !! c) -> is_Some (cost_so_far st !! c);
  si_entry : forall p c, (p, c) ∈ frontier st ->
    exists k, cost_so_far st !! c = Some k ∧
      (k + heuristic end_ c <= p ∨ (c = start ∧ p = 0));
  si_heap : heap_ok (frontier st)
}.

(** Every recorded cell either still has a frontier entry at its recorded
    cost, or has passed that cost on to its open neighbours; for the cell
    under expansion only along the directions already handled. *)
Definition settled (pending : Cell) (ds : list (Z * Z)) (st : State) : Prop :=
  forall c k, cost_so_far st !! c = Some k ->
    (exists p, (p, c) ∈ frontier st ∧ p <= k + heuristic end_ c) ∨
    (forall c', adjacent c c' -> is_open g c' ->
       (c = pending -> (c'.1 - c.1, c'.2 - c.2) ∉ ds) ->
       exists k', cost_so_far st !! c' = Some k' ∧ k' <= k + 1).

(** The state after [neighbor] was recorded with cost [new_cost] reached
    from [current], with [frontier'] for the frontier after the push. *)
Definition updated (st : State) (current neighbor : Cell) (new_cost : Z)
    (frontier' : list Entry) : State :=
  mkState (grid st) frontier'
    (<[neighbor := Some current]> (came_from st))
    (<[neighbor := new_cost]> (cost_so_far st))
    (visited st).

(** [frontier'] is the frontier after the push for [neighbor]. *)
Definition pushed (st : State) (neighbor : Cell) (new_cost : Z)
    (frontier' : list Entry) : Prop :=
  heap_ok frontier' ∧
  frontier' ≡ₚ (new_cost + heuristic end_ neighbor, neighbor) :: frontier st.

(** The cells appended by the reconstruction from [c] back to the start,
    the start excluded. *)
Fixpoint back_chain (c : Cell) (tail : list Cell) : Prop :=
  match tail with
  | [] => c = start
  | x :: tail' =>
      x = c ∧ c ≠ start ∧ is_open g c ∧
      exists p, adjacent p c ∧ back_chain p tail'
  end.

(** The budget that suffices for a [W] by [H] grid. *)
Definition astar_budget : nat := (S (W * H) * S (W * H) + 2)%nat.

End SearchVocabulary.

(** *** Runs of the generator that were cut short *)

(** The generator with another stack. *)
Definition with_stack (st : MazeGenerator.State) (s : list Cell) : MazeGenerator.State :=
  MazeGenerator.mkState (MazeGenerator.width st) (MazeGenerator.height st)
    (MazeGenerator.grid st) (MazeGenerator.directions st) s (MazeGenerator.rng st).

(** The invariant of the loop for a generator whose grid was carved by
    earlier runs of [generate] as well: [left] holds the cells that were on
    the stacks of the runs that did not reach their end. *)
Definition resumed_inv (left : list Cell) (st : MazeGenerator.State) : Prop :=
  maze_inv (with_stack st (left ++ MazeGenerator.stack st)).

(** The cells and the number of [None]s among the values yielded. *)
Definition carved_cells (evs : list MazeGenerator.event) : list Cell :=
  omap (fun e => match e with
                 | MazeGenerator.Carved c => Some c
                 | MazeGenerator.StepBoundary => None
                 end) evs.

Definition boundaries (evs : list MazeGenerator.event) : nat :=
  length (List.filter (fun e => match e with
                                | MazeGenerator.Carved _ => false
                                | MazeGenerator.StepBoundary => true
                                end) evs).

(** How the values yielded so far relate to the generator: every open room
    but the first was yielded once, and every cell that left the stack
    accounts for one [None]. *)
Definition events_inv (st : MazeGenerator.State) (evs : list MazeGenerator.event) : Prop :=
  NoDup (carved_cells evs) ∧
  (forall c, c ∈ carved_cells evs <->
     is_open (MazeGenerator.grid st) c ∧ is_room c = true ∧ c ≠ (1, 1)) ∧
  (boundaries evs + length (MazeGenerator.stack st) = S (length (carved_cells evs)))%nat.

(** Every cell with a frontier entry has a recorded cost. *)
Definition frontier_recorded (st : PathFinder.State) : Prop :=
  forall p c, (p, c) ∈ PathFinder.frontier st -> is_Some (PathFinder.cost_so_far st !! c).


(** *** What the search has explored *)

(** The visited set against the dictionaries, with [current] the cell under
    expansion if there is one: visited cells have a cost, a cell with a cost
    is visited, under expansion or on the frontier, predecessors are
    visited or under expansion, and the start is visited from the first
    iteration on. *)
Definition explored (start : Cell) (current : option Cell) (st : PathFinder.State) : Prop :=
  (forall c, c ∈ PathFinder.visited st -> is_Some (PathFinder.cost_so_far st !! c)) ∧
  (forall c, is_Some (PathFinder.cost_so_far st !! c) ->
     c ∈ PathFinder.visited st ∨ Some c = current ∨
     exists p, (p, c) ∈ PathFinder.frontier st) ∧
  (forall c p, PathFinder.came_from st !! c = Some (Some p) ->
     p ∈ PathFinder.visited st ∨ Some p = current) ∧
  (start ∈ PathFinder.visited st ∨ Some start = current ∨
   (current = None ∧ PathFinder.frontier st = [(0, start)])).

(** A snapshot whose visited and frontier cells are the start or open
    cells of the grid. *)
Definition shows_open_cells (g : Grid) (start : Cell) (snap : PathFinder.Snapshot) : Prop :=
  (forall c, c ∈ snap.1.1 -> c = start ∨ is_open g c) ∧
  (forall p c, (p, c) ∈ snap.1.2 -> c = start ∨ is_open g c).

(** *** The game *)

(** Every room two cells from [(1, 1)] inside the border is open: a run of
    [generate] that starts now has nothing to carve. *)
Definition start_closed (m : MazeGenerator.State) : Prop :=
  forall d, d ∈ MazeGenerator.initial_directions ->
    interior (MazeGenerator.width m) (MazeGenerator.height m) (1 + d.1, 1 + d.2) ->
    is_open (MazeGenerator.grid m) (1 + d.1, 1 + d.2).

(** The stack of a running [generate] rests on [(1, 1)]; once it is empty
    the run has seen every direction from [(1, 1)] closed. *)
Definition stack_rooted (m : MazeGenerator.State) : Prop :=
  match MazeGenerator.stack m with
  | [] => start_closed m
  | c :: _ => c = (1, 1)
  end.

(** An iterator of [astar] that can be resumed: its frontier is a heap
    and every cell on it has a cost. *)
Definition iter_safe (it : PathFinder.Iter) : Prop :=
  match it with
  | PathFinder.Searching s => heap_ok (PathFinder.frontier s) ∧ frontier_recorded s
  | _ => True
  end.

(** The mouse events of a frame carry positions inside the window. *)
Definition click_in_window (ev : GameState.Event) : Prop :=
  match ev with
  | GameState.MOUSEBUTTONDOWN pos _ =>
      0 <= pos.1 < GameState.WINDOW_WIDTH ∧ 0 <= pos.2 < GameState.WINDOW_HEIGHT
  | _ => True
  end.

Definition clicks_in_window (frames : list (list GameState.Event)) : Prop :=
  Forall (Forall click_in_window) frames.

(** No run of [generate] has started yet: the grid is all walls and the
    iterator [main] created waits for its first [next]. *)
Definition maze_pending (st : GameState.State) : Prop :=
  (exists r, GameState.maze st =
             MazeGenerator.init GameState.GRID_WIDTH GameState.GRID_HEIGHT r) ∧
  GameState.gen_iterator st = Some false ∧ GameState.generating st = true.

(** A run of [generate] has started: the grid is the work of that run and
    of the runs [regenerate_maze] cut short before it. *)
Definition maze_begun (st : GameState.State) : Prop :=
  exists left, resumed_inv left (GameState.maze st) ∧
    (GameState.gen_iterator st = Some true -> stack_rooted (GameState.maze st)) ∧
    (GameState.generating st = false ->
       GameState.gen_iterator st = Some true ∧
       MazeGenerator.stack (GameState.maze st) = []).

(** What holds of the game between two frames. *)
Record session_inv (st : GameState.State) : Prop := mk_session_inv {
  gs_width : MazeGenerator.width (GameState.maze st) = GameState.GRID_WIDTH;
  gs_height : MazeGenerator.height (GameState.maze st) = GameState.GRID_HEIGHT;
  gs_maze : maze_pending st ∨ maze_begun st;
  gs_gen : GameState.generating st = true -> is_Some (GameState.gen_iterator st);
  gs_start : forall c, GameState.start st = Some c ->
    is_open (MazeGenerator.grid (GameState.maze st)) c;
  gs_end : forall c, GameState.end_ st = Some c ->
    is_open (MazeGenerator.grid (GameState.maze st)) c;
  gs_solving : GameState.solving st = true -> is_Some (GameState.astar_iterator st);
  gs_iter : forall s e it, GameState.astar_iterator st = Some (s, e, it) -> iter_safe it
}.

(** The last run of [generate] has ended, or a new one is about to start on
    its maze: nothing is left to carve. *)
Definition maze_finished (st : GameState.State) : Prop :=
  start_closed (GameState.maze st) ∧
  (GameState.gen_iterator st = Some true -> MazeGenerator.stack (GameState.maze st) = []).

(** The game after its generator was advanced: the maze is [m], the
    iterator has started, [generating] is as given. *)
Definition with_maze (st : GameState.State) (m : MazeGenerator.State) (gen : bool)
  : GameState.State :=
  GameState.mkState m (GameState.start st) (GameState.end_ st) (GameState.path st)
    (GameState.visited st) (GameState.frontier st) gen (GameState.solving st)
    (GameState.animation_speed st) (Some true) (GameState.astar_iterator st).

(** What the game shows after the snapshots [snaps] were taken in, one a
    frame. *)
Definition shows_last (snaps : list PathFinder.Snapshot) (st0 st : GameState.State) : Prop :=
  match last snaps with
  | Some snap =>
      GameState.visited st = snap.1.1 ∧ GameState.frontier st = snap.1.2 ∧
      GameState.path st = snap.2
  | None =>
      GameState.visited st = GameState.visited st0 ∧
      GameState.frontier st = GameState.frontier st0 ∧
      GameState.path st = GameState.path st0
  end.

(** The cell a position of the window lies in: [x // CELL_SIZE] and
    [y // CELL_SIZE]. *)
Definition cell_under (pos : Z * Z) : Cell :=
  (pos.1 / GameState.CELL_SIZE, pos.2 / GameState.CELL_SIZE).

(** The measure of the loop of [generate] for a run on a grid that earlier
    runs have carved. *)
Definition resumed_measure (old : list Cell) (m : MazeGenerator.State) : nat :=
  maze_measure (with_stack m (old ++ MazeGenerator.stack m)).

(** *** The screen *)

(** The colour a call leaves on the square of the cell [c], if it paints
    that square. *)
Definition paints (op : GameState.DrawOp) (c : Cell) : option GameState.Colors :=
  match op with
  | GameState.Fill color => Some color
  | GameState.Rect color rect =>
      if decide (rect = GameState.cell_rect c) then Some color else None
  | GameState.Flip => None
  end.

(** The colour of the square of [c] after the calls [ops]: that of the last
    call that painted it. *)
Fixpoint shown (ops : list GameState.DrawOp) (c : Cell) : option GameState.Colors :=
  match ops with
  | [] => None
  | op :: rest =>
      match shown rest c with
      | Some color => Some color
      | None => paints op c
      end
  end.

(** The colour of a cell by what the game holds: the end cell before the
    start cell, then the path, the frontier, the visited cells, and the
    maze itself. *)
Definition cell_colour (st : GameState.State) (c : Cell) : GameState.Colors :=
  if decide (GameState.end_ st = Some c) then GameState.RED
  else if decide (GameState.start st = Some c) then GameState.GREEN
  else if decide (c ∈ default [] (GameState.path st)) then GameState.BLUE
  else if decide (c ∈ map snd (GameState.frontier st)) then GameState.PURPLE
  else if decide (c ∈ GameState.visited st) then GameState.GREY
  else if is_openb (MazeGenerator.grid (GameState.maze st)) c
       then GameState.WHITE else GameState.BLACK.

(** ** Grids *)

Section Grids.

Lemma py_index_nonneg {A} (l : list A) (i : Z) :
  0 <= i < Z.of_nat (length l) -> py_index l i = Some (Z.to_nat i).
Proof.
  intros Hi. unfold py_index.
  destruct (0 <=? i) eqn:E1; [|lia].
  destruct (i <? Z.of_nat (length l)) eqn:E2; [reflexivity|lia].
Qed.

Lemma py_get_nonneg {A} (l : list A) (i : Z) (a : A) :
  0 <= i -> l !! Z.to_nat i = Some a -> py_get l i = Done a.
Proof.
  intros Hi Hl. unfold py_get.
  rewrite py_index_nonneg, Hl; [reflexivity|].
  apply lookup_lt_Some in Hl. lia.
Qed.

Lemma py_set_nonneg {A} (l : list A) (i : Z) (a : A) :
  0 <= i < Z.of_nat (length l) -> py_set l i a = Done (<[Z.to_nat i := a]> l).
Proof. intros Hi. unfold py_set. by rewrite py_index_nonneg. Qed.

Lemma cell_at_Some g x y v :
  cell_at g (x, y) = Some v <->
  0 <= x ∧ 0 <= y ∧ exists row, g !! Z.to_nat y = Some row ∧ row !! Z.to_nat x = Some v.
Proof.
  unfold cell_at. simpl. split.
  - destruct (0 <=? x) eqn:Ex, (0 <=? y) eqn:Ey; simpl; try discriminate.
    destruct (g !! Z.to_nat y) as [row|] eqn:Hr; simpl; [|discriminate].
    intros Hv. repeat split; try lia. eauto.
  - intros (Hx & Hy & row & Hr & Hv).
    destruct (0 <=? x) eqn:Ex, (0 <=? y) eqn:Ey; simpl; try lia.
    by rewrite Hr.
Qed.

Lemma rectangular_row (w h : nat) (g : Grid) i row :
  rectangular w h g -> g !! i = Some row -> length row = w.
Proof.
  intros [_ Hw] Hr. rewrite Forall_forall in Hw.
  apply Hw. eapply list_elem_of_lookup_2, Hr.
Qed.

Lemma rectangular_cell (w h : nat) g x y :
  rectangular w h g -> 0 <= x < Z.of_nat w -> 0 <= y < Z.of_nat h ->
  exists v, cell_at g (x, y) = Some v.
Proof.
  intros [Hh Hw] Hx Hy.
  destruct (lookup_lt_is_Some_2 g (Z.to_nat y)) as [row Hr]; [lia|].
  assert (length row = w) as Hlen by (eapply rectangular_row; [split|]; eauto).
  destruct (lookup_lt_is_Some_2 row (Z.to_nat x)) as [v Hv]; [lia|].
  exists v. apply cell_at_Some. repeat split; try lia. eauto.
Qed.

Lemma cell_at_bounds (w h : nat) g c v :
  rectangular w h g -> cell_at g c = Some v ->
  0 <= c.1 < Z.of_nat w ∧ 0 <= c.2 < Z.of_nat h.
Proof.
  destruct c as [x y]. intros [Hh Hw] (Hx & Hy & row & Hr & Hv)%cell_at_Some. simpl.
  assert (length row = w) as Hlen by (eapply rectangular_row; [split|]; eauto).
  apply lookup_lt_Some in Hr, Hv. lia.
Qed.

Lemma grid_get_cell g x y v :
  cell_at g (x, y) = Some v -> grid_get g x y = Done v.
Proof.
  intros (Hx & Hy & row & Hr & Hv)%cell_at_Some. unfold grid_get.
  rewrite (py_get_nonneg _ _ _ Hy Hr). simpl. by apply py_get_nonneg.
Qed.

Lemma grid_set_cell (w h : nat) g x y v :
  rectangular w h g -> 0 <= x < Z.of_nat w -> 0 <= y < Z.of_nat h ->
  exists g', grid_set g x y v = Done g' ∧ rectangular w h g' ∧
    forall c, cell_at g' c = if decide (c = (x, y)) then Some v else cell_at g c.
Proof.
  intros [Hh Hw] Hx Hy.
  destruct (lookup_lt_is_Some_2 g (Z.to_nat y)) as [row Hr]; [lia|].
  assert (length row = w) as Hlen by (eapply rectangular_row; [split|]; eauto).
  exists (<[Z.to_nat y := <[Z.to_nat x := v]> row]> g). split; [|split].
  - unfold grid_set. rewrite (py_get_nonneg _ _ row) by (lia || done). simpl.
    rewrite py_set_nonneg by lia. simpl. rewrite py_set_nonneg by lia. done.
  - split; [by rewrite length_insert|].
    apply Forall_insert; [done|]. by rewrite length_insert.
  - intros [cx cy]. destruct (decide ((cx, cy) = (x, y))) as [[= -> ->]|Hne].
    + apply cell_at_Some. repeat split; try lia.
      exists (<[Z.to_nat x := v]> row). split.
      * apply list_lookup_insert_eq. lia.
      * apply list_lookup_insert_eq. lia.
    + unfold cell_at. simpl.
      destruct ((0 <=? cx) && (0 <=? cy)) eqn:E; [|done].
      apply andb_true_iff in E as [Ex Ey].
      destruct (decide (Z.to_nat cy = Z.to_nat y)) as [Heq|Hney].
      * rewrite Heq, list_lookup_insert_eq by lia. rewrite Hr. simpl.
        apply list_lookup_insert_ne. intros Heqx. apply Hne. f_equal; lia.
      * by rewrite list_lookup_insert_ne.
Qed.

Lemma is_openb_true g c : is_openb g c = true <-> is_open g c.
Proof.
  unfold is_openb, is_open. destruct (cell_at g c) as [v|]; [|split; discriminate].
  split.
  - intros ->%Z.eqb_eq. done.
  - intros [= ->]. done.
Qed.

End Grids.

(** ** Counting cells *)

Section Counting.

Lemma NoDup_list_prod {A B} (l : list A) (k : list B) :
  NoDup l -> NoDup k -> NoDup (list_prod l k).
Proof.
  intros Hl Hk. induction Hl as [|a l Ha Hl IH]; simpl; [constructor|].
  apply NoDup_app. split; [|split; [|exact IH]].
  - apply (NoDup_fmap_2 (pair a)), Hk.
  - intros [a' b] [b' [[= -> ->] _]]%list_elem_of_fmap Hin.
    apply list_elem_of_In, in_prod_iff in Hin as [Hin _].
    apply Ha. by apply list_elem_of_In.
Qed.

Lemma NoDup_all_cells w h : NoDup (all_cells w h).
Proof. apply NoDup_list_prod; apply NoDup_seqZ. Qed.

Lemma elem_of_all_cells w h (c : Cell) :
  c ∈ all_cells w h <-> 0 <= c.1 < w ∧ 0 <= c.2 < h.
Proof.
  destruct c as [x y]. unfold all_cells. rewrite list_elem_of_In, in_prod_iff.
  rewrite <- !list_elem_of_In, !elem_of_seqZ. simpl. lia.
Qed.

Lemma length_all_cells w h : length (all_cells w h) = (Z.to_nat w * Z.to_nat h)%nat.
Proof. unfold all_cells. by rewrite length_prod, !length_seqZ. Qed.

Lemma filter_ext_elem {A} (p q : A -> bool) (l : list A) :
  (forall a, a ∈ l -> q a = p a) -> List.filter q l = List.filter p l.
Proof.
  induction l as [|a l IH]; intros H; [done|]. simpl.
  rewrite (H a) by (by left). rewrite IH; [done|]. intros b Hb. apply H. by right.
Qed.

Lemma filter_flip_length {A} (p q : A -> bool) (l : list A) (c : A) :
  NoDup l -> c ∈ l -> p c = false -> q c = true ->
  (forall a, a ∈ l -> a ≠ c -> q a = p a) ->
  length (List.filter q l) = S (length (List.filter p l)).
Proof.
  induction l as [|a l IH]; intros Hnd Hin Hp Hq Hext.
  - by apply elem_of_nil in Hin.
  - apply NoDup_cons in Hnd as [Ha Hnd]. simpl.
    apply elem_of_cons in Hin as [->|Hin].
    + rewrite Hp, Hq. simpl. f_equal. f_equal. apply filter_ext_elem.
      intros b Hb. apply Hext; [by right|]. intros ->. done.
    + assert (a ≠ c) as Hne by (intros ->; done).
      rewrite (Hext a) by (done || by left).
      assert (length (List.filter q l) = S (length (List.filter p l))) as IH'.
      { apply IH; try done. intros b Hb. apply Hext. by right. }
      destruct (p a); simpl; by rewrite IH'.
Qed.

Lemma count_cells_ext p q w h :
  (forall c, 0 <= c.1 < w -> 0 <= c.2 < h -> q c = p c) ->
  count_cells q w h = count_cells p w h.
Proof.
  intros H. unfold count_cells. f_equal. apply filter_ext_elem.
  intros c Hc. apply elem_of_all_cells in Hc as [? ?]. by apply H.
Qed.

Lemma count_cells_flip p q w h (c : Cell) :
  0 <= c.1 < w -> 0 <= c.2 < h -> p c = false -> q c = true ->
  (forall d, d ≠ c -> q d = p d) ->
  count_cells q w h = S (count_cells p w h).
Proof.
  intros Hx Hy Hp Hq Hext. unfold count_cells.
  apply (filter_flip_length p q _ c); auto using NoDup_all_cells.
  by apply elem_of_all_cells.
Qed.

Lemma count_cells_le p w h : (count_cells p w h <= Z.to_nat w * Z.to_nat h)%nat.
Proof.
  unfold count_cells. rewrite <- length_all_cells. apply List.filter_length_le.
Qed.

Lemma count_cells_split p q w h :
  count_cells q w h =
  (count_cells (fun c => p c && q c) w h + count_cells (fun c => negb (p c) && q c) w h)%nat.
Proof.
  unfold count_cells. induction (all_cells w h) as [|c l IH]; [done|].
  simpl. destruct (p c), (q c); simpl; lia.
Qed.

End Counting.

(** ** The maze generator *)

Section MazeProofs.

Import MazeGenerator.

Lemma odd_mod x : Z.odd x = true <-> x mod 2 = 1.
Proof. rewrite Zodd_mod. rewrite Z.eqb_eq. done. Qed.

Lemma even_mod x : Z.even x = true <-> x mod 2 = 0.
Proof. rewrite Zeven_mod. rewrite Z.eqb_eq. done. Qed.

Lemma is_room_spec (c : Cell) : is_room c = true <-> c.1 mod 2 = 1 ∧ c.2 mod 2 = 1.
Proof. unfold is_room. rewrite andb_true_iff, !odd_mod. done. Qed.

Lemma walk_mono g g' a n b :
  (forall c, is_open g c -> is_open g' c) -> walk g a n b -> walk g' a n b.
Proof.
  intros Hmono Hw. induction Hw; [constructor|].
  econstructor; eauto.
Qed.

Lemma swap_elem_of {A} (l : list A) i j x : x ∈ swap l i j <-> x ∈ l.
Proof.
  unfold swap. destruct (l !! i) as [a|] eqn:Hi; [|done].
  destruct (l !! j) as [b|] eqn:Hj; [|done].
  assert (i < length l)%nat as Hil by (by eapply lookup_lt_Some).
  assert (j < length l)%nat as Hjl by (by eapply lookup_lt_Some).
  rewrite !list_elem_of_lookup. split.
  - intros [k Hk]. apply list_lookup_insert_Some in Hk as [(-> & -> & _)|[Hne Hk]]; [eauto|].
    apply list_lookup_insert_Some in Hk as [(-> & -> & _)|[Hne' Hk]]; eauto.
  - intros [k Hk]. destruct (decide (k = j)) as [->|Hkj].
    + assert (x = b) as -> by congruence.
      destruct (decide (i = j)) as [->|Hij].
      * exists j. rewrite list_lookup_insert_eq by (by rewrite length_insert). congruence.
      * exists i. rewrite list_lookup_insert_ne by done.
        by rewrite list_lookup_insert_eq.
    + destruct (decide (k = i)) as [->|Hki].
      * assert (x = a) as -> by congruence.
        exists j. by rewrite list_lookup_insert_eq by (by rewrite length_insert).
      * exists k. by rewrite !list_lookup_insert_ne.
Qed.

Lemma shuffle_loop_elem_of {A} i (l : list A) r x :
  x ∈ (shuffle_loop i l r).1 <-> x ∈ l.
Proof.
  revert l r. induction i as [|i IH]; intros l r; [done|].
  simpl. rewrite IH. apply swap_elem_of.
Qed.

Lemma shuffle_elem_of {A} (l : list A) r x : x ∈ (shuffle l r).1 <-> x ∈ l.
Proof. apply shuffle_loop_elem_of. Qed.

Lemma initial_directions_cases (d : Z * Z) :
  d ∈ initial_directions <-> d = (-2, 0) ∨ d = (2, 0) ∨ d = (0, -2) ∨ d = (0, 2).
Proof.
  unfold initial_directions. rewrite !elem_of_cons, elem_of_nil. tauto.
Qed.

(** What the scan of the directions does at the top cell [(x, y)]. *)
Lemma try_carve_spec w h g x y dirs :
  rectangular (Z.to_nat w) (Z.to_nat h) g ->
  interior w h (x, y) ->
  (forall d, d ∈ dirs -> d ∈ initial_directions) ->
  (try_carve w h g x y dirs = Done None ∧
   forall d, d ∈ dirs -> interior w h (x + d.1, y + d.2) ->
     ¬ is_wall g (x + d.1, y + d.2))
  ∨ (exists d g', d ∈ dirs ∧ interior w h (x + d.1, y + d.2) ∧
       is_wall g (x + d.1, y + d.2) ∧
       try_carve w h g x y dirs = Done (Some (g', (x + d.1, y + d.2))) ∧
       rectangular (Z.to_nat w) (Z.to_nat h) g' ∧
       forall c, cell_at g' c =
         if decide (c = (x + d.1 / 2, y + d.2 / 2) ∨ c = (x + d.1, y + d.2))
         then Some 0 else cell_at g c).
Proof.
  intros Hrect Hxy Hdirs. induction dirs as [|[dx dy] dirs IH].
  - left. split; [done|]. intros d Hd. by apply elem_of_nil in Hd.
  - assert (forall d, d ∈ dirs -> d ∈ initial_directions) as Hdirs'
      by (intros d Hd; apply Hdirs; by right).
    specialize (IH Hdirs').
    assert ((dx, dy) ∈ initial_directions) as Hd0 by (apply Hdirs; by left).
    simpl.
    destruct ((1 <=? x + dx) && (x + dx <? w - 1) &&
              ((1 <=? y + dy) && (y + dy <? h - 1))) eqn:Hin.
    + assert (interior w h (x + dx, y + dy)) as Hint.
      { unfold interior; simpl.
        apply andb_true_iff in Hin as [[? ?]%andb_true_iff [? ?]%andb_true_iff]. lia. }
      destruct (rectangular_cell _ _ g (x + dx) (y + dy) Hrect) as [v Hv].
      { destruct Hint as [? ?]; simpl in *; lia. }
      { destruct Hint as [? ?]; simpl in *; lia. }
      rewrite (grid_get_cell _ _ _ _ Hv). simpl.
      destruct (v =? 1) eqn:Hv1.
      * apply Z.eqb_eq in Hv1 as ->. right.
        destruct (grid_set_cell _ _ g (x + dx) (y + dy) 0 Hrect) as (g1 & Hs1 & Hr1 & Hc1).
        { destruct Hint as [? ?]; simpl in *; lia. }
        { destruct Hint as [? ?]; simpl in *; lia. }
        destruct (grid_set_cell _ _ g1 (x + dx / 2) (y + dy / 2) 0 Hr1) as (g2 & Hs2 & Hr2 & Hc2).
        { destruct Hxy as [? ?], Hint as [? ?]; cbn [fst snd] in *.
          apply initial_directions_cases in Hd0 as [[= -> ->]|[[= -> ->]|[[= -> ->]|[= -> ->]]]];
            lia. }
        { destruct Hxy as [? ?], Hint as [? ?]; cbn [fst snd] in *.
          apply initial_directions_cases in Hd0 as [[= -> ->]|[[= -> ->]|[[= -> ->]|[= -> ->]]]];
            lia. }
        exists (dx, dy), g2. cbn [fst snd].
        split; [by left|]. split; [exact Hint|]. split; [exact Hv|].
        split; [by rewrite Hs1; simpl; rewrite Hs2|]. split; [exact Hr2|].
        intros c. rewrite Hc2, Hc1.
        repeat case_decide; try done; exfalso; tauto.
      * destruct IH as [[Hnone Hall]|(d & g' & Hd & Hi & Hw & Htc & Hr & Hc)].
        -- left. split; [done|]. intros d [->|Hd]%elem_of_cons Hi; [|by apply Hall].
           simpl. unfold is_wall. rewrite Hv. intros [= ->]. done.
        -- right. exists d, g'. split; [by right|]. repeat (split; [assumption|]). assumption.
    + destruct IH as [[Hnone Hall]|(d & g' & Hd & Hi & Hw & Htc & Hr & Hc)].
      * left. split; [done|]. intros d [->|Hd]%elem_of_cons Hi; [|by apply Hall].
        exfalso. destruct Hi as [? ?]; simpl in *.
        apply andb_false_iff in Hin as [[?|?]%andb_false_iff|[?|?]%andb_false_iff]; lia.
      * right. exists d, g'. split; [by right|]. repeat (split; [assumption|]). assumption.
Qed.

Lemma is_open_eq g (c c' : Cell) : c = c' -> is_open g c -> is_open g c'.
Proof. by intros ->. Qed.

Lemma is_openb_false g c : is_openb g c = false <-> ¬ is_open g c.
Proof. rewrite <- is_openb_true. by destruct (is_openb g c). Qed.

Lemma open_cells_split g w h :
  open_cells g w h = (open_rooms g w h + open_connectors g w h)%nat.
Proof. apply (count_cells_split is_room). Qed.

Lemma direction_shape (d : Z * Z) :
  d ∈ initial_directions ->
  (d.2 = 0 ∧ (d.1 = -2 ∨ d.1 = 2)) ∨ (d.1 = 0 ∧ (d.2 = -2 ∨ d.2 = 2)).
Proof.
  intros [-> | [-> | [-> | ->]]]%initial_directions_cases; cbn [fst snd]; lia.
Qed.

(** Carving from the top of the stack keeps the invariant and decreases the
    measure. *)
Lemma maze_carve_inv st x y (d : Z * Z) g' dirs' r' :
  maze_inv st ->
  last (stack st) = Some (x, y) ->
  d ∈ initial_directions ->
  interior (width st) (height st) (x + d.1, y + d.2) ->
  is_wall (grid st) (x + d.1, y + d.2) ->
  rectangular (Z.to_nat (width st)) (Z.to_nat (height st)) g' ->
  (forall c, cell_at g' c =
     if decide (c = (x + d.1 / 2, y + d.2 / 2) ∨ c = (x + d.1, y + d.2))
     then Some 0 else cell_at (grid st) c) ->
  (forall e, e ∈ dirs' <-> e ∈ initial_directions) ->
  let st' := mkState (width st) (height st) g' dirs'
               (stack st ++ [(x + d.1, y + d.2)]) r' in
  maze_inv st' ∧ (maze_measure st' < maze_measure st)%nat.
Proof.
  intros Hinv Hlast Hd Hint Hwall Hrect' Hcell Hdirs'.
  destruct Hinv as [Hw Hh Hrect Hvals Hopen Hstack Hstart Hconn Hcount Hdirs Hdone].
  set (n := (x + d.1, y + d.2)) in *.
  set (b := (x + d.1 / 2, y + d.2 / 2)) in *.
  pose proof (direction_shape d Hd) as Hshape.
  destruct (Hstack (x, y)) as [Htop Hroom]; [by eapply last_Some_elem_of|].
  destruct (Hopen _ Htop) as [Hxy _].
  apply is_room_spec in Hroom. cbn [fst snd] in Hroom.
  assert (forall c, is_open g' c <-> c = b ∨ c = n ∨ is_open (grid st) c) as Hopen'.
  { intros c. unfold is_open. rewrite Hcell. case_decide; [|tauto].
    split; [tauto|done]. }
  assert (forall c, is_open (grid st) c -> is_open g' c) as Hmono
    by (intros c Hc; apply Hopen'; tauto).
  assert (¬ is_open (grid st) n) as Hn
    by (unfold is_open; unfold is_wall in Hwall; congruence).
  assert (is_room n = true) as Hnroom.
  { apply is_room_spec. subst n. cbn [fst snd]. lia. }
  assert (is_room b = false) as Hbroom.
  { apply not_true_is_false. intros Hb%is_room_spec. subst b. cbn [fst snd] in Hb. lia. }
  assert (interior (width st) (height st) b) as Hbint.
  { subst n b. unfold interior in *. cbn [fst snd] in *. lia. }
  assert (joins g' b) as Hbjoin.
  { unfold joins. subst b. cbn [fst snd].
    destruct Hshape as [[Hd2 Hd1]|[Hd1 Hd2]].
    - left. rewrite even_mod, odd_mod. split; [lia|]. split; [lia|].
      destruct Hd1 as [Hd1|Hd1]; split; apply Hopen'.
      + right; left. subst n. f_equal; lia.
      + right; right. eapply is_open_eq, Htop. f_equal; lia.
      + right; right. eapply is_open_eq, Htop. f_equal; lia.
      + right; left. subst n. f_equal; lia.
    - right. rewrite even_mod, odd_mod. split; [lia|]. split; [lia|].
      destruct Hd2 as [Hd2|Hd2]; split; apply Hopen'.
      + right; left. subst n. f_equal; lia.
      + right; right. eapply is_open_eq, Htop. f_equal; lia.
      + right; right. eapply is_open_eq, Htop. f_equal; lia.
      + right; left. subst n. f_equal; lia. }
  assert (¬ is_open (grid st) b) as Hb.
  { intros Hbo. destruct (Hopen _ Hbo) as [_ [Hr|Hj]]; [congruence|].
    apply Hn. unfold joins in Hj. subst b. cbn [fst snd] in Hj.
    rewrite !even_mod, !odd_mod in Hj.
    destruct Hj as [(He & Ho & Hl & Hr)|(Ho & He & Hl & Hr)].
    - destruct Hshape as [[Hd2 [Hd1|Hd1]]|[Hd1 Hd2]]; [| |lia].
      + eapply is_open_eq, Hl. subst n. f_equal; lia.
      + eapply is_open_eq, Hr. subst n. f_equal; lia.
    - destruct Hshape as [[Hd2 Hd1]|[Hd1 [Hd2|Hd2]]]; [lia| |].
      + eapply is_open_eq, Hl. subst n. f_equal; lia.
      + eapply is_open_eq, Hr. subst n. f_equal; lia. }
  assert (b ≠ n) as Hbn by (intros Heq; congruence).
  assert (forall c, is_openb g' c =
            if decide (c = b ∨ c = n) then true else is_openb (grid st) c) as Hopenb.
  { intros c. unfold is_openb. rewrite Hcell. by case_decide. }
  assert (open_rooms g' (width st) (height st) =
          S (open_rooms (grid st) (width st) (height st))) as Hrooms.
  { apply (count_cells_flip _ _ _ _ n).
    - unfold interior in Hint. cbn [fst snd] in *. lia.
    - unfold interior in Hint. cbn [fst snd] in *. lia.
    - apply andb_false_iff. right. by apply is_openb_false.
    - rewrite Hnroom, Hopenb. case_decide; [done|tauto].
    - intros c Hc. rewrite Hopenb. case_decide as Hcase; [|done].
      destruct Hcase as [-> | ->]; [|done]. by rewrite Hbroom. }
  assert (open_connectors g' (width st) (height st) =
          S (open_connectors (grid st) (width st) (height st))) as Hconns.
  { apply (count_cells_flip _ _ _ _ b).
    - unfold interior in Hbint. lia.
    - unfold interior in Hbint. lia.
    - apply andb_false_iff. right. by apply is_openb_false.
    - rewrite Hbroom, Hopenb. case_decide; [done|tauto].
    - intros c Hc. rewrite Hopenb. case_decide as Hcase; [|done].
      destruct Hcase as [-> | ->]; [done|]. by rewrite Hnroom. }
  split.
  - constructor; cbn [width height grid directions stack rng]; try done.
    + intros c v. rewrite Hcell. case_decide; [intros [= <-]; by left|apply Hvals].
    + intros c [-> | [-> | Hc]]%Hopen'.
      * split; [done|by right].
      * split; [done|by left].
      * destruct (Hopen _ Hc) as [Hi [Hr|Hj]]; split; try done; [by left|right].
        unfold joins in *. destruct Hj as [(?&?&?&?)|(?&?&?&?)]; [left|right]; auto.
    + intros c [Hc|Hc%list_elem_of_singleton]%elem_of_app.
      * destruct (Hstack _ Hc) as [? ?]. auto.
      * subst c. split; [|done]. apply Hopen'. tauto.
    + by apply Hmono.
    + assert (reachable g' (1, 1) b) as Hrb.
      { destruct (Hconn _ Htop) as [k Hk]. exists (S k).
        apply (walk_step _ _ _ (x, y)).
        - by eapply walk_mono.
        - unfold adjacent. subst b. cbn [fst snd]. lia.
        - apply Hopen'. tauto. }
      intros c [-> | [-> | Hc]]%Hopen'; [done| |].
      * destruct Hrb as [k Hk]. exists (S k). apply (walk_step _ _ _ b); [done| |].
        -- unfold adjacent. subst b n. cbn [fst snd]. lia.
        -- apply Hopen'. tauto.
      * destruct (Hconn _ Hc) as [k Hk]. exists k. by eapply walk_mono.
    + by rewrite Hrooms, Hconns, Hcount.
    + intros c e [-> | [-> | Hc]]%Hopen' Hcr Hnotin He Hi.
      * congruence.
      * exfalso. apply Hnotin, elem_of_app. right. by apply list_elem_of_singleton.
      * apply Hmono, Hdone; try done. intros Hin. apply Hnotin, elem_of_app. by left.
  - unfold maze_measure. cbn [width height grid directions stack rng].
    rewrite length_app. cbn [length].
    pose proof (count_cells_le (is_openb g') (width st) (height st)) as Hle.
    fold (open_cells g' (width st) (height st)) in Hle.
    rewrite open_cells_split in Hle |- *. rewrite (open_cells_split (grid st)).
    lia.
Qed.

(** Backtracking from a top cell with no wall left to carve keeps the
    invariant and decreases the measure. *)
Lemma maze_pop_inv st x y dirs' r' :
  maze_inv st ->
  last (stack st) = Some (x, y) ->
  (forall e, e ∈ dirs' <-> e ∈ initial_directions) ->
  (forall d, d ∈ initial_directions ->
     interior (width st) (height st) (x + d.1, y + d.2) ->
     ¬ is_wall (grid st) (x + d.1, y + d.2)) ->
  let st' := mkState (width st) (height st) (grid st) dirs' (removelast (stack st)) r' in
  maze_inv st' ∧ (maze_measure st' < maze_measure st)%nat.
Proof.
  intros Hinv Hlast Hdirs' Hnone.
  destruct Hinv as [Hw Hh Hrect Hvals Hopen Hstack Hstart Hconn Hcount Hdirs Hdone].
  apply last_Some in Hlast as [below Hst]. cbn zeta.
  rewrite Hst, removelast_last in *.
  split.
  - constructor; cbn [width height grid directions stack rng]; try done.
    + intros c Hc. apply Hstack, elem_of_app. by left.
    + intros c d Hc Hcr Hnotin Hd Hi.
      destruct (decide (c = (x, y))) as [->|Hne].
      * cbn [fst snd] in *.
        destruct (rectangular_cell _ _ (grid st) (x + d.1) (y + d.2) Hrect) as [v Hv].
        { unfold interior in Hi. cbn [fst snd] in Hi. lia. }
        { unfold interior in Hi. cbn [fst snd] in Hi. lia. }
        destruct (Hvals _ _ Hv) as [-> | ->]; [done|].
        by destruct (Hnone d Hd Hi).
      * apply Hdone; try done.
        intros [Hin|Hin%list_elem_of_singleton]%elem_of_app; done.
  - unfold maze_measure. cbn [width height grid directions stack rng].
    rewrite Hst, length_app. cbn [length]. lia.
Qed.

(** One loop iteration from a state with a non-empty stack. *)
Lemma step_inv animate st x y :
  maze_inv st ->
  last (stack st) = Some (x, y) ->
  exists st' evs,
    step animate st x y = Done (st', evs) ∧ maze_inv st' ∧
    (maze_measure st' < maze_measure st)%nat ∧
    width st' = width st ∧ height st' = height st ∧
    (length evs <= 1)%nat.
Proof.
  intros Hinv Hlast. unfold step.
  destruct (shuffle (directions st) (rng st)) as [dirs r] eqn:Hsh.
  assert (forall e, e ∈ dirs <-> e ∈ initial_directions) as Hdirs.
  { intros e. rewrite <- (inv_dirs st Hinv).
    pose proof (shuffle_elem_of (directions st) (rng st) e) as H.
    by rewrite Hsh in H. }
  assert (interior (width st) (height st) (x, y)) as Hxy.
  { apply (inv_open st Hinv), (inv_stack st Hinv). by eapply last_Some_elem_of. }
  destruct (try_carve_spec (width st) (height st) (grid st) x y dirs
              (inv_rect st Hinv) Hxy) as [[Htc Hall]|(d & g' & Hd & Hi & Hw & Htc & Hr & Hc)].
  { intros d Hd. by apply Hdirs. }
  - rewrite Htc. cbn [mbind res_bind].
    destruct (maze_pop_inv st x y dirs r Hinv Hlast Hdirs) as [Hinv' Hlt].
    { intros d Hd. apply Hall. by apply Hdirs. }
    eexists _, _. split; [done|]. split_and!; try done.
    destruct animate; cbn [length]; lia.
  - rewrite Htc. cbn [mbind res_bind].
    destruct (maze_carve_inv st x y d g' dirs r Hinv Hlast) as [Hinv' Hlt]; try done.
    { by apply Hdirs. }
    eexists _, _. split; [done|]. split_and!; try done.
    destruct animate; cbn [length]; lia.
Qed.

Lemma cell_at_fresh w h (c : Cell) :
  cell_at (fresh_grid w h) c =
  if decide (0 <= c.1 < w ∧ 0 <= c.2 < h) then Some 1 else None.
Proof.
  unfold cell_at, fresh_grid. destruct c as [x y]. cbn [fst snd].
  destruct ((0 <=? x) && (0 <=? y)) eqn:E.
  - apply andb_true_iff in E as [Ex Ey].
    destruct (decide (y < h)) as [Hy|Hy].
    + rewrite lookup_replicate_2 by lia. cbn [mbind option_bind].
      destruct (decide (x < w)) as [Hx|Hx].
      * rewrite lookup_replicate_2 by lia. case_decide; [done|lia].
      * rewrite (proj1 (lookup_replicate_None _ _ _)) by lia. case_decide; [lia|done].
    + rewrite (proj1 (lookup_replicate_None _ _ _)) by lia. cbn [mbind option_bind].
      case_decide; [lia|done].
  - case_decide; [|done]. apply andb_false_iff in E as [?|?]; lia.
Qed.

Lemma rectangular_fresh w h : rectangular (Z.to_nat w) (Z.to_nat h) (fresh_grid w h).
Proof.
  split; [apply length_replicate|].
  apply Forall_replicate, length_replicate.
Qed.

Lemma count_cells_none p w h :
  (forall c, 0 <= c.1 < w -> 0 <= c.2 < h -> p c = false) -> count_cells p w h = 0%nat.
Proof.
  intros H. rewrite (count_cells_ext (fun _ => false) p) by done.
  unfold count_cells. by induction (all_cells w h).
Qed.

(** The prologue of [generate] establishes the invariant. *)
Lemma begin_inv w h r :
  3 <= w -> 3 <= h ->
  exists st, begin (init w h r) = Done st ∧ maze_inv st ∧
    width st = w ∧ height st = h ∧
    (maze_measure st <= Z.to_nat w * Z.to_nat h)%nat.
Proof.
  intros Hw Hh. unfold begin, init. cbn [width height grid directions stack rng].
  destruct (grid_set_cell _ _ (fresh_grid w h) 1 1 0 (rectangular_fresh w h))
    as (g & Hset & Hrect & Hcell); [lia|lia|].
  rewrite Hset. cbn [mbind res_bind].
  assert (forall c, is_open g c <-> c = (1, 1)) as Hopen.
  { intros c. unfold is_open. rewrite Hcell, cell_at_fresh.
    repeat case_decide; split; try done. }
  assert (forall c, is_openb g c = if decide (c = (1, 1)) then true else false) as Hopenb.
  { intros c. unfold is_openb. rewrite Hcell, cell_at_fresh. by repeat case_decide. }
  assert (open_rooms g w h = 1%nat) as Hrooms.
  { unfold open_rooms.
    rewrite (count_cells_flip (fun _ => false) (fun c => is_room c && is_openb g c) w h (1, 1));
      cbn [fst snd]; try lia; try done.
    - by rewrite count_cells_none.
    - by rewrite Hopenb.
    - intros d Hd. rewrite Hopenb. case_decide; [done|]. apply andb_false_r. }
  assert (open_connectors g w h = 0%nat) as Hconns.
  { apply count_cells_none. intros c _ _. rewrite Hopenb.
    case_decide as Hc; [by rewrite Hc|apply andb_false_r]. }
  eexists. split; [done|]. split; [|split; [done|split; [done|]]].
  - constructor; cbn [width height grid directions stack rng]; try done.
    + intros c v. rewrite Hcell, cell_at_fresh.
      repeat case_decide; intros [= <-]; auto.
    + intros c ->%Hopen. split; [|by left]. unfold interior. cbn [fst snd]. lia.
    + intros c ->%list_elem_of_singleton. split; [by apply Hopen|done].
    + by apply Hopen.
    + intros c ->%Hopen. exists 0%nat. constructor.
    + by rewrite Hrooms, Hconns.
    + intros c d ->%Hopen _ Hnotin. exfalso. apply Hnotin. by apply list_elem_of_singleton.
  - unfold maze_measure. cbn [width height grid directions stack rng length].
    rewrite open_cells_split, Hrooms, Hconns.
    assert (1 <= Z.to_nat w * Z.to_nat h)%nat by nia. lia.
Qed.

(** From any state satisfying the invariant the loop runs to an empty stack
    within the budget given by the measure. *)
Lemma loop_terminates fuel animate st evs :
  maze_inv st -> (maze_measure st < fuel)%nat ->
  exists st' evs',
    loop fuel animate st evs = Done (st', evs') ∧ maze_inv st' ∧ stack st' = [] ∧
    width st' = width st ∧ height st' = height st ∧
    (length evs' <= length evs + maze_measure st)%nat.
Proof.
  revert st evs. induction fuel as [|fuel IH]; intros st evs Hinv Hlt; [lia|].
  cbn [loop]. destruct (last (stack st)) as [[x y]|] eqn:Hlast.
  - destruct (step_inv animate st x y Hinv Hlast)
      as (st1 & evs1 & Hstep & Hinv1 & Hlt1 & Hw1 & Hh1 & Hlen1).
    rewrite Hstep. cbn [mbind res_bind fst snd].
    destruct (IH st1 (evs ++ evs1) Hinv1) as (st' & evs' & Hloop & Hinv' & Hst' & Hw' & Hh' & Hlen');
      [lia|].
    exists st', evs'. rewrite length_app in Hlen'.
    split_and!; try done; try congruence; lia.
  - exists st, evs. apply last_None in Hlast. split_and!; try done. lia.
Qed.

Lemma iterate_inv n st :
  maze_inv st ->
  exists st', iterate n st = Done st' ∧ maze_inv st' ∧
    width st' = width st ∧ height st' = height st.
Proof.
  revert st. induction n as [|n IH]; intros st Hinv; [by exists st|].
  cbn [iterate]. destruct (last (stack st)) as [[x y]|] eqn:Hlast; [|by exists st].
  destruct (step_inv true st x y Hinv Hlast)
    as (st1 & evs1 & Hstep & Hinv1 & Hlt1 & Hw1 & Hh1 & Hlen1).
  rewrite Hstep. cbn [mbind res_bind fst snd].
  destruct (IH st1 Hinv1) as (st' & Hit & Hinv' & Hw' & Hh').
  exists st'. split_and!; try done; congruence.
Qed.

(** Consequences of the invariant. *)
Lemma maze_inv_border st c :
  maze_inv st -> on_border (width st) (height st) c -> is_wall (grid st) c.
Proof.
  intros Hinv (Hx & Hy & Hedge). destruct c as [x y]. cbn [fst snd] in *.
  destruct (rectangular_cell _ _ (grid st) x y (inv_rect st Hinv)) as [v Hv]; [lia|lia|].
  destruct (inv_vals st Hinv _ _ Hv) as [-> | ->]; [|done].
  destruct (inv_open st Hinv _ Hv) as [[? ?] _]. cbn [fst snd] in *. lia.
Qed.

Lemma maze_inv_spanning st :
  maze_inv st -> stack st = [] ->
  forall c, interior (width st) (height st) c -> is_room c = true -> is_open (grid st) c.
Proof.
  intros Hinv Hst.
  assert (forall k : nat, forall x y, Z.to_nat (x + y) = k ->
            interior (width st) (height st) (x, y) -> is_room (x, y) = true ->
            is_open (grid st) (x, y)) as H.
  { induction k as [k IH] using lt_wf_ind. intros x y Hk Hi Hr.
    pose proof Hr as Hr'. apply is_room_spec in Hr'. unfold interior in Hi.
    cbn [fst snd] in *.
    destruct (decide (x = 1)) as [->|Hx].
    - destruct (decide (y = 1)) as [->|Hy]; [apply (inv_start st Hinv)|].
      apply (is_open_eq _ ((1, y - 2).1 + (0, 2).1, (1, y - 2).2 + (0, 2).2));
        [cbn [fst snd]; f_equal; lia|].
      apply (inv_done st Hinv).
      + apply (IH (Z.to_nat (1 + (y - 2)))); [lia|done| |].
        * unfold interior. cbn [fst snd]. lia.
        * apply is_room_spec. cbn [fst snd]. lia.
      + apply is_room_spec. cbn [fst snd]. lia.
      + rewrite Hst. apply not_elem_of_nil.
      + apply initial_directions_cases. tauto.
      + unfold interior. cbn [fst snd]. lia.
    - apply (is_open_eq _ ((x - 2, y).1 + (2, 0).1, (x - 2, y).2 + (2, 0).2));
        [cbn [fst snd]; f_equal; lia|].
      apply (inv_done st Hinv).
      + apply (IH (Z.to_nat (x - 2 + y))); [lia|done| |].
        * unfold interior. cbn [fst snd]. lia.
        * apply is_room_spec. cbn [fst snd]. lia.
      + apply is_room_spec. cbn [fst snd]. lia.
      + rewrite Hst. apply not_elem_of_nil.
      + apply initial_directions_cases. tauto.
      + unfold interior. cbn [fst snd]. lia. }
  intros [x y] Hi Hr. by eapply H.
Qed.

Lemma loop_inv fuel animate st evs st' evs' :
  maze_inv st -> loop fuel animate st evs = Done (st', evs') ->
  maze_inv st' ∧ stack st' = [] ∧ width st' = width st ∧ height st' = height st.
Proof.
  revert st evs. induction fuel as [|fuel IH]; intros st evs Hinv Hloop; [done|].
  cbn [loop] in Hloop. destruct (last (stack st)) as [[x y]|] eqn:Hlast.
  - destruct (step_inv animate st x y Hinv Hlast)
      as (st1 & evs1 & Hstep & Hinv1 & Hlt1 & Hw1 & Hh1 & Hlen1).
    rewrite Hstep in Hloop. cbn [mbind res_bind fst snd] in Hloop.
    destruct (IH _ _ Hinv1 Hloop) as (? & ? & ? & ?).
    split_and!; try done; congruence.
  - injection Hloop as <- <-. by apply last_None in Hlast.
Qed.

(** C3: for every width and height of at least 3 and every seed, [generate]
    runs to completion and leaves a grid whose open cells are all connected
    to [(1, 1)], in which the open rooms outnumber the open connectors by
    exactly one, every open connector joins two open rooms, and every room
    inside the border is open: the open cells are a spanning tree of the
    room lattice. *)
Theorem generate_spanning_tree (w h : Z) (r : Rng) (animate : bool) (fuel : nat) :
  3 <= w -> 3 <= h -> (Z.to_nat w * Z.to_nat h < fuel)%nat ->
  exists st evs,
    generate fuel animate w h r = Done (st, evs) ∧
    is_open (grid st) (1, 1) ∧
    (forall c, is_open (grid st) c -> reachable (grid st) (1, 1) c) ∧
    Z.of_nat (open_rooms (grid st) w h) - Z.of_nat (open_connectors (grid st) w h) = 1 ∧
    (forall c, is_open (grid st) c -> is_room c = true ∨ joins (grid st) c) ∧
    (forall c, interior w h c -> is_room c = true -> is_open (grid st) c).
Proof.
  intros Hw Hh Hfuel. unfold generate.
  destruct (begin_inv w h r Hw Hh) as (st0 & Hbegin & Hinv0 & Hw0 & Hh0 & Hm0).
  rewrite Hbegin. cbn [mbind res_bind].
  destruct (loop_terminates fuel animate st0 [] Hinv0)
    as (st & evs & Hloop & Hinv & Hstack & Hw' & Hh' & _); [lia|].
  exists st, evs. rewrite Hw0 in Hw'. rewrite Hh0 in Hh'.
  split; [done|]. split; [apply (inv_start st Hinv)|].
  split; [apply (inv_conn st Hinv)|]. split.
  { pose proof (inv_count st Hinv) as Hc. rewrite Hw', Hh' in Hc. lia. }
  split; [intros c Hc; apply (inv_open st Hinv c Hc)|].
  pose proof (maze_inv_spanning st Hinv Hstack) as Hspan.
  by rewrite Hw', Hh' in Hspan.
Qed.

Lemma generate_spanning_tree_witness :
  exists st evs,
    generate 26 true 5 5 (mkRng (fun i => i) 0) = Done (st, evs) ∧
    is_open (grid st) (1, 1) ∧
    (forall c, is_open (grid st) c -> reachable (grid st) (1, 1) c) ∧
    Z.of_nat (open_rooms (grid st) 5 5) - Z.of_nat (open_connectors (grid st) 5 5) = 1 ∧
    (forall c, is_open (grid st) c -> is_room c = true ∨ joins (grid st) c) ∧
    (forall c, interior 5 5 c -> is_room c = true -> is_open (grid st) c).
Proof. apply generate_spanning_tree; [lia|lia|vm_compute; lia]. Defined.

(** C6: for every width and height of at least 3 and every seed, every cell
    on the outer border is a wall in the fresh grid, after any number of
    loop iterations of [generate], and in the grid a completed run returns. *)
Theorem border_always_wall (w h : Z) (r : Rng) :
  3 <= w -> 3 <= h ->
  (forall c, on_border w h c -> is_wall (grid (init w h r)) c) ∧
  (forall n, exists st, observe n w h r = Done st ∧
     forall c, on_border w h c -> is_wall (grid st) c) ∧
  (forall fuel animate st evs, generate fuel animate w h r = Done (st, evs) ->
     forall c, on_border w h c -> is_wall (grid st) c).
Proof.
  intros Hw Hh.
  destruct (begin_inv w h r Hw Hh) as (st0 & Hbegin & Hinv0 & Hw0 & Hh0 & Hm0).
  split; [|split].
  - intros c (Hx & Hy & _). unfold is_wall. cbn [init grid].
    rewrite cell_at_fresh. case_decide; [done|tauto].
  - intros n. unfold observe. rewrite Hbegin. cbn [mbind res_bind].
    destruct (iterate_inv n st0 Hinv0) as (st & Hit & Hinv & Hw' & Hh').
    exists st. split; [done|]. intros c Hc. apply maze_inv_border; [done|].
    by rewrite Hw', Hh', Hw0, Hh0.
  - intros fuel animate st evs. unfold generate. rewrite Hbegin. cbn [mbind res_bind].
    intros Hloop c Hc.
    destruct (loop_inv _ _ _ _ _ _ Hinv0 Hloop) as (Hinv & _ & Hw' & Hh').
    apply maze_inv_border; [done|]. by rewrite Hw', Hh', Hw0, Hh0.
Qed.

Lemma border_always_wall_witness :
  (forall c, on_border 5 5 c -> is_wall (grid (init 5 5 (mkRng (fun i => i) 0))) c) ∧
  (forall n, exists st, observe n 5 5 (mkRng (fun i => i) 0) = Done st ∧
     forall c, on_border 5 5 c -> is_wall (grid st) c) ∧
  (forall fuel animate st evs,
     generate fuel animate 5 5 (mkRng (fun i => i) 0) = Done (st, evs) ->
     forall c, on_border 5 5 c -> is_wall (grid st) c).
Proof. apply border_always_wall; lia. Defined.

(** C7: for every width and height of at least 3 and every seed, [generate]
    terminates: within [width * height] loop iterations the stack is empty,
    and the run has emitted at most that many events. *)
Theorem generate_terminates (w h : Z) (r : Rng) (animate : bool) (fuel : nat) :
  3 <= w -> 3 <= h -> (Z.to_nat w * Z.to_nat h < fuel)%nat ->
  exists st evs,
    generate fuel animate w h r = Done (st, evs) ∧ stack st = [] ∧
    (length evs <= Z.to_nat w * Z.to_nat h)%nat.
Proof.
  intros Hw Hh Hfuel. unfold generate.
  destruct (begin_inv w h r Hw Hh) as (st0 & Hbegin & Hinv0 & Hw0 & Hh0 & Hm0).
  rewrite Hbegin. cbn [mbind res_bind].
  destruct (loop_terminates fuel animate st0 [] Hinv0)
    as (st & evs & Hloop & Hinv & Hstack & _ & _ & Hlen); [lia|].
  exists st, evs. split_and!; try done. cbn [length] in Hlen. lia.
Qed.

Lemma generate_terminates_witness :
  exists st evs,
    generate 10 true 3 3 (mkRng (fun i => i) 0) = Done (st, evs) ∧ stack st = [] ∧
    (length evs <= Z.to_nat 3 * Z.to_nat 3)%nat.
Proof. apply generate_terminates; [lia|lia|vm_compute; lia]. Defined.

End MazeProofs.

(** ** The frontier *)

Section Frontier.

Import heapq PathFinder.

Lemma entry_lt_false (a b : Entry) : entry_lt a b = false <-> lex_le b a.
Proof.
  destruct a as [p [x y]], b as [q [x' y']]. unfold entry_lt, cell_lt, lex_le.
  cbn [fst snd].
  destruct (p =? q) eqn:Ep; cbn [negb].
  - apply Z.eqb_eq in Ep. destruct (x =? x') eqn:Ex; cbn [negb].
    + apply Z.eqb_eq in Ex. rewrite Z.ltb_ge. lia.
    + apply Z.eqb_neq in Ex. rewrite Z.ltb_ge. lia.
  - apply Z.eqb_neq in Ep. rewrite Z.ltb_ge. lia.
Qed.

Lemma lex_le_refl (a : Entry) : lex_le a a.
Proof. unfold lex_le. lia. Qed.

Lemma lex_le_trans (a b c : Entry) : lex_le a b -> lex_le b c -> lex_le a c.
Proof. unfold lex_le. lia. Qed.

Lemma lex_le_total (a b : Entry) : lex_le a b ∨ lex_le b a.
Proof. unfold lex_le. lia. Qed.

Lemma lex_le_priority (a b : Entry) : lex_le a b -> a.1 <= b.1.
Proof. unfold lex_le. lia. Qed.

Lemma entry_lt_true (a b : Entry) : entry_lt a b = true -> lex_le a b.
Proof.
  intros Hlt. destruct (lex_le_total a b) as [?|Hba]; [done|].
  apply entry_lt_false in Hba. congruence.
Qed.

Lemma item_Some {A} (l : list A) i a : l !! i = Some a -> item l i = Done a.
Proof. unfold item. by intros ->. Qed.

Lemma set_item_lt {A} (l : list A) i a :
  (i < length l)%nat -> set_item l i a = Done (<[i := a]> l).
Proof. intros Hi. unfold set_item. by rewrite decide_True. Qed.

Lemma insert_perm {A} (l : list A) i a b :
  l !! i = Some a -> b :: l ≡ₚ a :: <[i := b]> l.
Proof.
  revert i. induction l as [|x l IH]; intros [|i] Hi; try done.
  - cbn in Hi. injection Hi as ->. apply Permutation_swap.
  - cbn in Hi. change (<[S i := b]> (x :: l)) with (x :: <[i := b]> l).
    etrans; [apply Permutation_swap|].
    etrans; [apply Permutation_skip, (IH i Hi)|]. apply Permutation_swap.
Qed.

Lemma exchange_perm {A} (l : list A) i j a b :
  l !! i = Some a -> l !! j = Some b -> <[j := a]> (<[i := b]> l) ≡ₚ l.
Proof.
  intros Hi Hj. destruct (decide (i = j)) as [->|Hne].
  - assert (a = b) as -> by congruence.
    by rewrite list_insert_insert_eq, list_insert_id.
  - apply (Permutation_cons_inv (a := b)).
    symmetry. etrans; [apply (insert_perm l i a b Hi)|].
    apply (insert_perm _ j b a). by rewrite list_lookup_insert_ne.
Qed.

Lemma up_ok_exchange l l' pos nv pv :
  (0 < pos)%nat ->
  l !! pos = Some nv -> l !! ((pos - 1) / 2)%nat = Some pv ->
  exchanged l l' pos ((pos - 1) / 2) nv pv ->
  lex_le nv pv ->
  up_ok l pos -> up_ok l' ((pos - 1) / 2).
Proof.
  intros Hpos Hn Hp Hl' Hlt [U1 U2]. set (q := ((pos - 1) / 2)%nat) in *.
  assert (q < pos)%nat as Hq by (subst q; lia).
  split.
  - intros i x p Hi Hiq. rewrite !Hl'. rewrite (decide_False (P := i = q)) by done.
    destruct (decide (i = pos)) as [->|Hip].
    + fold q. rewrite decide_True by done. by intros [= <-] [= <-].
    + intros Hx. destruct (decide (((i - 1) / 2)%nat = q)) as [Hpq|Hpq].
      * intros [= <-]. eapply lex_le_trans; [exact Hlt|].
        apply (U1 i); try done. by rewrite Hpq.
      * destruct (decide (((i - 1) / 2)%nat = pos)) as [Hpp|Hpp].
        -- intros [= <-]. by apply (U2 i).
        -- intros Hpi. by apply (U1 i).
  - intros c x p Hq0 Hc Hcq. rewrite !Hl'.
    rewrite (decide_False (P := c = q)) by lia.
    rewrite (decide_False (P := ((q - 1) / 2)%nat = q)) by lia.
    rewrite (decide_False (P := ((q - 1) / 2)%nat = pos)) by lia.
    intros Hx Hpq.
    assert (lex_le p pv) as Hppv by (apply (U1 q); try done; lia).
    destruct (decide (c = pos)) as [->|Hcp].
    + by injection Hx as <-.
    + eapply lex_le_trans; [exact Hppv|]. apply (U1 c); try done. by rewrite Hcq.
Qed.

Lemma exchanged_insert (heap : list Entry) pos q nv qv :
  (pos < length heap)%nat -> (q < length heap)%nat -> q ≠ pos ->
  exchanged (<[pos := nv]> heap) (<[q := nv]> (<[pos := qv]> heap)) pos q nv qv.
Proof.
  intros Hpos Hq Hne i.
  destruct (decide (i = q)) as [->|Hiq].
  - apply list_lookup_insert_eq. by rewrite length_insert.
  - rewrite list_lookup_insert_ne by done.
    destruct (decide (i = pos)) as [->|Hip].
    + by apply list_lookup_insert_eq.
    + by rewrite !list_lookup_insert_ne.
Qed.

Lemma up_ok_heap_ok l pos :
  up_ok l pos ->
  (forall x p, (0 < pos)%nat -> l !! pos = Some x ->
     l !! ((pos - 1) / 2)%nat = Some p -> lex_le p x) ->
  heap_ok l.
Proof.
  intros [U1 _] Hp i y q Hi Hy Hq.
  destruct (decide (i = pos)) as [->|Hne]; [by apply Hp|by apply (U1 i)].
Qed.

(** The loop of [_siftdown] from the root restores the heap order. *)
Lemma siftdown_loop_spec fuel heap pos newitem :
  (pos < length heap)%nat -> (pos < fuel)%nat ->
  up_ok (<[pos := newitem]> heap) pos ->
  exists h', siftdown_loop fuel heap 0 pos newitem = Done h' ∧
    heap_ok h' ∧ h' ≡ₚ <[pos := newitem]> heap.
Proof.
  revert heap pos. induction fuel as [|fuel IH]; intros heap pos Hlen Hfuel Hup; [lia|].
  cbn [siftdown_loop]. case_decide as Hpos.
  - set (q := ((pos - 1) / 2)%nat).
    assert (q < pos)%nat as Hq by (subst q; lia).
    destruct (lookup_lt_is_Some_2 heap q) as [parent Hparent]; [lia|].
    rewrite (item_Some _ _ _ Hparent). cbn [mbind res_bind].
    destruct (entry_lt newitem parent) eqn:Hlt.
    + rewrite set_item_lt by done. cbn [mbind res_bind].
      destruct (IH (<[pos := parent]> heap) q) as (h' & Hrun & Hok & Hperm).
      * rewrite length_insert. lia.
      * lia.
      * apply (up_ok_exchange (<[pos := newitem]> heap) _ pos newitem parent); try done.
        -- by apply list_lookup_insert_eq.
        -- rewrite list_lookup_insert_ne by lia. done.
        -- apply exchanged_insert; lia.
        -- by apply entry_lt_true.
      * exists h'. split; [done|]. split; [done|]. rewrite Hperm.
        rewrite <- (list_insert_insert_eq heap pos parent newitem).
        apply exchange_perm.
        -- by apply list_lookup_insert_eq.
        -- rewrite list_lookup_insert_ne by lia. done.
    + rewrite set_item_lt by done. eexists. split; [done|]. split; [|done].
      apply (up_ok_heap_ok _ pos); [done|]. intros x p _. fold q.
      rewrite list_lookup_insert_eq by done. rewrite list_lookup_insert_ne by lia.
      rewrite Hparent. intros [= <-] [= <-]. by apply entry_lt_false.
  - rewrite set_item_lt by done. eexists. split; [done|]. split; [|done].
    apply (up_ok_heap_ok _ pos); [done|]. intros x p ?. lia.
Qed.

Lemma down_ok_exchange l l' pos c nv cv :
  (0 < c)%nat -> ((c - 1) / 2)%nat = pos ->
  l !! c = Some cv ->
  exchanged l l' pos c nv cv ->
  (forall s sv, (0 < s)%nat -> ((s - 1) / 2)%nat = pos -> l !! s = Some sv -> lex_le cv sv) ->
  down_ok l pos -> down_ok l' c.
Proof.
  intros Hc Hcp Hcv Hl' Hsmall [D1 D2].
  assert (pos < c)%nat as Hlt by lia.
  split.
  - intros i x p Hi Hic Hpc. rewrite !Hl'.
    rewrite (decide_False (P := i = c)) by done.
    rewrite (decide_False (P := ((i - 1) / 2)%nat = c)) by done.
    destruct (decide (i = pos)) as [->|Hip].
    + rewrite (decide_False (P := ((pos - 1) / 2)%nat = pos)) by lia.
      intros [= <-] Hp. by apply (D2 c).
    + intros Hx. destruct (decide (((i - 1) / 2)%nat = pos)) as [Hpp|Hpp].
      * intros [= <-]. by apply (Hsmall i).
      * intros Hp. by apply (D1 i).
  - intros d x p _ Hd Hdc. rewrite !Hl'.
    rewrite (decide_False (P := d = c)) by lia.
    rewrite (decide_False (P := d = pos)) by lia.
    rewrite (decide_False (P := ((c - 1) / 2)%nat = c)) by lia.
    rewrite (decide_True (P := ((c - 1) / 2)%nat = pos)) by done.
    intros Hx [= <-]. apply (D1 d); try done; try lia. by rewrite Hdc.
Qed.

(** The loop of [_siftup] takes the entry at [pos] down to a leaf. *)
Lemma siftup_loop_spec fuel heap pos newitem :
  (pos < length heap)%nat -> (length heap < fuel + pos)%nat ->
  down_ok (<[pos := newitem]> heap) pos ->
  exists heap1 pos1,
    siftup_loop fuel heap (length heap) pos = Done (heap1, pos1) ∧
    length heap1 = length heap ∧ (pos1 < length heap)%nat ∧
    (length heap <= 2 * pos1 + 1)%nat ∧
    down_ok (<[pos1 := newitem]> heap1) pos1 ∧
    <[pos1 := newitem]> heap1 ≡ₚ <[pos := newitem]> heap.
Proof.
  revert heap pos. induction fuel as [|fuel IH]; intros heap pos Hlen Hfuel Hdown; [lia|].
  cbn [siftup_loop]. case_decide as Hchild.
  - assert (exists c cv, (c = 2 * pos + 1 ∨ c = 2 * pos + 2)%nat ∧ heap !! c = Some cv ∧
              (forall s sv, (0 < s)%nat -> ((s - 1) / 2)%nat = pos ->
                 heap !! s = Some sv -> lex_le cv sv) ∧
              (smaller ← (if decide (2 * pos + 1 + 1 < length heap)%nat
                          then c ← item heap (2 * pos + 1);
                               r ← item heap (2 * pos + 1 + 1);
                               Done (if negb (entry_lt c r) then 2 * pos + 1 + 1
                                     else 2 * pos + 1)%nat
                          else Done (2 * pos + 1)%nat);
               v ← item heap smaller;
               heap' ← set_item heap pos v;
               siftup_loop fuel heap' (length heap) smaller) =
              siftup_loop fuel (<[pos := cv]> heap) (length heap) c)
      as (c & cv & Hc & Hcv & Hsmall & ->).
    { destruct (lookup_lt_is_Some_2 heap (2 * pos + 1)) as [lv Hlv]; [lia|].
      case_decide as Hright.
      - destruct (lookup_lt_is_Some_2 heap (2 * pos + 1 + 1)) as [rv Hrv]; [lia|].
        rewrite (item_Some _ _ _ Hlv), (item_Some _ _ _ Hrv). cbn [mbind res_bind].
        destruct (entry_lt lv rv) eqn:Hlt; cbn [negb].
        + exists (2 * pos + 1)%nat, lv. split; [lia|]. split; [done|]. split.
          * intros s sv Hs Hsp Hsv.
            assert (s = 2 * pos + 1 ∨ s = 2 * pos + 1 + 1)%nat as [-> | ->] by lia.
            -- assert (sv = lv) as -> by congruence. apply lex_le_refl.
            -- assert (sv = rv) as -> by congruence. by apply entry_lt_true.
          * rewrite (item_Some _ _ _ Hlv). cbn [mbind res_bind].
            by rewrite set_item_lt.
        + exists (2 * pos + 1 + 1)%nat, rv. split; [lia|]. split; [done|]. split.
          * intros s sv Hs Hsp Hsv.
            assert (s = 2 * pos + 1 ∨ s = 2 * pos + 1 + 1)%nat as [-> | ->] by lia.
            -- assert (sv = lv) as -> by congruence. by apply entry_lt_false.
            -- assert (sv = rv) as -> by congruence. apply lex_le_refl.
          * rewrite (item_Some _ _ _ Hrv). cbn [mbind res_bind].
            by rewrite set_item_lt.
      - exists (2 * pos + 1)%nat, lv. split; [lia|]. split; [done|]. split.
        * intros s sv Hs Hsp Hsv.
          assert (s = 2 * pos + 1 ∨ s = 2 * pos + 1 + 1)%nat as [-> | ->] by lia.
          -- assert (sv = lv) as -> by congruence. apply lex_le_refl.
          -- apply lookup_lt_Some in Hsv. lia.
        * cbn [mbind res_bind]. rewrite (item_Some _ _ _ Hlv). cbn [mbind res_bind].
          by rewrite set_item_lt. }
    assert (c < length heap)%nat as Hclen by (by eapply lookup_lt_Some).
    destruct (IH (<[pos := cv]> heap) c) as (heap1 & pos1 & Hrun & Hl1 & Hp1 & Hleaf & Hd1 & Hperm).
    + by rewrite length_insert.
    + rewrite length_insert. lia.
    + apply (down_ok_exchange (<[pos := newitem]> heap) _ pos c newitem cv); try lia.
      * rewrite list_lookup_insert_ne by lia. done.
      * apply exchanged_insert; lia.
      * intros s sv Hs Hsp. rewrite list_lookup_insert_ne by lia. by apply Hsmall.
      * done.
    + rewrite length_insert in Hrun, Hl1, Hp1, Hleaf.
      exists heap1, pos1. split; [done|]. split_and!; try done.
      rewrite Hperm. rewrite <- (list_insert_insert_eq heap pos cv newitem).
      apply exchange_perm.
      * by apply list_lookup_insert_eq.
      * rewrite list_lookup_insert_ne by lia. done.
  - exists heap, pos. split_and!; try done. lia.
Qed.

Lemma heap_root_min l r :
  heap_ok l -> l !! 0%nat = Some r -> forall x, x ∈ l -> lex_le r x.
Proof.
  intros Hok Hr x [i Hi]%list_elem_of_lookup. revert x Hi.
  induction i as [i IH] using lt_wf_ind. intros x Hi.
  destruct (decide (i = 0)%nat) as [->|Hne].
  - assert (x = r) as -> by congruence. apply lex_le_refl.
  - destruct (lookup_lt_is_Some_2 l ((i - 1) / 2)%nat) as [p Hp].
    { apply lookup_lt_Some in Hi. lia. }
    eapply lex_le_trans; [apply (IH ((i - 1) / 2)%nat); [lia|done]|].
    apply (Hok i); [lia|done|done].
Qed.

Lemma heap_ok_nil : heap_ok [].
Proof. intros i x p _ Hx. done. Qed.

(** [heappush] keeps the heap order and adds the entry. *)
Lemma heappush_spec heap x :
  heap_ok heap ->
  exists h', heappush heap x = Done h' ∧ heap_ok h' ∧ h' ≡ₚ x :: heap.
Proof.
  intros Hok. unfold heappush, siftdown.
  rewrite length_app. cbn [length].
  replace (length heap + 1 - 1)%nat with (length heap) by lia.
  assert ((heap ++ [x]) !! length heap = Some x) as Hx.
  { rewrite lookup_app_r by lia. by rewrite Nat.sub_diag. }
  rewrite (item_Some _ _ _ Hx). cbn [mbind res_bind].
  destruct (siftdown_loop_spec (S (length heap)) (heap ++ [x]) (length heap) x)
    as (h' & Hrun & Hok' & Hperm).
  - rewrite length_app. cbn [length]. lia.
  - lia.
  - rewrite list_insert_id by done. split.
    + intros i y p Hi Hne Hy Hp.
      assert (i < length heap)%nat.
      { apply lookup_lt_Some in Hy. rewrite length_app in Hy. cbn [length] in Hy. lia. }
      rewrite lookup_app_l in Hy, Hp by lia. by apply (Hok i).
    + intros c y p Hpos Hc Hcp Hy.
      apply lookup_lt_Some in Hy. rewrite length_app in Hy. cbn [length] in Hy. lia.
  - exists h'. split; [done|]. split; [done|].
    rewrite Hperm, list_insert_id by done. by rewrite Permutation_app_comm.
Qed.

(** [heappop] on a non-empty heap returns a least entry and keeps the heap
    order among the others. *)
Lemma heappop_spec heap :
  heap_ok heap -> heap ≠ [] ->
  exists x rest, heappop heap = Done (x, rest) ∧ heap_ok rest ∧
    heap ≡ₚ x :: rest ∧ forall y, y ∈ heap -> lex_le x y.
Proof.
  intros Hok Hne. unfold heappop.
  destruct (last heap) as [lastelt|] eqn:Hlast; [|by apply last_None in Hlast].
  apply last_Some in Hlast as [heap' ->]. rewrite removelast_last.
  case_decide as Hnil.
  - subst heap'. exists lastelt, []. split; [done|]. split; [apply heap_ok_nil|].
    split; [done|]. intros y ->%list_elem_of_singleton. apply lex_le_refl.
  - destruct heap' as [|returnitem t]; [done|].
    cbn [item lookup list_lookup mbind res_bind].
    rewrite set_item_lt by (cbn [length]; lia). cbn [mbind res_bind insert list_insert].
    unfold siftup. cbn [item lookup list_lookup mbind res_bind].
    set (heap1 := lastelt :: t).
    assert (length heap1 = S (length t)) as Hlen1 by done.
    destruct (siftup_loop_spec (S (length heap1)) heap1 0 lastelt)
      as (heap2 & pos1 & Hrun & Hl2 & Hp1 & Hleaf & Hd2 & Hperm2).
    + lia.
    + lia.
    + change (<[0%nat := lastelt]> heap1) with heap1. split; [|intros; lia].
      intros i y p Hi _ Hpi Hy Hp.
      assert (i < S (length t))%nat by (apply lookup_lt_Some in Hy; lia).
      apply (Hok i); [done| |].
      * rewrite lookup_app_l by (cbn [length]; lia).
        destruct i; [lia|]. done.
      * rewrite lookup_app_l by (cbn [length]; lia).
        destruct ((i - 1) / 2)%nat eqn:E; [lia|]. done.
    + rewrite Hrun. cbn [mbind res_bind fst snd].
      rewrite set_item_lt by lia. cbn [mbind res_bind].
      unfold siftdown.
      assert (<[pos1 := lastelt]> heap2 !! pos1 = Some lastelt) as Hitem
        by (apply list_lookup_insert_eq; lia).
      rewrite (item_Some _ _ _ Hitem). cbn [mbind res_bind].
      destruct (siftdown_loop_spec (S pos1) (<[pos1 := lastelt]> heap2) pos1 lastelt)
        as (h' & Hrun' & Hok' & Hperm').
      * rewrite length_insert. lia.
      * lia.
      * rewrite list_insert_insert_eq. destruct Hd2 as [D1 D2]. split; [|done].
        intros i y p Hi Hip Hy Hp.
        apply (D1 i); try done. intros Hpar.
        apply lookup_lt_Some in Hy. rewrite length_insert in Hy. lia.
      * rewrite Hrun'. cbn [mbind res_bind].
        exists returnitem, h'. split; [done|]. split; [done|].
        rewrite list_insert_insert_eq in Hperm'.
        change (<[0%nat := lastelt]> heap1) with heap1 in Hperm2.
        split.
        -- rewrite Hperm', Hperm2. subst heap1.
           rewrite <- Permutation_cons_append. apply Permutation_swap.
        -- apply (heap_root_min _ returnitem); [done|done].
Qed.

Lemma heappop_Done l e rest :
  heap_ok l -> heappop l = Done (e, rest) ->
  l ≡ₚ e :: rest ∧ (forall x, x ∈ l -> lex_le e x) ∧ heap_ok rest.
Proof.
  intros Hok Hpop. destruct (decide (l = [])) as [->|Hne]; [done|].
  destruct (heappop_spec l Hok Hne) as (x & rest' & Hpop' & Hok' & Hperm & Hmin).
  rewrite Hpop in Hpop'. injection Hpop' as <- <-. done.
Qed.

Lemma search_nonempty fuel visualize end_ st out :
  frontier st ≠ [] ->
  search (S fuel) visualize end_ st out =
  match heappop (frontier st) with
  | Done ((_, current), rest) =>
      let st1 := set_frontier st rest in
      if decide (current = end_) then (out, Done st1)
      else
        match expand end_ current st1 neighbor_offsets with
        | Done st2 =>
            let st3 := add_visited st2 current in
            search fuel visualize end_ st3
              (if visualize then out ++ [snapshot st3 None] else out)
        | Raise e => (out, Raise e)
        | Timeout => (out, Timeout)
        end
  | Raise e => (out, Raise e)
  | Timeout => (out, Timeout)
  end.
Proof. intros Hne. cbn [search]. by destruct (frontier st). Qed.

Lemma relax_heap_ok end_ current st d st' :
  relax end_ current st d = Done st' -> heap_ok (frontier st) -> heap_ok (frontier st').
Proof.
  intros Hrelax Hok. revert Hrelax. unfold relax.
  destruct (in_bounds (grid st) _ _) as [[|]|?|]; cbn [mbind res_bind]; try done;
    [|by intros [= <-]].
  destruct (grid_get (grid st) _ _) as [v|?|]; cbn [mbind res_bind]; try done.
  destruct (v =? 0); [|by intros [= <-]].
  destruct (dict_item (cost_so_far st) current) as [k|?|]; cbn [mbind res_bind]; try done.
  destruct (cost_so_far st !! _) as [old|]; [destruct (k + 1 <? old)|];
    try (by intros [= <-]);
    (match goal with |- context [heappush ?h ?e] =>
       destruct (heappush_spec h e Hok) as (f & -> & Hf & _) end;
     cbn [mbind res_bind]; by intros [= <-]).
Qed.

Lemma expand_heap_ok end_ current ds st st' :
  expand end_ current st ds = Done st' -> heap_ok (frontier st) -> heap_ok (frontier st').
Proof.
  revert st. induction ds as [|d ds IH]; intros st; cbn [expand].
  - by intros [= <-].
  - destruct (relax end_ current st d) as [st1|?|] eqn:Hrelax; cbn [mbind res_bind]; try done.
    intros Hexp Hok. eapply IH; [done|]. by eapply relax_heap_ok.
Qed.

(** Between calls of [heapq] the frontier is in heap order. *)
Lemma loop_head_heap_ok g start end_ st :
  loop_head g start end_ st -> heap_ok (frontier st).
Proof.
  induction 1 as [st0 Hinit|st p current rest st2 Hhead IH Hpop Hne Hexp].
  - injection Hinit as <-. cbn [frontier].
    intros i x p Hi Hx. apply lookup_lt_Some in Hx. cbn [length] in Hx. lia.
  - cbn [add_visited frontier]. eapply expand_heap_ok; [done|].
    cbn [set_frontier frontier]. by destruct (heappop_Done _ _ _ IH Hpop) as (_ & _ & ?).
Qed.

(** The tie at the head of the second iteration goes to the smaller cell. *)
Example second_head_pop :
  heappop (frontier second_head) = Done ((3, (0, 1)), [(3, (1, 0))]).
Proof. reflexivity. Qed.

(** C5: at every iteration of the search loop of [astar], the entry that
    [heappop] takes from the frontier belongs to the frontier, is least
    in the lexicographic order on [(priority, x, y)], leaves the other
    entries in the frontier, and its cell is the [current] the iteration
    works on. *)
Theorem astar_pops_minimum (g : Grid) (start end_ : Cell) (st : State)
    (fuel : nat) (visualize : bool) (out : list Snapshot) :
  loop_head g start end_ st ->
  frontier st ≠ [] ->
  exists p current rest,
    heappop (frontier st) = Done ((p, current), rest) ∧
    (p, current) ∈ frontier st ∧
    (forall q c, (q, c) ∈ frontier st -> lex_le (p, current) (q, c)) ∧
    frontier st ≡ₚ (p, current) :: rest ∧
    search (S fuel) visualize end_ st out =
      if decide (current = end_) then (out, Done (set_frontier st rest))
      else match expand end_ current (set_frontier st rest) neighbor_offsets with
           | Done st2 =>
               search fuel visualize end_ (add_visited st2 current)
                 (if visualize then out ++ [snapshot (add_visited st2 current) None]
                  else out)
           | Raise e => (out, Raise e)
           | Timeout => (out, Timeout)
           end.
Proof.
  intros Hhead Hne. pose proof (loop_head_heap_ok _ _ _ _ Hhead) as Hok.
  destruct (heappop_spec _ Hok Hne) as ([p current] & rest & Hpop & Hok' & Hperm & Hmin).
  exists p, current, rest. split; [done|]. split; [rewrite Hperm; by left|].
  split; [intros q c; apply Hmin|]. split; [done|].
  rewrite search_nonempty by done. by rewrite Hpop.
Qed.

Lemma astar_pops_minimum_witness :
  exists p current rest,
    heappop (frontier second_head) = Done ((p, current), rest) ∧
    (p, current) ∈ frontier second_head ∧
    (forall q c, (q, c) ∈ frontier second_head -> lex_le (p, current) (q, c)) ∧
    frontier second_head ≡ₚ (p, current) :: rest ∧
    search 1 true (2, 1) second_head [] =
      if decide (current = (2, 1)) then ([], Done (set_frontier second_head rest))
      else match expand (2, 1) current (set_frontier second_head rest) neighbor_offsets with
           | Done st2 =>
               search 0 true (2, 1) (add_visited st2 current)
                 (if true then [] ++ [snapshot (add_visited st2 current) None] else [])
           | Raise e => ([], Raise e)
           | Timeout => ([], Timeout)
           end.
Proof.
  apply (astar_pops_minimum [[0; 0; 0]; [0; 0; 0]] (0, 0) (2, 1)).
  - unfold second_head.
    apply (lh_next _ _ _ (mkState [[0; 0; 0]; [0; 0; 0]] [(0, (0, 0))]
                            {[(0, 0) := None]} {[(0, 0) := 0]} ∅) 0 (0, 0) []).
    + by apply lh_initial.
    + reflexivity.
    + discriminate.
    + reflexivity.
  - vm_compute. discriminate.
Defined.

End Frontier.

(** ** The search loop of [astar] *)

Section Search.

Import heapq PathFinder.

Variables (W H : nat) (g : Grid) (start end_ : Cell).
Hypothesis Hrect : rectangular W H g.
Hypothesis Hrows : (0 < H)%nat.

#[local] Abbreviation universe := (universe W H start).
#[local] Abbreviation cost_weight := (cost_weight W H start).
#[local] Abbreviation unseen := (unseen W H start).
#[local] Abbreviation potential := (potential W H start).
#[local] Abbreviation search_measure := (search_measure W H start).
#[local] Abbreviation search_inv := (search_inv W H g start end_).
#[local] Abbreviation si_grid := (si_grid W H g start end_).
#[local] Abbreviation si_start_cost := (si_start_cost W H g start end_).
#[local] Abbreviation si_start_from := (si_start_from W H g start end_).
#[local] Abbreviation si_walk := (si_walk W H g start end_).
#[local] Abbreviation si_bound := (si_bound W H g start end_).
#[local] Abbreviation si_from := (si_from W H g start end_).
#[local] Abbreviation si_from_dom := (si_from_dom W H g start end_).
#[local] Abbreviation si_entry := (si_entry W H g start end_).
#[local] Abbreviation si_heap := (si_heap W H g start end_).
#[local] Abbreviation settled := (settled g end_).
#[local] Abbreviation pushed := (pushed end_).
#[local] Abbreviation back_chain := (back_chain g start).
#[local] Abbreviation astar_budget := (astar_budget W H).

Lemma sum_list_with_le {A} (f f' : A -> nat) (l : list A) :
  (forall a, a ∈ l -> (f' a <= f a)%nat) -> (sum_list_with f' l <= sum_list_with f l)%nat.
Proof.
  induction l as [|a l IH]; intros Hle; [done|]. cbn [sum_list_with].
  assert (f' a <= f a)%nat by (apply Hle; by left).
  assert (sum_list_with f' l <= sum_list_with f l)%nat
    by (apply IH; intros b Hb; apply Hle; by right).
  lia.
Qed.

Lemma sum_list_with_lt {A} (f f' : A -> nat) (l : list A) (a0 : A) :
  a0 ∈ l -> (f' a0 < f a0)%nat -> (forall a, a ∈ l -> (f' a <= f a)%nat) ->
  (sum_list_with f' l < sum_list_with f l)%nat.
Proof.
  induction l as [|a l IH]; intros Hin Hlt Hle; [by apply elem_of_nil in Hin|].
  cbn [sum_list_with].
  assert (sum_list_with f' l <= sum_list_with f l)%nat
    by (apply sum_list_with_le; intros b Hb; apply Hle; by right).
  apply elem_of_cons in Hin as [Heq|Hin].
  - subst a0. lia.
  - assert (f' a <= f a)%nat by (apply Hle; by left).
    assert (sum_list_with f' l < sum_list_with f l)%nat.
    { apply IH; try done. intros b Hb. apply Hle. by right. }
    lia.
Qed.

Lemma sum_list_with_bound {A} (f : A -> nat) (l : list A) (b : nat) :
  (forall a, a ∈ l -> (f a <= b)%nat) -> (sum_list_with f l <= length l * b)%nat.
Proof.
  induction l as [|a l IH]; intros Hle; [done|]. cbn [sum_list_with length].
  assert (f a <= b)%nat by (apply Hle; by left).
  assert (sum_list_with f l <= length l * b)%nat
    by (apply IH; intros c Hc; apply Hle; by right).
  lia.
Qed.

Lemma in_bounds_spec x y :
  in_bounds g x y =
  Done (bool_decide (0 <= x < Z.of_nat W ∧ 0 <= y < Z.of_nat H)).
Proof.
  unfold in_bounds. destruct Hrect as [Hlen Hall].
  destruct (lookup_lt_is_Some_2 g 0) as [row0 Hrow0]; [lia|].
  assert (length row0 = W) as Hw by (by eapply rectangular_row).
  destruct (0 <=? x) eqn:Ex.
  - rewrite (py_get_nonneg g 0 row0) by done. cbn [mbind res_bind].
    rewrite Hw, Hlen. destruct (x <? Z.of_nat W) eqn:Ex'.
    + destruct (0 <=? y) eqn:Ey, (y <? Z.of_nat H) eqn:Ey'; cbn [andb]; f_equal;
        symmetry; (apply bool_decide_eq_true; lia) || (apply bool_decide_eq_false; lia).
    + f_equal. symmetry. apply bool_decide_eq_false. lia.
  - f_equal. symmetry. apply bool_decide_eq_false. lia.
Qed.

Lemma open_in_universe (c : Cell) : is_open g c -> c ∈ universe.
Proof.
  intros Hc. right. apply elem_of_all_cells. by eapply cell_at_bounds.
Qed.

(** What the loop body does for one direction. *)
Lemma relax_cases st current (d : Z * Z) k :
  grid st = g -> heap_ok (frontier st) -> cost_so_far st !! current = Some k ->
  let neighbor := (current.1 + d.1, current.2 + d.2) in
  (relax end_ current st d = Done st ∧
   (is_open g neighbor ->
    exists old, cost_so_far st !! neighbor = Some old ∧ old <= k + 1))
  ∨ (exists frontier',
       pushed st neighbor (k + 1) frontier' ∧
       relax end_ current st d = Done (updated st current neighbor (k + 1) frontier') ∧
       is_open g neighbor ∧
       (cost_so_far st !! neighbor = None ∨
        exists old, cost_so_far st !! neighbor = Some old ∧ k + 1 < old)).
Proof.
  intros Hg Hheap Hk neighbor. unfold relax. rewrite Hg, in_bounds_spec.
  cbn [mbind res_bind]. fold neighbor.
  destruct (heappush_spec (frontier st) (k + 1 + heuristic end_ neighbor, neighbor) Hheap)
    as (frontier' & Hpush & Hok & Hperm).
  case_bool_decide as Hin.
  - destruct (rectangular_cell _ _ g neighbor.1 neighbor.2 Hrect) as [v Hv];
      [cbn [neighbor fst snd]; lia..|].
    cbn [neighbor fst snd] in Hv. fold neighbor in Hv.
    rewrite (grid_get_cell _ _ _ _ Hv). cbn [mbind res_bind].
    destruct (v =? 0) eqn:Hv0.
    + apply Z.eqb_eq in Hv0. subst v. unfold dict_item. rewrite Hk.
      cbn [mbind res_bind].
      destruct (cost_so_far st !! neighbor) as [old|] eqn:Hold.
      * destruct (k + 1 <? old) eqn:Hlt.
        -- right. exists frontier'. split; [done|]. rewrite Hpush. cbn [mbind res_bind].
           split; [unfold updated; by rewrite Hg|]. split; [done|].
           right. exists old. split; [done|lia].
        -- left. split; [done|]. intros _. exists old. split; [done|lia].
      * right. exists frontier'. split; [done|]. rewrite Hpush. cbn [mbind res_bind].
        split; [unfold updated; by rewrite Hg|]. split; [done|]. by left.
    + left. split; [done|]. unfold is_open. rewrite Hv. intros [= ->]. done.
  - left. split; [done|]. intros Ho. exfalso. apply Hin.
    apply (cell_at_bounds _ _ _ _ _ Hrect Ho).
Qed.

Lemma adjacent_ne (a b : Cell) : adjacent a b -> a ≠ b.
Proof. unfold adjacent. intros Hadj ->. lia. Qed.

Lemma offset_adjacent (c : Cell) (d : Z * Z) :
  d ∈ neighbor_offsets -> adjacent c (c.1 + d.1, c.2 + d.2).
Proof.
  unfold neighbor_offsets, adjacent. rewrite !elem_of_cons, elem_of_nil.
  intros [-> | [-> | [-> | [-> | []]]]]; cbn [fst snd]; lia.
Qed.

Lemma adjacent_offset (c c' : Cell) :
  adjacent c c' -> (c'.1 - c.1, c'.2 - c.2) ∈ neighbor_offsets.
Proof.
  unfold neighbor_offsets, adjacent. rewrite !elem_of_cons, elem_of_nil.
  destruct c as [x y], c' as [x' y']. cbn [fst snd]. intros Hadj.
  assert ((x' - x = -1 ∧ y' - y = 0) ∨ (x' - x = 1 ∧ y' - y = 0) ∨
          (x' - x = 0 ∧ y' - y = -1) ∨ (x' - x = 0 ∧ y' - y = 1)) as Hc by lia.
  destruct Hc as [[-> ->]|[[-> ->]|[[-> ->]|[-> ->]]]]; tauto.
Qed.

Lemma heuristic_step (c c' : Cell) :
  adjacent c c' -> heuristic end_ c <= 1 + heuristic end_ c'.
Proof. unfold adjacent, heuristic. lia. Qed.

(** Recording a better cost for an open neighbour keeps the invariant and
    does not increase the measure. *)
Lemma updated_inv st current neighbor k frontier' :
  search_inv st ->
  cost_so_far st !! current = Some k ->
  adjacent current neighbor -> is_open g neighbor ->
  (cost_so_far st !! neighbor = None ∨
   exists old, cost_so_far st !! neighbor = Some old ∧ k + 1 < old) ->
  pushed st neighbor (k + 1) frontier' ->
  search_inv (updated st current neighbor (k + 1) frontier') ∧
  (search_measure (updated st current neighbor (k + 1) frontier') <= search_measure st)%nat.
Proof.
  intros Hinv Hk Hadj Hopen Hbetter [Hok Hperm].
  destruct Hinv as [Hg Hsc Hsf Hwalk Hbound Hfrom Hdom Hentry Hheap].
  destruct (Hwalk _ _ Hk) as (n & Hn & Hnk).
  assert (neighbor ≠ start) as Hns.
  { intros ->. rewrite Hsc in Hbetter. destruct Hbetter as [?|(old & [= <-] & ?)]; [done|lia]. }
  assert (current ≠ neighbor) as Hcn by (by apply adjacent_ne).
  assert (neighbor ∈ universe) as Hnu by (by apply open_in_universe).
  set (st' := updated st current neighbor (k + 1) frontier').
  assert (forall c, unseen_weight (cost_so_far st') c <= unseen_weight (cost_so_far st) c)%nat
    as Hule.
  { intros c. unfold unseen_weight. cbn [st' updated cost_so_far].
    destruct (decide (c = neighbor)) as [->|Hne].
    - rewrite lookup_insert_eq. destruct (cost_so_far st !! neighbor); lia.
    - by rewrite lookup_insert_ne. }
  assert (unseen st' <= unseen st)%nat as Hun
    by (apply sum_list_with_le; intros; apply Hule).
  assert (k + 1 + Z.of_nat (unseen st') < Z.of_nat (length universe)) as Hnew.
  { destruct Hbetter as [Hnone|(old & Hold & Hlt)].
    - assert (unseen st' < unseen st)%nat.
      { apply (sum_list_with_lt _ _ _ neighbor); [done| |intros; apply Hule].
        unfold unseen_weight. cbn [st' updated cost_so_far].
        rewrite lookup_insert_eq, Hnone. lia. }
      pose proof (Hbound _ _ Hk). lia.
    - pose proof (Hbound _ _ Hold). lia. }
  assert (potential st' < potential st)%nat as Hpot.
  { apply (sum_list_with_lt _ _ _ neighbor); [done| |].
    - unfold cost_weight. cbn [st' updated cost_so_far]. rewrite lookup_insert_eq.
      destruct Hbetter as [Hnone|(old & Hold & Hlt)].
      + rewrite Hnone. lia.
      + rewrite Hold. lia.
    - intros c _. unfold cost_weight. cbn [st' updated cost_so_far].
      destruct (decide (c = neighbor)) as [->|Hne]; [|by rewrite lookup_insert_ne].
      rewrite lookup_insert_eq.
      destruct Hbetter as [Hnone|(old & Hold & Hlt)].
      + rewrite Hnone. lia.
      + rewrite Hold. lia. }
  split.
  - constructor; cbn [st' updated grid frontier came_from cost_so_far visited].
    + done.
    + by rewrite lookup_insert_ne.
    + by rewrite lookup_insert_ne.
    + intros c kc. destruct (decide (c = neighbor)) as [->|Hne].
      * rewrite lookup_insert_eq. intros [= <-]. exists (S n).
        split; [by eapply walk_step|lia].
      * rewrite lookup_insert_ne by done. apply Hwalk.
    + intros c kc. fold st'. destruct (decide (c = neighbor)) as [->|Hne].
      * rewrite lookup_insert_eq. intros [= <-]. done.
      * rewrite lookup_insert_ne by done. intros Hc.
        pose proof (Hbound _ _ Hc). lia.
    + intros c Hc kc. destruct (decide (c = neighbor)) as [->|Hne].
      * rewrite !lookup_insert_eq. intros [= <-]. exists current, k.
        rewrite lookup_insert_ne by done. split_and!; done || lia.
      * rewrite !(lookup_insert_ne _ neighbor c) by done. intros Hkc.
        destruct (Hfrom c Hc kc Hkc) as (p & kp & Hp1 & Hp2 & Hp3 & Hp4 & Hp5).
        destruct (decide (p = neighbor)) as [->|Hpn].
        -- exists neighbor, (k + 1). rewrite lookup_insert_eq.
           split_and!; try done.
           destruct Hbetter as [Hnone|(old & Hold & Hlt)]; [congruence|].
           assert (old = kp) by congruence. lia.
        -- exists p, kp. rewrite lookup_insert_ne by done. done.
    + intros c. destruct (decide (c = neighbor)) as [->|Hne].
      * rewrite !lookup_insert_eq. eauto.
      * rewrite !(lookup_insert_ne _ neighbor c) by done. apply Hdom.
    + intros p c Hin. rewrite Hperm in Hin.
      apply elem_of_cons in Hin as [Hin|Hin].
      * injection Hin as -> ->. exists (k + 1). rewrite lookup_insert_eq.
        split; [done|]. left. lia.
      * destruct (Hentry _ _ Hin) as (kc & Hkc & Hp).
        destruct (decide (c = neighbor)) as [->|Hne].
        -- exists (k + 1). rewrite lookup_insert_eq. split; [done|]. left.
           destruct Hbetter as [Hnone|(old & Hold & Hlt)]; [congruence|].
           assert (old = kc) by congruence.
           destruct Hp as [Hp|[? _]]; [lia|done].
        -- exists kc. by rewrite lookup_insert_ne.
    + done.
  - unfold search_measure. cbn [st' updated frontier].
    rewrite (Permutation_length Hperm). cbn [length]. fold st'. lia.
Qed.

Lemma settled_same st current (d : Z * Z) ds k :
  cost_so_far st !! current = Some k ->
  settled current (d :: ds) st ->
  (is_open g (current.1 + d.1, current.2 + d.2) ->
   exists old, cost_so_far st !! (current.1 + d.1, current.2 + d.2) = Some old ∧
     old <= k + 1) ->
  settled current ds st.
Proof.
  intros Hk Hset Hnb c kc Hkc. destruct (Hset c kc Hkc) as [Hl|Hr]; [by left|].
  right. intros c' Hadj Hopen Hpend.
  destruct (decide (c = current ∧ (c'.1 - c.1, c'.2 - c.2) = d)) as [[-> <-]|Hno].
  - assert (kc = k) as -> by congruence.
    cbn [fst snd] in Hnb.
    replace (current.1 + (c'.1 - current.1), current.2 + (c'.2 - current.2)) with c' in Hnb
      by (destruct c'; cbn [fst snd]; f_equal; lia).
    by apply Hnb.
  - apply Hr; try done. intros ->. rewrite not_elem_of_cons. split; [|by apply Hpend].
    intros Heq. apply Hno. done.
Qed.

Lemma settled_updated st current (d : Z * Z) ds k frontier' :
  let neighbor := (current.1 + d.1, current.2 + d.2) in
  current ≠ neighbor ->
  cost_so_far st !! current = Some k ->
  settled current (d :: ds) st ->
  (cost_so_far st !! neighbor = None ∨
   exists old, cost_so_far st !! neighbor = Some old ∧ k + 1 < old) ->
  pushed st neighbor (k + 1) frontier' ->
  settled current ds (updated st current neighbor (k + 1) frontier').
Proof.
  intros neighbor Hcn Hk Hset Hbetter [Hok Hperm] c kc.
  cbn [updated cost_so_far frontier].
  destruct (decide (c = neighbor)) as [->|Hne].
  - rewrite lookup_insert_eq. intros [= <-]. left.
    exists (k + 1 + heuristic end_ neighbor). split; [|lia].
    rewrite Hperm. by left.
  - rewrite lookup_insert_ne by done. intros Hkc.
    destruct (Hset c kc Hkc) as [(p & Hp & Hle)|Hr].
    + left. exists p. split; [|done]. rewrite Hperm. by right.
    + right. intros c' Hadj Hopen Hpend.
      destruct (decide (c' = neighbor)) as [->|Hne'].
      * rewrite lookup_insert_eq. exists (k + 1). split; [done|].
        destruct (decide (c = current)) as [->|Hcc].
        -- assert (kc = k) by congruence. lia.
        -- destruct (Hr neighbor Hadj Hopen) as (k0 & Hk0 & Hle0); [done|].
           destruct Hbetter as [Hnone|(old & Hold & Hlt)]; [congruence|].
           assert (old = k0) by congruence. lia.
      * rewrite lookup_insert_ne by done. apply Hr; try done.
        intros ->. rewrite not_elem_of_cons. split; [|by apply Hpend].
        intros Heq. apply Hne'. subst neighbor d. cbn [fst snd].
        destruct c'; cbn [fst snd]; f_equal; lia.
Qed.

(** The [for] loop over the remaining directions [ds] of the cell under
    expansion. *)
Lemma expand_inv ds st current k :
  (forall d, d ∈ ds -> d ∈ neighbor_offsets) ->
  search_inv st ->
  cost_so_far st !! current = Some k ->
  settled current ds st ->
  exists st',
    expand end_ current st ds = Done st' ∧ search_inv st' ∧
    settled current [] st' ∧
    (search_measure st' <= search_measure st)%nat ∧
    visited st' = visited st.
Proof.
  revert st. induction ds as [|d ds IH]; intros st Hds Hinv Hk Hset.
  - exists st. cbn [expand]. split_and!; try done.
  - assert (d ∈ neighbor_offsets) as Hd by (apply Hds; by left).
    assert (forall d', d' ∈ ds -> d' ∈ neighbor_offsets) as Hds'
      by (intros d' Hd'; apply Hds; by right).
    pose proof (offset_adjacent current d Hd) as Hadj.
    cbn [expand].
    destruct (relax_cases st current d k (si_grid st Hinv) (si_heap st Hinv) Hk)
      as [[Hrelax Hold]|(frontier' & Hpush & Hrelax & Hopen & Hbetter)];
      rewrite Hrelax; cbn [mbind res_bind].
    + apply IH; try done. by eapply settled_same.
    + destruct (updated_inv st current _ k frontier' Hinv Hk Hadj Hopen Hbetter Hpush)
        as [Hinv' Hm'].
      destruct (IH (updated st current (current.1 + d.1, current.2 + d.2) (k + 1) frontier'))
        as (st' & He & Hi & Hs & Hm & Hv); try done.
      * cbn [updated cost_so_far]. rewrite lookup_insert_ne; [done|].
        intros Heq. by apply (adjacent_ne _ _ Hadj).
      * apply settled_updated; try done. by apply adjacent_ne.
      * exists st'. split_and!; try done. lia.
Qed.

Lemma settled_nil a b st st' :
  frontier st' = frontier st -> cost_so_far st' = cost_so_far st ->
  settled a [] st -> settled b [] st'.
Proof.
  intros Hf Hc Hset c k. rewrite Hf, Hc. intros Hk.
  destruct (Hset c k Hk) as [?|Hr]; [by left|right].
  intros c' Hadj Hopen _. apply Hr; try done. intros _. apply not_elem_of_nil.
Qed.

Lemma search_inv_add_visited st c : search_inv st -> search_inv (add_visited st c).
Proof. intros []. by constructor. Qed.

(** Taking the least entry off the frontier. *)
Lemma pop_inv st p current rest :
  search_inv st -> settled start [] st ->
  heappop (frontier st) = Done ((p, current), rest) ->
  search_inv (set_frontier st rest) ∧
  settled current neighbor_offsets (set_frontier st rest) ∧
  S (search_measure (set_frontier st rest)) = search_measure st ∧
  exists k, cost_so_far st !! current = Some k.
Proof.
  intros Hinv Hset Hpop.
  destruct (heappop_Done _ _ _ (si_heap st Hinv) Hpop) as (Hperm & Hmin & Hok).
  split_and!.
  - destruct Hinv as [? ? ? ? ? ? ? Hentry ?].
    constructor; cbn [set_frontier grid frontier came_from cost_so_far visited]; try done.
    intros q c Hin. apply Hentry. rewrite Hperm. by right.
  - intros c k. cbn [set_frontier frontier cost_so_far]. intros Hk.
    destruct (decide (c = current)) as [->|Hne].
    + right. intros c' Hadj _ Hpend. exfalso. apply Hpend; [done|].
      by apply adjacent_offset.
    + destruct (Hset c k Hk) as [(q & Hq & Hle)|Hr].
      * left. exists q. split; [|done]. rewrite Hperm in Hq.
        apply elem_of_cons in Hq as [[= _ ->]|Hq]; done.
      * right. intros c' Hadj Hopen _. apply Hr; try done.
        intros _. apply not_elem_of_nil.
  - unfold search_measure, potential. cbn [set_frontier frontier cost_so_far].
    apply Permutation_length in Hperm. cbn [length] in Hperm. lia.
  - destruct (si_entry st Hinv p current) as (k & Hk & _); [|by exists k].
    rewrite Hperm. by left.
Qed.

Lemma heuristic_self (c : Cell) : heuristic c c = 0.
Proof. unfold heuristic. lia. Qed.

(** Along any walk from the start, a cell is recorded at a cost no larger
    than the length of the walk unless the frontier still holds an entry
    that is at least as promising. *)
Lemma frontier_or_cost st n c :
  search_inv st -> settled start [] st -> walk g start n c ->
  (exists k, cost_so_far st !! c = Some k ∧ k <= Z.of_nat n) ∨
  (exists p c0, (p, c0) ∈ frontier st ∧ p <= Z.of_nat n + heuristic end_ c).
Proof.
  intros Hinv Hset Hw. induction Hw as [|n b c Hw IH Hadj Hopen].
  - left. exists 0. split; [apply (si_start_cost st Hinv)|lia].
  - pose proof (heuristic_step b c Hadj) as Hh.
    destruct IH as [(k & Hk & Hle)|(p & c0 & Hin & Hle)].
    + destruct (Hset b k Hk) as [(p & Hp & Hple)|Hr].
      * right. exists p, b. split; [done|lia].
      * destruct (Hr c Hadj Hopen) as (k' & Hk' & Hle'); [intros _; apply not_elem_of_nil|].
        left. exists k'. split; [done|lia].
    + right. exists p, c0. split; [done|lia].
Qed.

(** The loop [while frontier] ends, without raising, in a state that
    satisfies the invariant and records the end cell at a cost no larger
    than the length of any walk leading to it. *)
Lemma search_spec fuel visualize st out :
  search_inv st -> settled start [] st -> (search_measure st < fuel)%nat ->
  exists out' st',
    search fuel visualize end_ st out = (out', Done st') ∧ search_inv st' ∧
    forall n, walk g start n end_ ->
      exists k, cost_so_far st' !! end_ = Some k ∧ k <= Z.of_nat n.
Proof.
  revert st out. induction fuel as [|fuel IH]; intros st out Hinv Hset Hfuel; [lia|].
  destruct (decide (frontier st = [])) as [Hnil|Hne].
  - cbn [search]. rewrite Hnil. exists out, st. split; [done|]. split; [done|].
    intros n Hw.
    destruct (frontier_or_cost st n end_ Hinv Hset Hw)
      as [?|(q & c0 & Hin & Hle)]; [done|].
    rewrite Hnil in Hin. by apply elem_of_nil in Hin.
  - rewrite search_nonempty by done.
    destruct (heappop_spec _ (si_heap st Hinv) Hne)
      as ([p current] & rest & Hpop & Hok & Hperm & Hmin).
    rewrite Hpop. cbv beta iota zeta.
    destruct (pop_inv st p current rest Hinv Hset Hpop) as (Hinv1 & Hset1 & Hm1 & k & Hk).
    case_decide as Hend.
    + subst current. exists out, (set_frontier st rest). split; [done|]. split; [done|].
      intros n Hw. cbn [set_frontier cost_so_far].
      destruct (frontier_or_cost st n end_ Hinv Hset Hw)
        as [?|(q & c0 & Hin & Hle)]; [done|].
      rewrite heuristic_self in Hle.
      apply Hmin, lex_le_priority in Hin. cbn [fst] in Hin.
      destruct (si_entry st Hinv p end_) as (k' & Hk' & Hp); [rewrite Hperm; by left|].
      exists k'. split; [done|]. destruct Hp as [Hp|[Hes ->]].
      * rewrite heuristic_self in Hp. lia.
      * rewrite Hes, (si_start_cost st Hinv) in Hk'. injection Hk' as <-. lia.
    + destruct (expand_inv neighbor_offsets (set_frontier st rest) current k)
        as (st2 & Hexp & Hinv2 & Hset2 & Hm2 & Hv2); try done.
      rewrite Hexp.
      apply IH.
      * by apply search_inv_add_visited.
      * by eapply settled_nil, Hset2.
      * unfold search_measure, potential in *.
        cbn [add_visited frontier cost_so_far]. lia.
Qed.

(** *** The initial state *)

Lemma sum_list_with_const {A} (l : list A) : sum_list_with (fun _ => 1%nat) l = length l.
Proof. induction l as [|a l IH]; [done|]. cbn [sum_list_with length]. lia. Qed.

Lemma heuristic_nonneg (a b : Cell) : 0 <= heuristic a b.
Proof. unfold heuristic. lia. Qed.

Lemma initial_eq :
  initial g start = Done (mkState g [(0, start)] {[start := None]} {[start := 0]} ∅).
Proof. reflexivity. Qed.

Lemma heap_ok_singleton (e : Entry) : heap_ok [e].
Proof.
  intros i x p Hi Hx. apply lookup_lt_Some in Hx. cbn [length] in Hx. lia.
Qed.

Lemma initial_inv st0 :
  initial g start = Done st0 ->
  search_inv st0 ∧ settled start [] st0 ∧
  (search_measure st0 <= length universe * length universe + 1)%nat.
Proof.
  rewrite initial_eq. intros [= <-].
  assert (forall c k, ({[start := 0]} : gmap Cell Z) !! c = Some k -> c = start ∧ k = 0)
    as Hone.
  { intros c k Hk. apply lookup_singleton_Some in Hk as [<- <-]. done. }
  split_and!.
  - constructor; cbn [grid frontier came_from cost_so_far visited].
    + done.
    + apply lookup_singleton_eq.
    + apply lookup_singleton_eq.
    + intros c k [-> ->]%Hone. exists 0%nat. split; [constructor|lia].
    + intros c k [-> ->]%Hone.
      match goal with |- context [unseen ?s] =>
        assert (unseen s < length universe)%nat; [|lia] end.
      rewrite <- (sum_list_with_const universe).
      apply (sum_list_with_lt _ _ _ start); [by left| |].
      * unfold unseen_weight. cbn [cost_so_far]. rewrite lookup_singleton_eq. lia.
      * intros c _. unfold unseen_weight. destruct (_ !! c); lia.
    + intros c Hc k [-> ->]%Hone. done.
    + intros c [v Hv]. apply lookup_singleton_Some in Hv as [<- <-].
      rewrite lookup_singleton_eq. eauto.
    + intros p c Hin.
      apply list_elem_of_singleton in Hin. injection Hin as -> ->.
      exists 0. rewrite lookup_singleton_eq. split; [done|]. by right.
    + apply heap_ok_singleton.
  - intros c k [-> ->]%Hone. left. exists 0.
    split; [by apply list_elem_of_singleton|].
    pose proof (heuristic_nonneg end_ start). lia.
  - unfold search_measure. cbn [frontier length].
    match goal with |- context [potential ?s] =>
      assert (potential s <= length universe * length universe)%nat; [|lia] end.
    apply sum_list_with_bound. intros c _. unfold cost_weight.
    cbn [cost_so_far].
    destruct (decide (c = start)) as [->|Hne].
    + rewrite lookup_singleton_eq. lia.
    + rewrite lookup_singleton_ne by done. lia.
Qed.

(** *** The reconstruction *)

Lemma walk_back_spec fuel visualize st c k path out :
  search_inv st -> cost_so_far st !! c = Some k -> (Z.to_nat k < fuel)%nat ->
  exists out' tail,
    walk_back fuel visualize start st c path out = (out', Done (path ++ tail)) ∧
    back_chain c tail ∧ Z.of_nat (length tail) <= k.
Proof.
  intros Hinv. revert c k path out.
  induction fuel as [|fuel IH]; intros c k path out Hk Hfuel; [lia|].
  destruct (si_walk st Hinv c k Hk) as (n & _ & Hn).
  cbn [walk_back]. case_decide as Hc.
  - exists out, []. rewrite app_nil_r. split_and!; try done. cbn [length]. lia.
  - destruct (si_from st Hinv c Hc k Hk) as (p & kp & Hp & Hopen & Hadj & Hkp & Hle).
    unfold dict_get_cell. rewrite Hp.
    destruct (si_walk st Hinv p kp Hkp) as (m & _ & Hm).
    destruct (IH p kp (path ++ [c])
                (if visualize then out ++ [snapshot st (Some (path ++ [c]))] else out) Hkp)
      as (out' & tail & Hwb & Hchain & Hlen); [lia|].
    exists out', (c :: tail). rewrite Hwb, <- app_assoc. cbn [app].
    split_and!; try done.
    + cbn [back_chain]. split_and!; try done. by exists p.
    + cbn [length]. lia.
Qed.

Lemma walk_back_missing fuel visualize st c path out :
  c ≠ start -> came_from st !! c = None ->
  walk_back (S fuel) visualize start st c path out = (out, Done []).
Proof.
  intros Hc Hnone. cbn [walk_back]. case_decide; [done|].
  unfold dict_get_cell. by rewrite Hnone.
Qed.

Lemma back_chain_walk c tail : back_chain c tail -> walk g start (length tail) c.
Proof.
  revert c. induction tail as [|x tail IH]; intros c; cbn [back_chain length].
  - intros ->. constructor.
  - intros (_ & _ & Hopen & p & Hadj & Hchain). eapply walk_step; eauto.
Qed.

Lemma chain_snoc l p c :
  chain g l -> last l = Some p -> adjacent p c -> is_open g c -> chain g (l ++ [c]).
Proof.
  intros Hchain Hlast Hadj Hopen. induction l as [|a l IH]; [done|].
  destruct l as [|b l].
  - cbn in Hlast. injection Hlast as ->. cbn. destruct Hchain as [Ha _]. done.
  - destruct Hchain as (Ha & Hab & Hchain). cbn [app chain]. split; [done|].
    split; [done|]. apply IH; done.
Qed.

Lemma back_chain_path c tail :
  is_open g start -> back_chain c tail ->
  path_from_to g start c (reverse (tail ++ [start])).
Proof.
  intros Hstart. rewrite reverse_app. cbn [reverse app].
  change (reverse [start]) with [start]. cbn [app].
  revert c. induction tail as [|x tail IH]; intros c; cbn [back_chain].
  - intros ->. by split_and!.
  - intros (-> & Hc & Hopen & p & Hadj & Hchain).
    destruct (IH p Hchain) as (Hhead & Hlast & Hch).
    rewrite reverse_cons. change (start :: reverse tail ++ [c]) with ((start :: reverse tail) ++ [c]).
    split_and!.
    + done.
    + apply last_snoc.
    + by eapply chain_snoc.
Qed.

Lemma length_universe : length universe = S (W * H).
Proof. unfold universe. cbn [length]. rewrite length_all_cells. lia. Qed.

(** [astar] runs to completion without raising; the path of its final
    snapshot is the reversed reconstruction followed back from the end cell
    when the search recorded it, and just the start cell otherwise. *)
Lemma astar_result fuel visualize :
  (astar_budget <= fuel)%nat ->
  exists st tail,
    outcome (astar fuel visualize g start end_) = Done st ∧
    final_path (astar fuel visualize g start end_) = Some (reverse (tail ++ [start])) ∧
    search_inv st ∧
    (forall n, walk g start n end_ ->
       exists k, cost_so_far st !! end_ = Some k ∧ k <= Z.of_nat n) ∧
    ((exists k, cost_so_far st !! end_ = Some k ∧ back_chain end_ tail ∧
                Z.of_nat (length tail) <= k) ∨
     (cost_so_far st !! end_ = None ∧ tail = [])).
Proof.
  intros Hfuel. unfold astar_budget in Hfuel.
  destruct (initial_inv _ initial_eq) as (Hinv0 & Hset0 & Hm0).
  rewrite length_universe in Hm0.
  destruct (search_spec fuel visualize _ [] Hinv0 Hset0)
    as (out & st & Hsearch & Hinv & Hopt); [lia|].
  unfold astar. rewrite initial_eq, Hsearch.
  destruct (cost_so_far st !! end_) as [k|] eqn:Hk.
  - pose proof (si_bound st Hinv end_ k Hk) as Hb. rewrite length_universe in Hb.
    destruct (walk_back_spec fuel visualize st end_ k [] out Hinv Hk)
      as (out' & tail & Hwb & Hchain & Hlen); [nia|].
    rewrite Hwb. cbn [app]. exists st, tail.
    split; [done|]. split; [unfold final_path; cbn [emitted]; by rewrite last_snoc|].
    split; [done|]. split; [intros n Hw; rewrite Hk; by apply Hopt|]. left. by exists k.
  - assert (end_ ≠ start) as Hne.
    { intros Hes. by rewrite Hes, (si_start_cost st Hinv) in Hk. }
    assert (came_from st !! end_ = None) as Hcf.
    { destruct (came_from st !! end_) eqn:Hcf; [|done].
      destruct (si_from_dom st Hinv end_) as [? ?]; [eauto|congruence]. }
    destruct fuel as [|fuel]; [lia|].
    rewrite walk_back_missing by done. exists st, [].
    split; [done|]. split; [unfold final_path; cbn [emitted]; by rewrite last_snoc|].
    split; [done|]. split; [intros n Hw; rewrite Hk; by apply Hopt|]. by right.
Qed.

End Search.

(** ** What [astar] returns *)

Section AStar.

Import heapq PathFinder.

Lemma is_open_rows (W H : nat) g c : rectangular W H g -> is_open g c -> (0 < H)%nat.
Proof. intros Hrect Hc. pose proof (cell_at_bounds _ _ _ _ _ Hrect Hc). lia. Qed.

(** C1, as the code has it: when the end cell cannot be reached from the
    start, the final snapshot of [astar] carries the one-cell path
    [[start]], not the empty path: the reconstruction empties the path and
    leaves its loop, and the start is then appended to it all the same. *)
Theorem astar_unreachable_path (W H : nat) (g : Grid) (start end_ : Cell)
    (visualize : bool) (fuel : nat) :
  rectangular W H g -> is_open g start -> is_open g end_ ->
  ¬ reachable g start end_ ->
  (astar_budget W H <= fuel)%nat ->
  final_path (astar fuel visualize g start end_) = Some [start].
Proof.
  intros Hrect Hs He Hun Hfuel.
  destruct (astar_result W H g start end_ Hrect (is_open_rows _ _ _ _ Hrect Hs)
              fuel visualize Hfuel)
    as (st & tail & Hout & Hpath & Hinv & Hopt & [(k & Hk & _)|[_ ->]]).
  - destruct (si_walk _ _ _ _ _ st Hinv end_ k Hk) as (n & Hn & _).
    destruct Hun. by exists n.
  - done.
Qed.

Lemma astar_unreachable_path_witness :
  final_path (astar 20 true [[0; 1; 0]] (0, 0) (2, 0)) = Some [(0, 0)].
Proof.
  apply (astar_unreachable_path 3 1); try done.
  - split; [done|]. by repeat constructor.
  - intros [n Hw].
    assert (forall m c, walk [[0; 1; 0]] (0, 0) m c -> c = (0, 0)) as Hstay.
    { intros m c Hm. induction Hm as [|m b c Hm IH Hadj Hopen]; [done|].
      subst b. destruct c as [x y]. unfold adjacent in Hadj. cbn [fst snd] in Hadj.
      apply cell_at_Some in Hopen as (Hx & Hy & row & Hrow & Hv).
      assert (y = 0) as -> by (apply lookup_lt_Some in Hrow; cbn in Hrow; lia).
      assert (x = 1) as -> by lia. cbn in Hrow. injection Hrow as <-. done. }
    by apply Hstay in Hw.
  - vm_compute. lia.
Defined.

(** C2: when the end cell can be reached from the start, the final snapshot
    of [astar] carries a path that begins at the start, ends at the end
    cell, moves between adjacent open cells, and makes as many moves as the
    breadth-first distance between the two. *)
Theorem astar_shortest_path (W H : nat) (g : Grid) (start end_ : Cell)
    (visualize : bool) (fuel : nat) :
  rectangular W H g -> is_open g start -> is_open g end_ ->
  reachable g start end_ ->
  (astar_budget W H <= fuel)%nat ->
  exists st p,
    outcome (astar fuel visualize g start end_) = Done st ∧
    final_path (astar fuel visualize g start end_) = Some p ∧
    path_from_to g start end_ p ∧
    distance g start end_ (length p - 1)%nat.
Proof.
  intros Hrect Hs He [n Hn] Hfuel.
  destruct (astar_result W H g start end_ Hrect (is_open_rows _ _ _ _ Hrect Hs)
              fuel visualize Hfuel)
    as (st & tail & Hout & Hpath & Hinv & Hopt & [(k & Hk & Hchain & Hlen)|[Hnone _]]).
  - exists st, (reverse (tail ++ [start])). split; [done|]. split; [done|].
    split; [by apply back_chain_path|].
    rewrite length_reverse, length_app. cbn [length].
    replace (length tail + 1 - 1)%nat with (length tail) by lia.
    split; [by apply back_chain_walk|].
    intros m Hm. destruct (Hopt m Hm) as (k' & Hk' & Hle).
    assert (k' = k) by congruence. lia.
  - destruct (Hopt n Hn) as (k & Hk & _). congruence.
Qed.

Lemma astar_shortest_path_witness :
  exists st p,
    outcome (astar 30 true [[0; 0]; [1; 0]] (0, 0) (1, 1)) = Done st ∧
    final_path (astar 30 true [[0; 0]; [1; 0]] (0, 0) (1, 1)) = Some p ∧
    path_from_to [[0; 0]; [1; 0]] (0, 0) (1, 1) p ∧
    distance [[0; 0]; [1; 0]] (0, 0) (1, 1) (length p - 1)%nat.
Proof.
  apply (astar_shortest_path 2 2); try done.
  - split; [done|]. by repeat constructor.
  - exists 2%nat. apply (walk_step _ _ _ (1, 0)); [|done|done].
    apply (walk_step _ _ _ (0, 0)); [constructor|done|done].
  - vm_compute. lia.
Defined.

(** C4, as amended: [astar] checks nothing about its arguments. On every
    rectangular grid with at least one row, and for every start and end
    cell, inside the grid or not, open or wall, the call raises no error:
    it runs the search to completion and yields a final snapshot. *)
Theorem astar_no_validation (W H : nat) (g : Grid) (start end_ : Cell)
    (visualize : bool) (fuel : nat) :
  rectangular W H g -> (0 < H)%nat ->
  (astar_budget W H <= fuel)%nat ->
  exists st snap,
    outcome (astar fuel visualize g start end_) = Done st ∧
    last (emitted (astar fuel visualize g start end_)) = Some snap.
Proof.
  intros Hrect Hrows Hfuel.
  destruct (astar_result W H g start end_ Hrect Hrows fuel visualize Hfuel)
    as (st & tail & Hout & Hpath & _).
  unfold final_path in Hpath.
  destruct (last (emitted (astar fuel visualize g start end_))) as [snap|]; [|done].
  by exists st, snap.
Qed.

Lemma astar_no_validation_witness :
  exists st snap,
    outcome (astar 20 false [[0; 1]] (7, 7) (1, 0)) = Done st ∧
    last (emitted (astar 20 false [[0; 1]] (7, 7) (1, 0))) = Some snap.
Proof.
  apply (astar_no_validation 2 1).
  - split; [done|]. by repeat constructor.
  - lia.
  - vm_compute. lia.
Defined.

(** C4, as stated, fails: with a wall for the end cell, and with a start
    cell outside the grid, [astar] raises nothing and yields a final
    snapshot with a path. *)
Lemma astar_no_validation_counterexample :
  is_wall [[0; 1]] (1, 0) ∧
  (forall e, outcome (astar 20 false [[0; 1]] (0, 0) (1, 0)) ≠ Raise e) ∧
  final_path (astar 20 false [[0; 1]] (0, 0) (1, 0)) = Some [(0, 0)] ∧
  cell_at [[0; 1]] (7, 7) = None ∧
  (forall e, outcome (astar 20 false [[0; 1]] (7, 7) (0, 0)) ≠ Raise e) ∧
  final_path (astar 20 false [[0; 1]] (7, 7) (0, 0)) = Some [(7, 7)].
Proof. vm_compute. by split_and!. Qed.

End AStar.

(** ** What [astar] leaves alone *)

Section Frame.

Import heapq PathFinder.

Lemma relax_frame end_ current st d st' :
  relax end_ current st d = Done st' ->
  grid st' = grid st ∧ visited st' = visited st.
Proof.
  unfold relax.
  destruct (in_bounds (grid st) _ _) as [[|]|?|]; cbn [mbind res_bind]; try done;
    [|by intros [= <-]].
  destruct (grid_get (grid st) _ _) as [v|?|]; cbn [mbind res_bind]; try done.
  destruct (v =? 0); [|by intros [= <-]].
  destruct (dict_item (cost_so_far st) current) as [k|?|]; cbn [mbind res_bind]; try done.
  destruct (cost_so_far st !! _) as [old|]; [destruct (k + 1 <? old)|];
    try (by intros [= <-]);
    (destruct (heappush _ _) as [f|?|]; cbn [mbind res_bind]; [by intros [= <-]|done|done]).
Qed.

Lemma expand_frame end_ current ds st st' :
  expand end_ current st ds = Done st' ->
  grid st' = grid st ∧ visited st' = visited st.
Proof.
  revert st. induction ds as [|d ds IH]; intros st; cbn [expand].
  - by intros [= <-].
  - destruct (relax end_ current st d) as [st1|?|] eqn:Hrelax; cbn [mbind res_bind]; try done.
    intros [Hg Hv]%IH. apply relax_frame in Hrelax as [Hg1 Hv1]. split; congruence.
Qed.

Lemma search_frame fuel visualize end_ st out out' st' :
  search fuel visualize end_ st out = (out', Done st') -> grid st' = grid st.
Proof.
  revert st out. induction fuel as [|fuel IH]; intros st out; cbn [search]; [done|].
  destruct (frontier st) as [|e0 f0]; [by intros [= _ <-]|].
  destruct (heappop (e0 :: f0)) as [[[p current] rest]|?|]; try done.
  case_decide; [by intros [= _ <-]|].
  destruct (expand end_ current (set_frontier st rest) neighbor_offsets)
    as [st2|?|] eqn:Hexp; try done.
  intros Hg%IH. apply expand_frame in Hexp as [Hg2 _].
  cbn [add_visited set_frontier grid] in *. congruence.
Qed.

(** C9: a run of [astar] that completes ends with the grid it was given:
    no step of the search or of the reconstruction writes to it. *)
Theorem astar_leaves_grid (fuel : nat) (visualize : bool) (g : Grid)
    (start end_ : Cell) (st : State) :
  outcome (astar fuel visualize g start end_) = Done st -> grid st = g.
Proof.
  unfold astar. change (initial g start) with
    (Done (mkState g [(0, start)] {[start := None]} {[start := 0]} ∅)).
  cbv beta iota.
  match goal with |- context [search ?f ?v ?e ?s ?o] =>
    destruct (search f v e s o) as [out [st1|?|]] eqn:Hs end;
    cbn [outcome]; try done.
  destruct (walk_back fuel visualize start st1 end_ [] out) as [out' [path|?|]];
    cbn [outcome]; try done.
  intros [= <-]. by apply search_frame in Hs.
Qed.

Lemma astar_leaves_grid_witness :
  exists st,
    outcome (astar 30 true [[0; 0]; [1; 0]] (0, 0) (1, 1)) = Done st ∧
    grid st = [[0; 0]; [1; 0]].
Proof.
  eexists. split; [vm_compute; reflexivity|].
  apply (astar_leaves_grid 30 true [[0; 0]; [1; 0]] (0, 0) (1, 1)).
  vm_compute. reflexivity.
Defined.

Lemma search_end_unvisited fuel visualize end_ st out out' r :
  end_ ∉ visited st -> Forall (end_unvisited end_) out ->
  search fuel visualize end_ st out = (out', r) ->
  Forall (end_unvisited end_) out' ∧ forall st', r = Done st' -> end_ ∉ visited st'.
Proof.
  revert st out. induction fuel as [|fuel IH]; intros st out Hv Hout; cbn [search].
  - intros [= <- <-]. done.
  - destruct (frontier st) as [|e0 f0].
    { intros [= <- <-]. split; [done|]. by intros st' [= <-]. }
    destruct (heappop (e0 :: f0)) as [[[p current] rest]|?|];
      try (intros [= <- <-]; done).
    case_decide as Hend.
    + intros [= <- <-]. split; [done|]. by intros st' [= <-].
    + destruct (expand end_ current (set_frontier st rest) neighbor_offsets)
        as [st2|?|] eqn:Hexp; try (intros [= <- <-]; done).
      apply expand_frame in Hexp as [_ Hv2].
      assert (end_ ∉ visited (add_visited st2 current)) as Hv3.
      { cbn [add_visited visited]. rewrite Hv2. cbn [set_frontier visited].
        intros [Hc%elem_of_singleton|Hc]%elem_of_union; [congruence|done]. }
      apply IH; [done|].
      destruct visualize; [|done].
      apply Forall_app. split; [done|]. by repeat constructor.
Qed.

Lemma walk_back_end_unvisited fuel visualize end_ start st c path out out' r :
  end_ ∉ visited st -> Forall (end_unvisited end_) out ->
  walk_back fuel visualize start st c path out = (out', r) ->
  Forall (end_unvisited end_) out'.
Proof.
  intros Hv. revert c path out. induction fuel as [|fuel IH]; intros c path out Hout;
    cbn [walk_back].
  - by intros [= <- _].
  - case_decide; [by intros [= <- _]|].
    destruct (dict_get_cell (came_from st) c) as [prev|]; [|by intros [= <- _]].
    apply IH. destruct visualize; [|done].
    apply Forall_app. split; [done|]. by repeat constructor.
Qed.

(** C10: in every snapshot [astar] yields, the visited set does not hold the
    end cell; and when the start is the end cell, the only snapshot has an
    empty visited set, an empty frontier and the one-cell path. *)
Theorem end_never_visited (fuel : nat) (visualize : bool) (g : Grid) (start end_ : Cell) :
  Forall (end_unvisited end_) (emitted (astar fuel visualize g start end_)) ∧
  emitted (astar (S fuel) visualize g start start) = [(∅, [], Some [start])].
Proof.
  split.
  - unfold astar. change (initial g start) with
      (Done (mkState g [(0, start)] {[start := None]} {[start := 0]} ∅)).
    cbv beta iota.
    match goal with |- context [search ?f ?v ?e ?s ?o] =>
      destruct (search f v e s o) as [out r] eqn:Hs end.
    destruct (search_end_unvisited _ _ _ _ _ _ _ (not_elem_of_empty end_)
                (Forall_nil_2 _) Hs) as [Hout Hv].
    destruct r as [st|?|]; cbn [emitted]; try done.
    destruct (walk_back fuel visualize start st end_ [] out) as [out' r'] eqn:Hw.
    pose proof (walk_back_end_unvisited _ _ _ _ _ _ _ _ _ _ (Hv st eq_refl) Hout Hw) as Hout'.
    destruct r' as [path|?|]; cbn [emitted]; try done.
    apply Forall_app. split; [done|]. repeat constructor. by apply Hv.
  - unfold astar. change (initial g start) with
      (Done (mkState g [(0, start)] {[start := None]} {[start := 0]} ∅)).
    cbv beta iota. cbn [search frontier].
    change (heappop [(0, start)]) with (Done ((0, start), @nil Entry)).
    cbv beta iota. rewrite decide_True by done.
    cbn [walk_back]. rewrite decide_True by done. done.
Qed.

End Frame.

(** ** Runs of the generator *)

Section MazeRuns.

Import MazeGenerator.

Lemma with_stack_self st : with_stack st (stack st) = st.
Proof. by destruct st. Qed.

Lemma maze_inv_resumed st : maze_inv st -> resumed_inv [] st.
Proof. unfold resumed_inv. cbn [app]. by rewrite with_stack_self. Qed.

Lemma interior_open st c :
  maze_inv st -> interior (width st) (height st) c ->
  ¬ is_wall (grid st) c -> is_open (grid st) c.
Proof.
  intros Hinv [Hx Hy] Hw. destruct c as [x y]. cbn [fst snd] in *.
  destruct (rectangular_cell _ _ (grid st) x y (inv_rect st Hinv)) as [v Hv]; [lia|lia|].
  destruct (inv_vals st Hinv _ _ Hv) as [-> | ->]; [done|]. by destruct Hw.
Qed.

(** One iteration of the loop, case by case. *)
Lemma step_cases animate left st x y :
  resumed_inv left st ->
  last (stack st) = Some (x, y) ->
  exists st' evs,
    step animate st x y = Done (st', evs) ∧ resumed_inv left st' ∧
    width st' = width st ∧ height st' = height st ∧
    (maze_measure (with_stack st' (left ++ stack st')) <
     maze_measure (with_stack st (left ++ stack st)))%nat ∧
    ((exists d, d ∈ initial_directions ∧
        interior (width st) (height st) (x + d.1, y + d.2) ∧
        is_wall (grid st) (x + d.1, y + d.2) ∧
        stack st' = stack st ++ [(x + d.1, y + d.2)] ∧
        (forall c, cell_at (grid st') c =
           if decide (c = (x + d.1 / 2, y + d.2 / 2) ∨ c = (x + d.1, y + d.2))
           then Some 0 else cell_at (grid st) c) ∧
        evs = if animate then [Carved (x + d.1, y + d.2)] else [])
     ∨ (grid st' = grid st ∧ stack st' = removelast (stack st) ∧
        (forall d, d ∈ initial_directions ->
           interior (width st) (height st) (x + d.1, y + d.2) ->
           is_open (grid st) (x + d.1, y + d.2)) ∧
        evs = if animate then [StepBoundary] else [])).
Proof.
  intros Hinv Hlast. unfold resumed_inv in Hinv.
  set (sg := with_stack st (left ++ stack st)) in *.
  assert (last (stack sg) = Some (x, y)) as Hlastg.
  { unfold sg. cbn [with_stack stack]. by rewrite last_app, Hlast. }
  assert (stack st ≠ []) as Hne by (by intros E; rewrite E in Hlast).
  unfold step.
  destruct (shuffle (directions st) (rng st)) as [dirs r] eqn:Hsh.
  assert (forall e, e ∈ dirs <-> e ∈ initial_directions) as Hdirs.
  { intros e. rewrite <- (inv_dirs sg Hinv).
    pose proof (shuffle_elem_of (directions st) (rng st) e) as H.
    by rewrite Hsh in H. }
  assert (interior (width st) (height st) (x, y)) as Hxy.
  { apply (inv_open sg Hinv), (inv_stack sg Hinv). by eapply last_Some_elem_of. }
  destruct (try_carve_spec (width st) (height st) (grid st) x y dirs
              (inv_rect sg Hinv) Hxy) as [[Htc Hall]|(d & g' & Hd & Hi & Hw & Htc & Hr & Hc)].
  { intros d Hd. by apply Hdirs. }
  - rewrite Htc. cbn [mbind res_bind].
    destruct (maze_pop_inv sg x y dirs r Hinv Hlastg Hdirs) as [Hinv' Hlt].
    { intros d Hd. apply Hall. by apply Hdirs. }
    cbn zeta in Hinv', Hlt. unfold sg in Hinv', Hlt.
    cbn [with_stack stack width height grid] in Hinv', Hlt.
    rewrite removelast_app in Hinv', Hlt by done.
    eexists _, _. split; [done|]. split_and!; try done.
    right. split_and!; try done.
    intros e He Hie. apply (interior_open sg _ Hinv); [done|].
    apply Hall; [by apply Hdirs|done].
  - rewrite Htc. cbn [mbind res_bind].
    destruct (maze_carve_inv sg x y d g' dirs r Hinv Hlastg) as [Hinv' Hlt]; try done.
    { by apply Hdirs. }
    cbn zeta in Hinv', Hlt. unfold sg in Hinv', Hlt.
    cbn [with_stack stack width height grid] in Hinv', Hlt.
    rewrite <- app_assoc in Hinv', Hlt.
    eexists _, _. split; [done|]. split_and!; try done.
    left. exists d. split_and!; try done. by apply Hdirs.
Qed.

Lemma py_get_out {A} (l : list A) (i : Z) :
  Z.of_nat (length l) <= i -> py_get l i = Raise IndexError.
Proof.
  intros Hi. unfold py_get, py_index.
  destruct ((0 <=? i) && (i <? Z.of_nat (length l))) eqn:E1.
  { apply andb_true_iff in E1 as [_ E1]. lia. }
  destruct ((i <? 0) && (- Z.of_nat (length l) <=? i)) eqn:E2; [|done].
  apply andb_true_iff in E2 as [E2 _]. lia.
Qed.

Lemma py_set_out {A} (l : list A) (i : Z) (a : A) :
  Z.of_nat (length l) <= i -> py_set l i a = Raise IndexError.
Proof.
  intros Hi. unfold py_set, py_index.
  destruct ((0 <=? i) && (i <? Z.of_nat (length l))) eqn:E1.
  { apply andb_true_iff in E1 as [_ E1]. lia. }
  destruct ((i <? 0) && (- Z.of_nat (length l) <=? i)) eqn:E2; [|done].
  apply andb_true_iff in E2 as [E2 _]. lia.
Qed.

(** X1: a generator narrower or lower than two cells cannot open its start
    cell: [generate] raises [IndexError] at [self.grid[1][1] = 0], before it
    yields anything. *)
Theorem generate_too_small (w h : Z) (r : Rng) (animate : bool) (fuel : nat) :
  w <= 1 ∨ h <= 1 -> generate fuel animate w h r = Raise IndexError.
Proof.
  intros Hsmall. unfold generate, begin, init, grid_set.
  cbn [width height grid directions stack rng].
  destruct (decide (h <= 1)) as [Hh|Hh].
  - rewrite py_get_out; [done|]. unfold fresh_grid. rewrite length_replicate. lia.
  - rewrite (py_get_nonneg _ 1 (replicate (Z.to_nat w) 1)); [|lia|].
    + cbn [mbind res_bind]. rewrite py_set_out; [done|]. rewrite length_replicate. lia.
    + unfold fresh_grid. apply lookup_replicate_2. lia.
Qed.

Lemma generate_too_small_witness :
  generate 0 true 1 7 (mkRng (fun i => i) 0) = Raise IndexError.
Proof. apply generate_too_small. left. lia. Defined.

Lemma try_carve_outside w h g x y dirs :
  (forall d, d ∈ dirs -> ¬ interior w h (x + d.1, y + d.2)) ->
  try_carve w h g x y dirs = Done None.
Proof.
  induction dirs as [|[dx dy] rest IH]; intros Hout; [done|].
  cbn [try_carve].
  destruct ((1 <=? x + dx) && (x + dx <? w - 1) && ((1 <=? y + dy) && (y + dy <? h - 1))) eqn:E.
  - exfalso. apply (Hout (dx, dy)); [by left|].
    apply andb_true_iff in E as [[E1 E2]%andb_true_iff [E3 E4]%andb_true_iff].
    unfold interior. cbn [fst snd]. lia.
  - apply IH. intros d Hd. apply Hout. by right.
Qed.

(** X2: on a grid that leaves no room two cells away from [(1, 1)] inside
    the border, [generate] opens the start cell and nothing else, and yields
    a single [None]; when a side is two cells long the start cell it opens
    lies on the border. *)
Theorem generate_single_cell (w h : Z) (r : Rng) (animate : bool) (fuel : nat) :
  2 <= w -> 2 <= h -> w < 5 ∨ h < 3 -> h < 5 ∨ w < 3 -> (2 <= fuel)%nat ->
  exists st,
    generate fuel animate w h r = Done (st, if animate then [StepBoundary] else []) ∧
    stack st = [] ∧
    (forall c, is_open (grid st) c <-> c = (1, 1)) ∧
    (w = 2 ∨ h = 2 -> on_border w h (1, 1)).
Proof.
  intros Hw Hh Hs1 Hs2 Hfuel.
  destruct fuel as [|[|fuel]]; [lia|lia|].
  unfold generate, begin, init. cbn [width height grid directions stack rng].
  destruct (grid_set_cell _ _ (fresh_grid w h) 1 1 0 (rectangular_fresh w h))
    as (g & Hset & Hrect & Hcell); [lia|lia|].
  rewrite Hset. cbn [mbind res_bind loop stack last].
  unfold step. cbn [width height grid directions stack rng].
  destruct (shuffle initial_directions r) as [dirs r'] eqn:Hsh.
  rewrite try_carve_outside.
  - cbn [mbind res_bind fst snd removelast stack last app].
    eexists. split; [by destruct animate|]. cbn [stack grid].
    split_and!; [done| |].
    + intros c. unfold is_open. rewrite Hcell, cell_at_fresh.
      repeat case_decide; split; done.
    + intros Hb. unfold on_border. cbn [fst snd]. lia.
  - intros d Hd.
    pose proof (shuffle_elem_of initial_directions r d) as Hel.
    rewrite Hsh in Hel. apply Hel, initial_directions_cases in Hd.
    unfold interior. cbn [fst snd].
    destruct Hd as [-> | [-> | [-> | ->]]]; cbn [fst snd]; lia.
Qed.

Lemma generate_single_cell_witness :
  exists st,
    generate 2 true 2 9 (mkRng (fun i => i) 0) = Done (st, [StepBoundary]) ∧
    stack st = [] ∧
    (forall c, is_open (grid st) c <-> c = (1, 1)) ∧
    (2 = 2 ∨ 9 = 2 -> on_border 2 9 (1, 1)).
Proof. apply (generate_single_cell 2 9 _ true 2); lia. Defined.

(** A finished run leaves every room two cells from [(1, 1)] open, so the
    next run finds nothing to carve. *)
Lemma generate_on_closed st animate fuel :
  maze_inv st -> stack st = [] -> (2 <= fuel)%nat ->
  exists st',
    generate_on fuel animate st = Done (st', if animate then [StepBoundary] else []) ∧
    grid st' = grid st ∧ stack st' = [] ∧ maze_inv st'.
Proof.
  intros Hinv Hstack Hfuel. destruct fuel as [|[|fuel]]; [lia|lia|].
  unfold generate_on, begin.
  pose proof (inv_width st Hinv) as Hw. pose proof (inv_height st Hinv) as Hh.
  destruct (grid_set_cell _ _ (grid st) 1 1 0 (inv_rect st Hinv))
    as (g & Hset & Hrect & Hcell); [lia|lia|].
  assert (g = grid st) as ->.
  { revert Hset. unfold grid_set.
    pose proof (inv_start st Hinv) as Hopen. unfold is_open in Hopen.
    apply cell_at_Some in Hopen as (_ & _ & row & Hrow & Hv).
    rewrite (py_get_nonneg _ 1 row) by (done || lia). cbn [mbind res_bind].
    rewrite py_set_nonneg by (apply lookup_lt_Some in Hv; lia).
    cbn [mbind res_bind].
    rewrite py_set_nonneg by (apply lookup_lt_Some in Hrow; lia).
    intros [= <-]. change (Z.to_nat 1) with 1%nat in *.
    by rewrite (list_insert_id row), (list_insert_id (grid st)). }
  rewrite Hset. cbn [mbind res_bind].
  set (st1 := mkState (width st) (height st) (grid st) (directions st) [(1, 1)] (rng st)).
  assert (maze_inv st1) as Hinv1.
  { destruct Hinv as [? ? ? ? ? ? ? ? ? ? Hdone]. constructor; try done.
    - intros c ->%list_elem_of_singleton. done.
    - intros c d Ho Hr _. apply Hdone; try done. rewrite Hstack. apply not_elem_of_nil. }
  destruct (step_cases animate [] st1 1 1) as (st' & evs & Hstep & Hinv' & _ & _ & _ & Hcases).
  { by apply maze_inv_resumed. }
  { done. }
  cbn [loop]. change (last (stack st1)) with (Some ((1, 1) : Cell)). cbn iota beta.
  rewrite Hstep. cbn [mbind res_bind fst snd app].
  destruct Hcases as [(d & Hd & Hi & Hwall & _)|(Hg & Hs & _ & ->)].
  - exfalso. pose proof (inv_done st Hinv (1, 1) d (inv_start st Hinv) eq_refl) as Ho.
    rewrite Hstack in Ho. specialize (Ho (not_elem_of_nil _) Hd Hi).
    unfold is_open in Ho. unfold is_wall in Hwall. cbn [fst snd] in Ho.
    change (grid st1) with (grid st) in Hwall.
    congruence.
  - cbn [stack st1 removelast] in Hs. rewrite Hs. cbn [last].
    exists st'. split_and!; try done.
    unfold resumed_inv in Hinv'. rewrite Hs in Hinv'. cbn [app] in Hinv'.
    rewrite <- Hs in Hinv'. by rewrite with_stack_self in Hinv'.
Qed.

(** X3: calling [generate] again on a generator whose maze is finished
    carves nothing: the grid stays as it is and the run yields a single
    [None]. *)
Theorem generate_again_carves_nothing (w h : Z) (r : Rng) (a1 a2 : bool) (fuel : nat) :
  3 <= w -> 3 <= h -> (Z.to_nat w * Z.to_nat h < fuel)%nat ->
  exists st evs st',
    generate fuel a1 w h r = Done (st, evs) ∧
    generate_on fuel a2 st = Done (st', if a2 then [StepBoundary] else []) ∧
    grid st' = grid st.
Proof.
  intros Hw Hh Hfuel.
  destruct (begin_inv w h r Hw Hh) as (st0 & Hbegin & Hinv0 & Hw0 & Hh0 & Hm0).
  destruct (loop_terminates fuel a1 st0 [] Hinv0) as (st & evs & Hloop & Hinv & Hst & _);
    [lia|].
  destruct (generate_on_closed st a2 fuel Hinv Hst) as (st' & Hgen & Hg & _); [nia|].
  exists st, evs, st'. split_and!; try done.
  unfold generate. rewrite Hbegin. done.
Qed.

Lemma generate_again_carves_nothing_witness :
  exists st evs st',
    generate 26 true 5 5 (mkRng (fun i => i) 0) = Done (st, evs) ∧
    generate_on 26 true st = Done (st', [StepBoundary]) ∧
    grid st' = grid st.
Proof. apply (generate_again_carves_nothing 5 5 _ true true 26); lia. Defined.

Lemma resumed_nil st : resumed_inv [] st -> maze_inv st.
Proof. unfold resumed_inv. cbn [app]. by rewrite with_stack_self. Qed.

Lemma carved_cells_app evs1 evs2 :
  carved_cells (evs1 ++ evs2) = carved_cells evs1 ++ carved_cells evs2.
Proof. apply omap_app. Qed.

Lemma boundaries_app evs1 evs2 :
  boundaries (evs1 ++ evs2) = (boundaries evs1 + boundaries evs2)%nat.
Proof. unfold boundaries. by rewrite List.filter_app, length_app. Qed.

Lemma length_removelast {A} (l : list A) : l ≠ [] -> S (length (removelast l)) = length l.
Proof.
  intros Hne. destruct (exists_last Hne) as (l' & a & ->).
  rewrite removelast_last, length_app. cbn. lia.
Qed.

Lemma step_events st x y evs st' evs1 :
  maze_inv st -> last (stack st) = Some (x, y) -> events_inv st evs ->
  step true st x y = Done (st', evs1) ->
  maze_inv st' ∧ events_inv st' (evs ++ evs1).
Proof.
  intros Hinv Hlast (Hnd & Hmem & Hcount) Hstep.
  destruct (step_cases true [] st x y (maze_inv_resumed st Hinv) Hlast)
    as (st1 & evs2 & Hstep' & Hinv1%resumed_nil & _ & _ & _ & Hcases).
  rewrite Hstep in Hstep'. injection Hstep' as <- <-. split; [done|].
  assert (is_room (x, y) = true) as Hroom.
  { apply (inv_stack st Hinv). by eapply last_Some_elem_of. }
  apply is_room_spec in Hroom. cbn [fst snd] in Hroom.
  destruct Hcases as [(d & Hd & Hi & Hwall & Hs & Hc & ->)|(Hg & Hs & _ & ->)].
  - pose proof (direction_shape d Hd) as Hshape.
    assert (is_room (x + d.1, y + d.2) = true) as Hrn.
    { apply is_room_spec. cbn [fst snd]. lia. }
    assert (is_room (x + d.1 / 2, y + d.2 / 2) = false) as Hrm.
    { apply not_true_is_false. intros Hr%is_room_spec. cbn [fst snd] in Hr. lia. }
    assert ((x + d.1, y + d.2) ≠ ((1, 1) : Cell)) as Hne.
    { intros E. rewrite E in Hwall. pose proof (inv_start st Hinv) as Ho.
      unfold is_open in Ho. unfold is_wall in Hwall. congruence. }
    assert ((x + d.1, y + d.2) ∉ carved_cells evs) as Hfresh.
    { intros [Ho _]%Hmem. unfold is_open in Ho. unfold is_wall in Hwall. congruence. }
    unfold events_inv. rewrite carved_cells_app. cbn [carved_cells omap list_omap].
    change (omap _ evs) with (carved_cells evs).
    split_and!.
    + apply NoDup_app. split_and!; [done| |apply NoDup_singleton].
      intros c Hin ->%list_elem_of_singleton. done.
    + intros c. rewrite elem_of_app, list_elem_of_singleton, Hmem.
      unfold is_open. rewrite Hc. split.
      * intros [(Ho & Hr & Hn) | ->].
        -- split_and!; try done. by case_decide.
        -- split_and!; try done. case_decide as Hdec; [done|]. destruct Hdec. by right.
      * intros (Ho & Hr & Hn). case_decide as Hdec.
        -- destruct Hdec as [-> | ->]; [congruence|by right].
        -- by left.
    + rewrite boundaries_app, Hs, !length_app. cbn. lia.
  - unfold events_inv. rewrite carved_cells_app, boundaries_app, Hg, Hs. cbn. rewrite app_nil_r.
    split_and!; [done|done|].
    assert (stack st ≠ []) as Hnil by (by intros E; rewrite E in Hlast).
    pose proof (length_removelast (stack st) Hnil). lia.
Qed.

Lemma loop_events fuel st evs st' evs' :
  maze_inv st -> events_inv st evs ->
  loop fuel true st evs = Done (st', evs') -> events_inv st' evs'.
Proof.
  revert st evs. induction fuel as [|fuel IH]; intros st evs Hinv Hev Hloop; [done|].
  cbn [loop] in Hloop. destruct (last (stack st)) as [[x y]|] eqn:Hlast.
  - destruct (step true st x y) as [[st1 evs1]| |] eqn:Hstep; try done.
    cbn [mbind res_bind fst snd] in Hloop.
    destruct (step_events st x y evs st1 evs1 Hinv Hlast Hev Hstep) as [Hinv1 Hev1].
    by apply (IH st1 (evs ++ evs1)).
  - by injection Hloop as <- <-.
Qed.

(** X4: the values [generate(animate=True)] yields on a fresh generator:
    every room inside the border other than [(1, 1)] exactly once, at the
    moment it is carved, and one [None] for each room, [(1, 1)] included. *)
Theorem generate_yields_rooms (w h : Z) (r : Rng) (fuel : nat) :
  3 <= w -> 3 <= h -> (Z.to_nat w * Z.to_nat h < fuel)%nat ->
  exists st evs,
    generate fuel true w h r = Done (st, evs) ∧
    NoDup (carved_cells evs) ∧
    (forall c, c ∈ carved_cells evs <->
       interior w h c ∧ is_room c = true ∧ c ≠ (1, 1)) ∧
    boundaries evs = S (length (carved_cells evs)).
Proof.
  intros Hw Hh Hfuel.
  destruct (begin_inv w h r Hw Hh) as (st0 & Hbegin & Hinv0 & Hw0 & Hh0 & Hm0).
  destruct (loop_terminates fuel true st0 [] Hinv0)
    as (st & evs & Hloop & Hinv & Hst & Hw' & Hh' & _); [lia|].
  assert (events_inv st0 []) as Hev0.
  { unfold events_inv. cbn. split_and!; [apply NoDup_nil_2| |].
    - intros c. split; [by intros ?%elem_of_nil|]. intros (Ho & _ & Hne). destruct Hne.
      revert Hbegin Ho. unfold begin, init. cbn [width height grid directions stack rng].
      destruct (grid_set_cell _ _ (fresh_grid w h) 1 1 0 (rectangular_fresh w h))
        as (g & Hset & _ & Hcell); [lia|lia|].
      rewrite Hset. cbn [mbind res_bind]. intros [= <-]. cbn [grid].
      unfold is_open. rewrite Hcell, cell_at_fresh. by repeat case_decide.
    - revert Hbegin. unfold begin. destruct (grid_set _ _ _ _); try done.
      cbn [mbind res_bind]. by intros [= <-]. }
  destruct (loop_events fuel st0 [] st evs Hinv0 Hev0 Hloop) as (Hnd & Hmem & Hcount).
  exists st, evs. split_and!; try done.
  - unfold generate. by rewrite Hbegin.
  - intros c. rewrite Hmem. rewrite <- Hw0, <- Hw', <- Hh0, <- Hh'. split.
    + intros (Ho & Hr & Hn). split_and!; try done. by apply (inv_open st Hinv).
    + intros (Hi & Hr & Hn). split_and!; try done. by apply maze_inv_spanning.
  - rewrite Hst in Hcount. cbn in Hcount. lia.
Qed.

Lemma generate_yields_rooms_witness :
  exists st evs,
    generate 26 true 5 5 (mkRng (fun i => i) 0) = Done (st, evs) ∧
    NoDup (carved_cells evs) ∧
    (forall c, c ∈ carved_cells evs <->
       interior 5 5 c ∧ is_room c = true ∧ c ≠ (1, 1)) ∧
    boundaries evs = S (length (carved_cells evs)).
Proof. apply (generate_yields_rooms 5 5 _ 26); lia. Defined.

Lemma step_animate_only st x y :
  step false st x y =
  match step true st x y with
  | Done (st', _) => Done (st', [])
  | Raise e => Raise e
  | Timeout => Timeout
  end.
Proof.
  unfold step. destruct (shuffle (directions st) (rng st)) as [dirs r].
  destruct (try_carve _ _ _ _ _ _) as [[[g n]|]| |]; done.
Qed.

Lemma loop_animate_only fuel st evs :
  loop fuel false st [] =
  match loop fuel true st evs with
  | Done (st', _) => Done (st', [])
  | Raise e => Raise e
  | Timeout => Timeout
  end.
Proof.
  revert st evs. induction fuel as [|fuel IH]; intros st evs; [done|].
  cbn [loop]. destruct (last (stack st)) as [[x y]|]; [|done].
  rewrite step_animate_only.
  destruct (step true st x y) as [[st1 evs1]| |]; try done.
  cbn [mbind res_bind fst snd app]. apply IH.
Qed.

(** X5: [animate] changes what [generate] yields and nothing else: without
    it the run yields nothing and ends in the same state, grid and random
    generator included, or fails alike. *)
Theorem generate_animate_only_yields (w h : Z) (r : Rng) (fuel : nat) :
  generate fuel false w h r =
  match generate fuel true w h r with
  | Done (st, _) => Done (st, [])
  | Raise e => Raise e
  | Timeout => Timeout
  end.
Proof.
  unfold generate. destruct (begin (init w h r)) as [st0| |]; try done.
  cbn [mbind res_bind]. apply loop_animate_only.
Qed.

End MazeRuns.

(** ** Runs of the search *)

Section AStarRuns.

Import heapq PathFinder.

(** X6: the Manhattan heuristic never exceeds the number of moves of a walk
    between the two cells, whichever way round it is asked: it is
    admissible on every grid. *)
Theorem heuristic_admissible (g : Grid) (a b : Cell) (n : nat) :
  walk g a n b -> heuristic a b <= Z.of_nat n ∧ heuristic b a <= Z.of_nat n.
Proof.
  induction 1 as [|n b c Hw [IH1 IH2] Hadj Hopen].
  - unfold heuristic. lia.
  - unfold heuristic, adjacent in *. lia.
Qed.

Lemma heuristic_admissible_witness :
  heuristic (0, 0) (1, 1) <= Z.of_nat 2 ∧ heuristic (1, 1) (0, 0) <= Z.of_nat 2.
Proof.
  apply (heuristic_admissible [[0; 0]; [1; 0]]).
  apply (walk_step _ _ 1 (1, 0)); [|done|done].
  apply (walk_step _ _ 0 (0, 0)); [|done|done].
  apply walk_here.
Defined.

Lemma search_visualize_only fuel end_ st out out' :
  (search fuel false end_ st out).1 = out ∧
  (search fuel false end_ st out).2 = (search fuel true end_ st out').2.
Proof.
  revert st out out'. induction fuel as [|fuel IH]; intros st out out'; [done|].
  cbn [search]. destruct (frontier st); [done|].
  destruct (heappop _) as [[[pr current] rest]| |]; try done.
  cbn zeta. case_decide; [done|].
  destruct (expand _ _ _ _); first [done|apply IH].
Qed.

Lemma walk_back_visualize_only fuel start st c path out out' :
  (walk_back fuel false start st c path out).1 = out ∧
  (walk_back fuel false start st c path out).2 =
  (walk_back fuel true start st c path out').2.
Proof.
  revert c path out out'. induction fuel as [|fuel IH]; intros c path out out'; [done|].
  cbn [walk_back]. case_decide; [done|]. cbn zeta.
  destruct (dict_get_cell _ _); first [done|apply IH].
Qed.

(** X7: [visualize] changes what [astar] yields on the way and nothing
    else: with or without it the run ends alike and the last value yielded
    is the same; without it that value is the only one. *)
Theorem astar_visualize_only_yields (fuel : nat) (g : Grid) (start end_ : Cell) :
  outcome (astar fuel false g start end_) = outcome (astar fuel true g start end_) ∧
  match outcome (astar fuel true g start end_) with
  | Done _ =>
      exists snap, emitted (astar fuel false g start end_) = [snap] ∧
        last (emitted (astar fuel true g start end_)) = Some snap
  | _ => emitted (astar fuel false g start end_) = []
  end.
Proof.
  unfold astar. destruct (initial g start) as [st0| |]; try done.
  pose proof (search_visualize_only fuel end_ st0 [] []) as [Hs1 Hs2].
  destruct (search fuel false end_ st0 []) as [o1 r1].
  destruct (search fuel true end_ st0 []) as [o2 r2].
  cbn [fst snd] in Hs1, Hs2. subst o1 r1.
  destruct r2 as [st| |]; try done.
  pose proof (walk_back_visualize_only fuel start st end_ [] [] o2) as [Hw1 Hw2].
  destruct (walk_back fuel false start st end_ [] []) as [o3 r3].
  destruct (walk_back fuel true start st end_ [] o2) as [o4 r4].
  cbn [fst snd] in Hw1, Hw2. subst o3 r3.
  destruct r4 as [path| |]; try done.
  cbn [outcome emitted app]. split; [done|].
  eexists. split; [done|]. by rewrite last_snoc.
Qed.

Lemma py_get_index_error {A} (l : list A) (i : Z) :
  (exists a, py_get l i = Done a) ∨ py_get l i = Raise IndexError.
Proof.
  unfold py_get. destruct (py_index l i) as [k|]; [|by right].
  destruct (l !! k); [left; by eexists|by right].
Qed.

Lemma grid_get_index_error (g : Grid) (x y : Z) :
  (exists v, grid_get g x y = Done v) ∨ grid_get g x y = Raise IndexError.
Proof.
  unfold grid_get. destruct (py_get_index_error g y) as [[row ->]| ->]; [|by right].
  cbn [mbind res_bind]. apply py_get_index_error.
Qed.

Lemma in_bounds_index_error (g : Grid) (x y : Z) :
  (exists b, in_bounds g x y = Done b) ∨ in_bounds g x y = Raise IndexError.
Proof.
  unfold in_bounds. destruct (0 <=? x); [|left; by eexists].
  destruct (py_get_index_error g 0) as [[row ->]| ->]; [|by right].
  cbn [mbind res_bind]. destruct (x <? _); left; by eexists.
Qed.

Lemma relax_index_error end_ current st d :
  heap_ok (frontier st) -> frontier_recorded st ->
  is_Some (cost_so_far st !! current) ->
  (exists st', relax end_ current st d = Done st' ∧ heap_ok (frontier st') ∧
     frontier_recorded st' ∧ is_Some (cost_so_far st' !! current))
  ∨ relax end_ current st d = Raise IndexError.
Proof.
  intros Hheap Hrec [k Hk]. unfold relax. cbv zeta.
  set (nx := current.1 + d.1). set (ny := current.2 + d.2).
  set (neighbor := (nx, ny)).
  destruct (in_bounds_index_error (grid st) nx ny) as [[inb ->]| ->];
    [|by right].
  cbn [mbind res_bind]. destruct inb; [|left; exists st; by eauto].
  destruct (grid_get_index_error (grid st) nx ny) as [[v ->]| ->];
    [|by right].
  cbn [mbind res_bind]. destruct (v =? 0); [|left; exists st; by eauto].
  unfold dict_item. rewrite Hk. cbn [mbind res_bind].
  match goal with |- context [if ?b then _ else _] => destruct b end;
    [|left; exists st; by eauto].
  destruct (heappush_spec (frontier st) (k + 1 + heuristic end_ neighbor, neighbor) Hheap)
    as (h' & -> & Hh' & Hperm).
  cbn [mbind res_bind]. left. eexists. split; [done|].
  cbn [frontier cost_so_far]. split_and!; [done| |].
  - intros p c Hin. cbn [frontier cost_so_far] in *.
    apply (elem_of_Permutation_proper _ _ _ Hperm) in Hin.
    apply elem_of_cons in Hin as [[= -> ->]|Hin]; [by rewrite lookup_insert_eq|].
    apply Hrec in Hin as [v' Hv].
    destruct (decide (neighbor = c)) as [<-|Hne];
      [by rewrite lookup_insert_eq|by rewrite lookup_insert_ne, Hv].
  - destruct (decide (neighbor = current)) as [E|Hne];
      [by rewrite E, lookup_insert_eq|by rewrite lookup_insert_ne, Hk].
Qed.





End AStarRuns.

(** ** What the search explores *)

Section Exploration.

Import heapq PathFinder.

Variables (W H : nat) (g : Grid) (start end_ : Cell).
Hypothesis Hrect : rectangular W H g.
Hypothesis Hrows : (0 < H)%nat.

#[local] Abbreviation search_inv := (search_inv W H g start end_).
#[local] Abbreviation search_measure := (search_measure W H start).
#[local] Abbreviation settled := (settled g end_).
#[local] Abbreviation explored := (explored start).
#[local] Abbreviation shows_open_cells := (shows_open_cells g start).

Lemma relax_explored st current d k st' :
  grid st = g -> heap_ok (frontier st) -> cost_so_far st !! current = Some k ->
  explored (Some current) st ->
  relax end_ current st d = Done st' ->
  explored (Some current) st' ∧ grid st' = g ∧ heap_ok (frontier st') ∧
  is_Some (cost_so_far st' !! current).
Proof.
  intros Hg Hheap Hk (Hvis & Hcost & Hfrom & Hstart) Hrelax.
  destruct (relax_cases W H g end_ Hrect Hrows st current d k Hg Hheap Hk)
    as [[Hsame _]|(frontier' & [Hheap' Hperm] & Hupd & _)].
  - rewrite Hsame in Hrelax. injection Hrelax as <-. by eauto.
  - rewrite Hupd in Hrelax. injection Hrelax as <-.
    set (neighbor := (current.1 + d.1, current.2 + d.2)) in *.
    unfold updated. cbn [grid frontier cost_so_far came_from visited].
    split_and!; try done.
    + split_and!; cbn [grid frontier cost_so_far came_from visited].
      * intros c Hc. destruct (decide (neighbor = c)) as [<-|Hne];
          [by rewrite lookup_insert_eq|rewrite lookup_insert_ne by done; by apply Hvis].
      * intros c Hc. destruct (decide (neighbor = c)) as [<-|Hne].
        { right. right. eexists. rewrite Hperm. by left. }
        rewrite lookup_insert_ne in Hc by done.
        destruct (Hcost c Hc) as [?|[?|[q Hq]]]; [by left|by right; left|].
        right. right. exists q. rewrite Hperm. by right.
      * intros c p. destruct (decide (neighbor = c)) as [<-|Hne].
        { rewrite lookup_insert_eq. intros [= <-]. by right. }
        rewrite lookup_insert_ne by done. apply Hfrom.
      * destruct Hstart as [?|[?|[? _]]]; [by left|by right; left|done].
    + destruct (decide (neighbor = current)) as [E|Hne];
        [by rewrite E, lookup_insert_eq|by rewrite lookup_insert_ne, Hk].
Qed.

Lemma expand_explored ds st current st' :
  grid st = g -> heap_ok (frontier st) -> is_Some (cost_so_far st !! current) ->
  explored (Some current) st ->
  expand end_ current st ds = Done st' ->
  explored (Some current) st' ∧ is_Some (cost_so_far st' !! current).
Proof.
  revert st. induction ds as [|d ds IH]; intros st Hg Hheap [k Hk] Hex Hexp.
  { injection Hexp as <-. by eauto. }
  cbn [expand] in Hexp.
  destruct (relax end_ current st d) as [st1| |] eqn:Hrelax; try done.
  cbn [mbind res_bind] in Hexp.
  destruct (relax_explored st current d k st1 Hg Hheap Hk Hex Hrelax)
    as (Hex1 & Hg1 & Hheap1 & Hk1).
  by apply (IH st1).
Qed.

Lemma pop_explored st p current rest :
  explored None st -> frontier st ≡ₚ (p, current) :: rest ->
  explored (Some current) (set_frontier st rest).
Proof.
  intros (Hvis & Hcost & Hfrom & Hstart) Hperm.
  split_and!; cbn [set_frontier grid frontier cost_so_far came_from visited].
  - done.
  - intros c Hc. destruct (Hcost c Hc) as [?|[?|[q Hq]]]; [by left|done|].
    rewrite Hperm in Hq. apply elem_of_cons in Hq as [[= -> ->]|Hq].
    + right. by left.
    + right. right. by exists q.
  - intros c q Hq. destruct (Hfrom c q Hq) as [?|?]; [by left|done].
  - destruct Hstart as [?|[?|[_ Hf]]]; [by left|done|].
    rewrite Hf in Hperm. apply Permutation_singleton_l in Hperm.
    injection Hperm as _ <- _. right. by left.
Qed.

Lemma add_visited_explored st current :
  is_Some (cost_so_far st !! current) ->
  explored (Some current) st -> explored None (add_visited st current).
Proof.
  intros Hk (Hvis & Hcost & Hfrom & Hstart).
  split_and!; cbn [add_visited grid frontier cost_so_far came_from visited].
  - intros c [->%elem_of_singleton|Hc]%elem_of_union; [done|by apply Hvis].
  - intros c Hc. destruct (Hcost c Hc) as [?|[[= ->]|?]].
    + left. apply elem_of_union. by right.
    + left. apply elem_of_union. left. by apply elem_of_singleton.
    + right. by right.
  - intros c q Hq. left. destruct (Hfrom c q Hq) as [?|[= ->]].
    + apply elem_of_union. by right.
    + apply elem_of_union. left. by apply elem_of_singleton.
  - left. destruct Hstart as [?|[[= ->]|[? _]]]; [|  |done].
    + apply elem_of_union. by right.
    + apply elem_of_union. left. by apply elem_of_singleton.
Qed.

Lemma explored_shows st current path :
  search_inv st -> explored current st -> shows_open_cells (snapshot st path).
Proof.
  intros Hinv (Hvis & _). split; cbn [snapshot fst snd].
  - intros c Hc. apply Hvis in Hc as [k Hk].
    destruct (decide (c = start)) as [?|Hne]; [by left|].
    right. by destruct (si_from _ _ _ _ _ st Hinv c Hne k Hk) as (? & ? & ? & ? & ?).
  - intros p c Hin. destruct (si_entry _ _ _ _ _ st Hinv p c Hin) as (k & Hk & _).
    destruct (decide (c = start)) as [?|Hne]; [by left|].
    right. by destruct (si_from _ _ _ _ _ st Hinv c Hne k Hk) as (? & ? & ? & ? & ?).
Qed.

Lemma search_explores fuel visualize st out :
  search_inv st -> settled start [] st -> explored None st ->
  Forall shows_open_cells out ->
  (search_measure st < fuel)%nat ->
  exists out' st',
    search fuel visualize end_ st out = (out', Done st') ∧ search_inv st' ∧
    Forall shows_open_cells out' ∧
    ((frontier st' = [] ∧ settled start [] st' ∧ explored None st') ∨
     (explored (Some end_) st' ∧ is_Some (cost_so_far st' !! end_))).
Proof.
  revert st out. induction fuel as [|fuel IH]; intros st out Hinv Hset Hex Hout Hfuel; [lia|].
  destruct (decide (frontier st = [])) as [Hnil|Hne].
  - cbn [search]. rewrite Hnil. exists out, st. split_and!; try done. by left.
  - rewrite search_nonempty by done.
    destruct (heappop_spec _ (si_heap _ _ _ _ _ st Hinv) Hne)
      as ([p current] & rest & Hpop & Hok & Hperm & Hmin).
    rewrite Hpop. cbv beta iota zeta.
    destruct (pop_inv W H g start end_ Hrows st p current rest Hinv Hset Hpop)
      as (Hinv1 & Hset1 & Hm1 & k & Hk).
    pose proof (pop_explored st p current rest Hex Hperm) as Hex1.
    case_decide as Hend.
    + subst current. exists out, (set_frontier st rest). split_and!; try done.
      right. split; [done|]. by exists k.
    + destruct (expand_inv W H g start end_ Hrect Hrows neighbor_offsets
                  (set_frontier st rest) current k)
        as (st2 & Hexp & Hinv2 & Hset2 & Hm2 & Hv2); try done.
      rewrite Hexp.
      destruct (expand_explored neighbor_offsets (set_frontier st rest) current st2
                  (si_grid _ _ _ _ _ _ Hinv1) (si_heap _ _ _ _ _ _ Hinv1)
                  (ex_intro _ k Hk) Hex1 Hexp) as [Hex2 Hk2].
      apply IH.
      * by apply search_inv_add_visited.
      * by eapply settled_nil, Hset2.
      * by apply add_visited_explored.
      * destruct visualize; [|done]. apply Forall_app. split; [done|].
        apply Forall_singleton, (explored_shows _ None).
        -- by apply search_inv_add_visited.
        -- by apply add_visited_explored.
      * unfold search_measure, potential in *.
        cbn [add_visited frontier cost_so_far]. lia.
Qed.

Lemma walk_back_within fuel visualize st cur c path out (Q : Cell -> Prop) out' r :
  search_inv st -> explored cur st ->
  (forall c p, came_from st !! c = Some (Some p) -> Q p) ->
  Q c -> Forall Q path -> Forall shows_open_cells out ->
  walk_back fuel visualize start st c path out = (out', r) ->
  Forall shows_open_cells out' ∧ forall path', r = Done path' -> Forall Q path'.
Proof.
  intros Hinv Hex Hfrom. revert c path out.
  induction fuel as [|fuel IH]; intros c path out Hc Hpath Hout Hwb.
  { injection Hwb as <- <-. done. }
  cbn [walk_back] in Hwb. case_decide as Hcs.
  { injection Hwb as <- <-. split; [done|]. by intros ? [= <-]. }
  cbv zeta in Hwb. destruct (dict_get_cell (came_from st) c) as [prev|] eqn:Hprev.
  - apply (IH prev (path ++ [c])
             (if visualize then out ++ [snapshot st (Some (path ++ [c]))] else out));
      try done.
    + apply (Hfrom c). revert Hprev. unfold dict_get_cell.
      destruct (came_from st !! c) as [[?|]|]; by intros [= ->].
    + apply Forall_app. split; [done|]. by apply Forall_singleton.
    + destruct visualize; [|done]. apply Forall_app. split; [done|].
      by apply Forall_singleton, (explored_shows _ cur).
  - injection Hwb as <- <-. split; [done|]. by intros ? [= <-].
Qed.

(** The run of [astar] under a sufficient budget, with what the search and
    the reconstruction leave behind. *)
Lemma astar_explored fuel visualize :
  (astar_budget W H <= fuel)%nat ->
  exists st path out,
    outcome (astar fuel visualize g start end_) = Done st ∧
    emitted (astar fuel visualize g start end_) =
      out ++ [snapshot st (Some (reverse (path ++ [start])))] ∧
    search_inv st ∧
    Forall shows_open_cells out ∧
    shows_open_cells (snapshot st (Some (reverse (path ++ [start])))) ∧
    Forall (fun c => c = end_ ∨ c ∈ visited st) (path ++ [start]) ∧
    (cost_so_far st !! end_ = None -> path = []) ∧
    ((frontier st = [] ∧ settled start [] st ∧ explored None st) ∨
     is_Some (cost_so_far st !! end_)).
Proof.
  intros Hfuel. unfold astar_budget in Hfuel.
  destruct (initial_inv W H g start end_ Hrows _ (initial_eq g start)) as (Hinv0 & Hset0 & Hm0).
  rewrite length_universe in Hm0 by done.
  assert (explored None (mkState g [(0, start)] {[start := None]} {[start := 0]} ∅)) as Hex0.
  { split_and!; cbn [grid frontier cost_so_far came_from visited].
    - intros c Hc. by apply elem_of_empty in Hc.
    - intros c [k Hk]. apply lookup_singleton_Some in Hk as [<- _].
      right. right. exists 0. by left.
    - intros c p Hp. by apply lookup_singleton_Some in Hp as [_ ?].
    - right. by right. }
  destruct (search_explores fuel visualize _ [] Hinv0 Hset0 Hex0)
    as (out & st & Hsearch & Hinv & Hout & Hend); [done|lia|].
  unfold astar. rewrite initial_eq, Hsearch.
  set (Q := fun c : Cell => c = end_ ∨ c ∈ visited st).
  assert (exists cur, explored cur st ∧
            (forall c p, came_from st !! c = Some (Some p) -> Q p) ∧ Q start)
    as (cur & Hex & Hfrom & Hstart).
  { destruct Hend as [(Hnil & _ & Hex)|[Hex _]].
    - exists None. split; [done|]. destruct Hex as (_ & _ & Hf & Hs). split.
      + intros c p Hp. destruct (Hf c p Hp) as [?|?]; [by right|done].
      + destruct Hs as [?|[?|[_ Hf1]]]; [by right|done|]. by rewrite Hnil in Hf1.
    - exists (Some end_). split; [done|]. destruct Hex as (_ & _ & Hf & Hs). split.
      + intros c p Hp. destruct (Hf c p Hp) as [?|[= ->]]; [by right|by left].
      + destruct Hs as [?|[[= ->]|[? _]]]; [by right|by left|done]. }
  assert (Q end_) as Hqe by (by left).
  destruct (cost_so_far st !! end_) as [k|] eqn:Hk.
  - pose proof (si_bound _ _ _ _ _ st Hinv end_ k Hk) as Hb.
    rewrite length_universe in Hb by done.
    destruct (walk_back_spec W H g start end_ Hrows fuel visualize st end_ k [] out Hinv Hk)
      as (out' & tail & Hwb & Hchain & Hlen); [nia|].
    destruct (walk_back_within fuel visualize st cur end_ [] out Q out' (Done ([] ++ tail))
                Hinv Hex Hfrom Hqe (Forall_nil_2 _) Hout Hwb) as [Hout' Hq].
    rewrite Hwb. cbn [app]. exists st, tail, out'.
    split_and!; try done.
    + by apply (explored_shows _ cur).
    + apply Forall_app. split; [by apply Hq|by apply Forall_singleton].
    + by rewrite Hk.
    + right. by rewrite Hk.
  - assert (end_ ≠ start) as Hne.
    { intros Hes. by rewrite Hes, (si_start_cost _ _ _ _ _ st Hinv) in Hk. }
    assert (came_from st !! end_ = None) as Hcf.
    { destruct (came_from st !! end_) eqn:Hcf; [|done].
      destruct (si_from_dom _ _ _ _ _ st Hinv end_) as [? ?]; [eauto|congruence]. }
    destruct fuel as [|fuel]; [lia|].
    rewrite walk_back_missing by done. exists st, [], out.
    split_and!; try done.
    + by apply (explored_shows _ cur).
    + by apply Forall_singleton.
    + destruct Hend as [?|[_ [? Hsome]]]; [by left|congruence].
Qed.

End Exploration.

Section ExplorationResults.

Import heapq PathFinder.

(** X9: when the end cell cannot be reached, [astar] ends with an empty
    frontier after visiting exactly the cells that can be reached from the
    start, and its last snapshot shows them with the path [[start]]. *)
Theorem astar_explores_component (W H : nat) (g : Grid) (start end_ : Cell)
    (visualize : bool) (fuel : nat) :
  rectangular W H g -> (0 < H)%nat ->
  ¬ reachable g start end_ ->
  (astar_budget W H <= fuel)%nat ->
  exists st,
    outcome (astar fuel visualize g start end_) = Done st ∧
    frontier st = [] ∧
    (forall c, c ∈ visited st <-> reachable g start c) ∧
    last (emitted (astar fuel visualize g start end_)) = Some (visited st, [], Some [start]).
Proof.
  intros Hrect Hrows Hun Hfuel.
  destruct (astar_explored W H g start end_ Hrect Hrows fuel visualize Hfuel)
    as (st & path & out & Hout & Hem & Hinv & _ & _ & _ & Hnone & Hend).
  assert (cost_so_far st !! end_ = None) as Hk.
  { destruct (cost_so_far st !! end_) as [k|] eqn:Hk; [|done]. destruct Hun.
    destruct (si_walk _ _ _ _ _ st Hinv end_ k Hk) as (n & Hw & _). by exists n. }
  destruct Hend as [(Hnil & Hset & Hvis & Hcost & _)|[? Hsome]]; [|congruence].
  exists st. split_and!; try done.
  - intros c. split.
    + intros [k Hc]%Hvis. destruct (si_walk _ _ _ _ _ st Hinv c k Hc) as (n & Hw & _).
      by exists n.
    + intros [n Hw].
      destruct (frontier_or_cost W H g start end_ Hrows st n c Hinv Hset Hw)
        as [(k & Hc & _)|(q & c0 & Hin & _)].
      * destruct (Hcost c) as [?|[?|[q Hq]]]; [by eexists|done|done|].
        rewrite Hnil in Hq. by apply elem_of_nil in Hq.
      * rewrite Hnil in Hin. by apply elem_of_nil in Hin.
  - rewrite Hem, last_snoc, (Hnone Hk). unfold snapshot. by rewrite Hnil.
Qed.

Lemma astar_explores_component_witness :
  exists st,
    outcome (astar 20 true [[0; 1; 0]] (0, 0) (2, 0)) = Done st ∧
    frontier st = [] ∧
    (forall c, c ∈ visited st <-> reachable [[0; 1; 0]] (0, 0) c) ∧
    last (emitted (astar 20 true [[0; 1; 0]] (0, 0) (2, 0))) =
      Some (visited st, [], Some [(0, 0)]).
Proof.
  apply (astar_explores_component 3 1).
  - split; [done|]. by repeat constructor.
  - lia.
  - intros [n Hw].
    assert (forall m c, walk [[0; 1; 0]] (0, 0) m c -> c = (0, 0)) as Hstay.
    { intros m c Hm. induction Hm as [|m b c Hm IH Hadj Hopen]; [done|].
      subst b. destruct c as [x y]. unfold adjacent in Hadj. cbn [fst snd] in Hadj.
      apply cell_at_Some in Hopen as (Hx & Hy & row & Hrow & Hv).
      assert (y = 0) as -> by (apply lookup_lt_Some in Hrow; cbn in Hrow; lia).
      assert (x = 1) as -> by lia. cbn in Hrow. injection Hrow as <-. done. }
    by apply Hstay in Hw.
  - vm_compute. lia.
Defined.

(** X10: the path [astar] returns runs through expanded cells only: each of
    its cells is in the visited set of the same snapshot, the end cell
    excepted, which is never expanded. *)
Theorem astar_path_within_visited (W H : nat) (g : Grid) (start end_ : Cell)
    (visualize : bool) (fuel : nat) :
  rectangular W H g -> (0 < H)%nat ->
  (astar_budget W H <= fuel)%nat ->
  exists visited frontier p,
    last (emitted (astar fuel visualize g start end_)) = Some (visited, frontier, Some p) ∧
    forall c, c ∈ p -> c = end_ ∨ c ∈ visited.
Proof.
  intros Hrect Hrows Hfuel.
  destruct (astar_explored W H g start end_ Hrect Hrows fuel visualize Hfuel)
    as (st & path & out & Hout & Hem & Hinv & _ & _ & Hq & _).
  eexists _, _, _. split; [rewrite Hem, last_snoc; unfold snapshot; reflexivity|].
  intros c Hc. rewrite elem_of_reverse in Hc. rewrite Forall_forall in Hq. by apply (Hq c).
Qed.

Lemma astar_path_within_visited_witness :
  exists visited frontier p,
    last (emitted (astar 30 true [[0; 0]; [1; 0]] (0, 0) (1, 1))) =
      Some (visited, frontier, Some p) ∧
    forall c, c ∈ p -> c = (1, 1) ∨ c ∈ visited.
Proof.
  apply (astar_path_within_visited 2 2).
  - split; [done|]. by repeat constructor.
  - lia.
  - vm_compute. lia.
Defined.

(** X11: every snapshot [astar] yields shows cells of the maze only: each
    visited cell and each frontier cell is an open cell of the grid, or the
    start cell. *)
Theorem astar_snapshots_show_open_cells (W H : nat) (g : Grid) (start end_ : Cell)
    (visualize : bool) (fuel : nat) :
  rectangular W H g -> (0 < H)%nat ->
  (astar_budget W H <= fuel)%nat ->
  Forall (shows_open_cells g start) (emitted (astar fuel visualize g start end_)).
Proof.
  intros Hrect Hrows Hfuel.
  destruct (astar_explored W H g start end_ Hrect Hrows fuel visualize Hfuel)
    as (st & path & out & Hout & Hem & Hinv & Hshows & Hlast & _).
  rewrite Hem. apply Forall_app. split; [done|]. by apply Forall_singleton.
Qed.

Lemma astar_snapshots_show_open_cells_witness :
  Forall (shows_open_cells [[0; 0]; [1; 0]] (0, 0))
    (emitted (astar 30 true [[0; 0]; [1; 0]] (0, 0) (1, 1))).
Proof.
  apply (astar_snapshots_show_open_cells 2 2).
  - split; [done|]. by repeat constructor.
  - lia.
  - vm_compute. lia.
Defined.

End ExplorationResults.

(** ** The game: walks and restarts *)

Section Walks.

Lemma walk_open_end g a n b : walk g a n b -> is_open g a -> is_open g b.
Proof. by induction 1. Qed.

Lemma adjacent_sym (a b : Cell) : adjacent a b -> adjacent b a.
Proof. unfold adjacent. lia. Qed.

Lemma walk_prepend g a b n c :
  adjacent a b -> is_open g b -> walk g b n c -> walk g a (S n) c.
Proof.
  intros Hadj Hopen Hw. induction Hw as [|n c d Hw IH Hcd Hd].
  - by eapply walk_step; [apply walk_here| |].
  - by eapply walk_step.
Qed.

Lemma walk_sym g a n b : is_open g a -> walk g a n b -> walk g b n a.
Proof.
  intros Ha Hw. induction Hw as [|n b c Hw IH Hbc Hc]; [apply walk_here|].
  eapply walk_prepend; [by apply adjacent_sym| |done].
  by eapply walk_open_end.
Qed.

Lemma walk_trans g a n b m c : walk g a n b -> walk g b m c -> walk g a (n + m) c.
Proof.
  intros Hab Hbc. induction Hbc as [|m c d Hbc IH Hcd Hd].
  - by rewrite Nat.add_0_r.
  - rewrite Nat.add_succ_r. by eapply walk_step.
Qed.

Lemma reachable_via g o a b :
  is_open g o -> reachable g o a -> reachable g o b -> reachable g a b.
Proof.
  intros Ho [n Ha] [m Hb]. exists (n + m)%nat.
  eapply walk_trans; [|done]. by apply walk_sym.
Qed.

End Walks.

Section Restarts.

Import MazeGenerator.

(** The prologue of [generate] on a grid that was begun before: the start
    cell is open already, the old stack is left behind. *)
Lemma begin_resumed left m :
  resumed_inv left m ->
  exists m', begin m = Done m' ∧ grid m' = grid m ∧ stack m' = [(1, 1)] ∧
    width m' = width m ∧ height m' = height m ∧
    resumed_inv (left ++ stack m) m'.
Proof.
  intros Hinv. unfold resumed_inv in Hinv.
  set (sg := with_stack m (left ++ stack m)) in *.
  pose proof (inv_width sg Hinv) as Hw. pose proof (inv_height sg Hinv) as Hh.
  pose proof (inv_rect sg Hinv) as Hrect.
  cbn [sg with_stack width height grid] in Hw, Hh, Hrect.
  unfold begin.
  destruct (grid_set_cell _ _ (grid m) 1 1 0 Hrect) as (g & Hset & _ & _); [lia|lia|].
  assert (g = grid m) as ->.
  { revert Hset. unfold grid_set.
    pose proof (inv_start sg Hinv) as Hopen. unfold is_open in Hopen.
    apply cell_at_Some in Hopen as (_ & _ & row & Hrow & Hv).
    cbn [sg with_stack grid] in Hrow.
    rewrite (py_get_nonneg _ 1 row) by (done || lia). cbn [mbind res_bind].
    rewrite py_set_nonneg by (apply lookup_lt_Some in Hv; lia).
    cbn [mbind res_bind].
    rewrite py_set_nonneg by (apply lookup_lt_Some in Hrow; lia).
    intros [= <-]. change (Z.to_nat 1) with 1%nat in *.
    by rewrite (list_insert_id row), (list_insert_id (grid m)). }
  rewrite Hset. cbn [mbind res_bind]. eexists. split; [done|].
  cbn [grid stack width height]. split_and!; try done.
  unfold resumed_inv. cbn [with_stack grid stack width height directions rng].
  destruct Hinv as [? ? ? ? ? Hstack ? ? ? ? Hdone]. constructor; try done.
  - intros c [Hc|Hc%list_elem_of_singleton]%elem_of_app; [by apply Hstack|].
    subst c. done.
  - intros c d Ho Hr Hnotin. apply Hdone; try done.
    intros Hin. apply Hnotin, elem_of_app. by left.
Qed.

(** One iteration of the loop keeps the stack on [(1, 1)] and the open
    cells open. *)
Lemma step_rooted left m x y :
  resumed_inv left m ->
  last (stack m) = Some (x, y) ->
  head (stack m) = Some (1, 1) ->
  exists m' ev,
    step true m x y = Done (m', [ev]) ∧ resumed_inv left m' ∧
    width m' = width m ∧ height m' = height m ∧
    stack_rooted m' ∧
    (forall c, is_open (grid m) c -> is_open (grid m') c) ∧
    (start_closed m -> stack m = [(1, 1)] -> grid m' = grid m ∧ stack m' = []).
Proof.
  intros Hinv Hlast Hhead.
  destruct (step_cases true left m x y Hinv Hlast)
    as (m' & evs & Hstep & Hinv' & Hw & Hh & _ & Hcases).
  destruct Hcases as [(d & Hd & Hi & Hwall & Hs & Hc & ->)|(Hg & Hs & Hall & ->)].
  - eexists _, _. split; [done|]. split_and!; try done.
    + unfold stack_rooted. rewrite Hs. destruct (stack m); [done|].
      cbn in Hhead |- *. by injection Hhead.
    + intros c Ho. unfold is_open. rewrite Hc. by case_decide.
    + intros Hclosed Hst. exfalso. rewrite Hst in Hlast. injection Hlast as <- <-.
      specialize (Hclosed d Hd Hi). unfold is_open in Hclosed. unfold is_wall in Hwall.
      congruence.
  - eexists _, _. split; [done|]. split_and!; try done.
    + unfold stack_rooted, start_closed. rewrite Hs, Hg, Hw, Hh.
      destruct (stack m) as [|c [|c' s]] eqn:Hst; [done| |].
      * cbn. cbn in Hhead, Hlast. injection Hhead as ->. by injection Hlast as <- <-.
      * cbn in Hhead. injection Hhead as ->. done.
    + by rewrite Hg.
    + intros _ Hst. split; [done|]. by rewrite Hs, Hst.
Qed.

End Restarts.

(** ** The game: resuming the search *)

Section IteratorSafety.

Import heapq PathFinder.

Variables (W H : nat) (g : Grid).
Hypothesis Hrect : rectangular W H g.
Hypothesis Hrows : (0 < H)%nat.

Lemma relax_safe end_ current st d :
  grid st = g -> heap_ok (frontier st) -> frontier_recorded st ->
  is_Some (cost_so_far st !! current) ->
  exists st', relax end_ current st d = Done st' ∧ grid st' = g ∧
    heap_ok (frontier st') ∧ frontier_recorded st' ∧
    is_Some (cost_so_far st' !! current).
Proof.
  intros Hg Hheap Hrec Hcur.
  destruct (relax_index_error end_ current st d Hheap Hrec Hcur)
    as [(st' & Hrelax & Hheap' & Hrec' & Hcur')|Hraise].
  - exists st'. split_and!; try done.
    destruct (relax_frame _ _ _ _ _ Hrelax) as [-> _]. done.
  - exfalso. destruct Hcur as [k Hk].
    destruct (relax_cases W H g end_ Hrect Hrows st current d k Hg Hheap Hk)
      as [[Hsame _]|(frontier' & _ & Hupd & _)]; congruence.
Qed.

Lemma expand_safe end_ current ds st :
  grid st = g -> heap_ok (frontier st) -> frontier_recorded st ->
  is_Some (cost_so_far st !! current) ->
  exists st', expand end_ current st ds = Done st' ∧ grid st' = g ∧
    heap_ok (frontier st') ∧ frontier_recorded st'.
Proof.
  revert st. induction ds as [|d ds IH]; intros st Hg Hheap Hrec Hcur.
  { exists st. by eauto. }
  cbn [expand].
  destruct (relax_safe end_ current st d Hg Hheap Hrec Hcur)
    as (st1 & -> & Hg1 & Hheap1 & Hrec1 & Hcur1).
  cbn [mbind res_bind]. by apply IH.
Qed.

Lemma walk_head_safe start st c path : iter_safe (walk_head start st c path).1.
Proof.
  unfold walk_head. case_decide; [done|]. by destruct (dict_get_cell _ _).
Qed.

Lemma search_head_safe start end_ st :
  grid st = g -> heap_ok (frontier st) -> frontier_recorded st ->
  exists it snap, search_head start end_ st = Done (it, snap) ∧ iter_safe it.
Proof.
  intros Hg Hheap Hrec. unfold search_head.
  destruct (frontier st) as [|e0 f] eqn:Hf.
  { destruct (walk_head start st end_ []) as [it snap] eqn:Hwh.
    exists it, snap. split; [done|].
    pose proof (walk_head_safe start st end_ []) as Hs. by rewrite Hwh in Hs. }
  rewrite <- Hf in *.
  destruct (heappop_spec (frontier st) Hheap) as ([p current] & rest & -> & Hrest & Hperm & _).
  { by rewrite Hf. }
  cbn [mbind res_bind fst snd]. case_decide.
  { destruct (walk_head start (set_frontier st rest) end_ []) as [it snap] eqn:Hwh.
    exists it, snap. split; [done|].
    pose proof (walk_head_safe start (set_frontier st rest) end_ []) as Hs.
    by rewrite Hwh in Hs. }
  destruct (expand_safe end_ current neighbor_offsets (set_frontier st rest))
    as (st2 & -> & Hg2 & Hheap2 & Hrec2); cbn [set_frontier grid frontier cost_so_far]; try done.
  - intros q c Hin. apply (Hrec q c). rewrite Hperm. by right.
  - apply (Hrec p current). rewrite Hperm. by left.
  - cbn [mbind res_bind]. eexists _, _. split; [done|]. split; done.
Qed.

(** Resuming a safe iterator over a rectangular grid yields or stops,
    and leaves a safe iterator. *)
Lemma next_safe start end_ it :
  iter_safe it ->
  exists it' o, next g start end_ it = Done (it', o) ∧ iter_safe it'.
Proof.
  intros Hsafe. destruct it as [|st|st c path|]; cbn [next].
  - rewrite initial_eq. cbn [mbind res_bind].
    destruct (search_head_safe start end_
                (mkState g [(0, start)] {[start := None]} {[start := 0]} ∅))
      as (it' & snap & -> & Hs); cbn [grid frontier cost_so_far]; try done.
    + apply (heap_ok_singleton H Hrows).
    + intros p c [= _ ->]%list_elem_of_singleton. cbn [cost_so_far].
      by rewrite lookup_singleton_eq.
    + cbn [mbind res_bind fst snd]. by eauto.
  - destruct Hsafe as [Hheap Hrec].
    destruct (search_head_safe start end_ (with_grid st g)) as (it' & snap & -> & Hs);
      try done.
    cbn [mbind res_bind fst snd]. by eauto.
  - eexists _, _. split; [done|]. apply walk_head_safe.
  - by eauto.
Qed.

End IteratorSafety.

(** ** The game: one frame *)

Section Session.

Import GameState.

Ltac fields :=
  cbn [maze start end_ path visited frontier generating solving animation_speed
       gen_iterator astar_iterator set_start set_end regenerate_maze start_solving] in *.

Lemma fresh_closed w h (c : Cell) : ¬ is_open (MazeGenerator.fresh_grid w h) c.
Proof. unfold is_open. rewrite cell_at_fresh. by case_decide. Qed.

Lemma session_rect st :
  session_inv st ->
  rectangular (Z.to_nat GRID_WIDTH) (Z.to_nat GRID_HEIGHT) (MazeGenerator.grid (maze st)).
Proof.
  intros [Hw Hh [[[r Hm] _]|(old & Hres & _)] _ _ _ _ _].
  - rewrite Hm. apply rectangular_fresh.
  - rewrite <- Hw, <- Hh. apply (inv_rect _ Hres).
Qed.

Lemma session_border st c :
  session_inv st -> on_border GRID_WIDTH GRID_HEIGHT c ->
  is_wall (MazeGenerator.grid (maze st)) c.
Proof.
  intros [Hw Hh [[[r Hm] _]|(old & Hres & _)] _ _ _ _ _] Hb.
  - rewrite Hm. unfold is_wall. cbn [MazeGenerator.init MazeGenerator.grid].
    rewrite cell_at_fresh. unfold on_border in Hb. case_decide; [done|lia].
  - rewrite <- Hw, <- Hh in Hb. apply (maze_inv_border _ _ Hres Hb).
Qed.

Lemma session_connected st a b :
  session_inv st ->
  is_open (MazeGenerator.grid (maze st)) a -> is_open (MazeGenerator.grid (maze st)) b ->
  reachable (MazeGenerator.grid (maze st)) a b.
Proof.
  intros [Hw Hh [[[r Hm] _]|(old & Hres & _)] _ _ _ _ _] Ha Hb.
  - rewrite Hm in Ha. by apply fresh_closed in Ha.
  - apply (reachable_via _ (1, 1)).
    + apply (inv_start _ Hres).
    + by apply (inv_conn _ Hres).
    + by apply (inv_conn _ Hres).
Qed.

(** [handle_mouse_click] for a click inside the window. *)
Lemma click_safe st pos button :
  session_inv st -> click_in_window (MOUSEBUTTONDOWN pos button) ->
  exists st', handle_mouse_click st pos button = Done st' ∧ session_inv st' ∧
    maze st' = maze st ∧ gen_iterator st' = gen_iterator st ∧
    generating st' = generating st.
Proof.
  intros Hinv [Hx Hy]. pose proof (session_rect st Hinv) as Hrect.
  unfold WINDOW_WIDTH, WINDOW_HEIGHT, GRID_WIDTH, GRID_HEIGHT, CELL_SIZE in *.
  destruct (rectangular_cell _ _ _ (pos.1 / 8) (pos.2 / 8) Hrect) as [v Hv]; [lia|lia|].
  unfold handle_mouse_click, CELL_SIZE.
  rewrite (grid_get_cell _ _ _ _ Hv). cbn [mbind res_bind].
  assert ((v =? 0) = true -> is_open (MazeGenerator.grid (maze st)) (pos.1 / 8, pos.2 / 8))
    as Hopen.
  { intros ->%Z.eqb_eq. done. }
  destruct Hinv as [Hw Hh Hmaze Hgen Hstart Hend Hsolv Hiter].
  destruct (button =? 1); [|destruct (button =? 3)]; destruct (v =? 0);
    eexists; (split; [done|]); split_and!; try done; constructor; fields; try done.
  - intros c [= <-]. by apply Hopen.
  - intros c [= <-]. by apply Hopen.
Qed.

Lemma key_safe st key :
  session_inv st ->
  session_inv (handle_key_press st key) ∧
  maze (handle_key_press st key) = maze st ∧
  (maze_finished st -> maze_finished (handle_key_press st key)).
Proof.
  intros Hinv. pose proof Hinv as [Hw Hh Hmaze Hgen Hstart Hend Hsolv Hiter].
  destruct key; cbn [handle_key_press].
  - split_and!; [|done|].
    + constructor; fields; try done.
      destruct Hmaze as [([r Hm] & _ & _)|(old & Hres & _ & _)].
      * left. unfold maze_pending. fields. by eauto.
      * right. exists old. by fields.
    + intros [Hc _]. split; by fields.
  - destruct (start st) as [s|] eqn:Hs; [|done].
    destruct (end_ st) as [e|] eqn:He; [|done].
    split_and!; [|done|].
    + constructor; fields; try done.
      * intros c Hc. apply Hstart. congruence.
      * intros c Hc. apply Hend. congruence.
      * by intros ? ? ? [= <- <- <-].
    + intros [Hc Hst]. split; by fields.
  - done.
Qed.

Lemma handle_events_safe st events :
  session_inv st -> Forall click_in_window events ->
  exists st' running, handle_events st events = Done (st', running) ∧ session_inv st' ∧
    maze st' = maze st ∧ (maze_finished st -> maze_finished st').
Proof.
  intros Hinv Hev. revert st Hinv.
  induction Hev as [|ev events Hclick Hev IH]; intros st Hinv.
  { exists st, true. by eauto. }
  destruct ev as [|pos button|key|]; cbn [handle_events].
  - exists st, false. by eauto.
  - destruct (click_safe st pos button Hinv Hclick) as (st1 & -> & Hinv1 & Hm1 & Hg1 & _).
    cbn [mbind res_bind].
    destruct (IH st1 Hinv1) as (st' & running & Hrun & Hinv' & Hm' & Hfin').
    exists st', running. split_and!; try done; [congruence|].
    intros Hfin. apply Hfin'. unfold maze_finished in *. by rewrite Hm1, Hg1.
  - destruct (key_safe st key Hinv) as (Hinv1 & Hm1 & Hfin1).
    destruct (IH _ Hinv1) as (st' & running & Hrun & Hinv' & Hm' & Hfin').
    exists st', running. split_and!; try done; [congruence|]. by eauto.
  - by apply IH.
Qed.

(** [next(self.gen_iterator)] in a session. *)
Lemma next_session st started :
  session_inv st -> gen_iterator st = Some started ->
  exists m' o,
    MazeGenerator.next started (maze st) = Done (m', o) ∧
    MazeGenerator.width m' = GRID_WIDTH ∧ MazeGenerator.height m' = GRID_HEIGHT ∧
    (forall c, is_open (MazeGenerator.grid (maze st)) c -> is_open (MazeGenerator.grid m') c) ∧
    (exists old, resumed_inv old m' ∧ stack_rooted m') ∧
    (o = None -> MazeGenerator.stack m' = []) ∧
    (maze_finished st ->
       MazeGenerator.grid m' = MazeGenerator.grid (maze st) ∧ MazeGenerator.stack m' = []).
Proof.
  intros Hinv Hit. pose proof Hinv as [Hw Hh Hmaze _ _ _ _ _].
  unfold MazeGenerator.next. destruct started.
  - destruct Hmaze as [(_ & Hp & _)|(old & Hres & Hroot & Hfin)]; [congruence|].
    specialize (Hroot Hit). cbn [mbind res_bind].
    destruct (last (MazeGenerator.stack (maze st))) as [[x y]|] eqn:Hlast.
    + assert (head (MazeGenerator.stack (maze st)) = Some (1, 1)) as Hhead.
      { unfold stack_rooted in Hroot.
        destruct (MazeGenerator.stack (maze st)); [done|]. by rewrite Hroot. }
      destruct (step_rooted old (maze st) x y Hres Hlast Hhead)
        as (m' & ev & -> & Hres' & Hw' & Hh' & Hroot' & Hmono & Hclosed).
      cbn [mbind res_bind fst snd head]. eexists _, _. split; [done|].
      split_and!; try congruence; try done; [by eauto|].
      intros [Hc Hst]. specialize (Hst Hit). by rewrite Hst in Hlast.
    + apply last_None in Hlast. eexists _, _. split; [done|].
      split_and!; try done. by eauto.
  - assert (exists old m1, MazeGenerator.begin (maze st) = Done m1 ∧
              resumed_inv old m1 ∧ MazeGenerator.stack m1 = [(1, 1)] ∧
              MazeGenerator.width m1 = GRID_WIDTH ∧ MazeGenerator.height m1 = GRID_HEIGHT ∧
              (forall c, is_open (MazeGenerator.grid (maze st)) c ->
                 is_open (MazeGenerator.grid m1) c) ∧
              (maze_finished st -> MazeGenerator.grid m1 = MazeGenerator.grid (maze st)))
      as (old & m1 & Hbegin & Hres1 & Hst1 & Hw1 & Hh1 & Hmono1 & Hfin1).
    { destruct Hmaze as [([r Hm] & _ & _)|(old & Hres & _ & _)].
      - rewrite Hm.
        destruct (begin_inv GRID_WIDTH GRID_HEIGHT r) as (m1 & Hb & Hinv1 & Hw1 & Hh1 & _);
          [done|done|].
        exists [], m1. split_and!; try done.
        + by apply maze_inv_resumed.
        + revert Hb. unfold MazeGenerator.begin.
          destruct (grid_set _ _ _ _); try done. cbn [mbind res_bind]. by intros [= <-].
        + intros c Hc. by apply fresh_closed in Hc.
        + intros [Hc _]. exfalso. rewrite Hm in Hc.
          apply (fresh_closed GRID_WIDTH GRID_HEIGHT (3, 1)).
          apply (Hc (2, 0)); [by apply initial_directions_cases; right; left|].
          unfold interior. cbn. unfold GRID_WIDTH, GRID_HEIGHT. lia.
      - destruct (begin_resumed old (maze st) Hres)
          as (m1 & Hb & Hg1 & Hst1 & Hw1 & Hh1 & Hres1).
        exists (old ++ MazeGenerator.stack (maze st)), m1.
        split_and!; try done; try congruence. }
    rewrite Hbegin. cbn [mbind res_bind]. rewrite Hst1. cbn [last].
    destruct (step_rooted old m1 1 1 Hres1)
      as (m' & ev & -> & Hres' & Hw' & Hh' & Hroot' & Hmono & Hclosed);
      [by rewrite Hst1|by rewrite Hst1|].
    cbn [mbind res_bind fst snd head]. eexists _, _. split; [done|].
    split_and!; try congruence; try done; [by eauto|by eauto|].
    intros Hfin. pose proof (Hfin1 Hfin) as Hg1.
    destruct Hclosed as [Hg' Hs']; [|done|split; congruence].
    destruct Hfin as [Hc _]. unfold start_closed in *.
    rewrite Hg1, Hw1, Hh1, <- Hw, <- Hh. done.
Qed.

Lemma update_generating_safe st :
  session_inv st ->
  exists st', update_generating st = Ok st' ∧ session_inv st' ∧
    (maze_finished st ->
       maze_finished st' ∧
       MazeGenerator.grid (maze st') = MazeGenerator.grid (maze st)).
Proof.
  intros Hinv. unfold update_generating.
  destruct (generating st) eqn:Hgen; [|exists st; by eauto].
  destruct (gs_gen st Hinv Hgen) as [started Hit]. rewrite Hit.
  destruct (next_session st started Hinv Hit)
    as (m' & o & -> & Hw' & Hh' & Hmono & (old & Hres & Hroot) & Hnone & Hfin).
  destruct Hinv as [Hw Hh Hmaze _ Hstart Hend Hsolv Hiter].
  destruct o as [ev|]; eexists; (split; [done|]); split.
  - constructor; fields; try done; try by eauto.
    right. exists old. by fields.
  - intros Hf. destruct (Hfin Hf) as [Hg Hs]. split; [|by fields].
    destruct Hf as [Hc _]. split; fields; [|done].
    unfold start_closed in *. by rewrite Hg, Hw', Hh', <- Hw, <- Hh.
  - constructor; fields; try done; try by eauto.
    right. exists old. fields. split_and!; try done. by eauto.
  - intros Hf. destruct (Hfin Hf) as [Hg Hs]. split; [|by fields].
    destruct Hf as [Hc _]. split; fields; [|done].
    unfold start_closed in *. by rewrite Hg, Hw', Hh', <- Hw, <- Hh.
Qed.

Lemma update_solving_safe st :
  session_inv st ->
  exists st', update_solving st = Ok st' ∧ session_inv st' ∧
    maze st' = maze st ∧ gen_iterator st' = gen_iterator st ∧
    generating st' = generating st.
Proof.
  intros Hinv. unfold update_solving.
  destruct (solving st) eqn:Hsol; [|exists st; by eauto].
  destruct (gs_solving st Hinv Hsol) as [[[s e] it] Hit]. rewrite Hit.
  destruct (next_safe _ _ _ (session_rect st Hinv) ltac:(unfold GRID_HEIGHT; lia)
              s e it (gs_iter st Hinv s e it Hit)) as (it' & o & -> & Hsafe).
  destruct Hinv as [Hw Hh Hmaze Hgen Hstart Hend _ Hiter].
  destruct o as [[[v f] p]|]; eexists; (split; [done|]); split_and!; try done;
    constructor; fields; try done; try by eauto.
  - by intros ? ? ? [= <- <- <-].
  - by intros ? ? ? [= <- <- <-].
Qed.

Lemma update_safe st :
  session_inv st ->
  exists st', update st = Ok st' ∧ session_inv st' ∧
    (maze_finished st ->
       maze_finished st' ∧
       MazeGenerator.grid (maze st') = MazeGenerator.grid (maze st)).
Proof.
  intros Hinv. unfold update.
  destruct (update_generating_safe st Hinv) as (st1 & -> & Hinv1 & Hfin1).
  destruct (update_solving_safe st1 Hinv1) as (st2 & -> & Hinv2 & Hm2 & Hg2 & _).
  exists st2. split_and!; try done.
  intros Hf. destruct (Hfin1 Hf) as [Hf1 Hgr1]. unfold maze_finished in *.
  by rewrite Hm2, Hg2.
Qed.

Lemma frame_safe st events :
  session_inv st -> Forall click_in_window events ->
  exists st' running, frame st events = Ok (st', running) ∧ session_inv st' ∧
    (maze_finished st ->
       maze_finished st' ∧
       MazeGenerator.grid (maze st') = MazeGenerator.grid (maze st)).
Proof.
  intros Hinv Hev. unfold frame.
  destruct (handle_events_safe st events Hinv Hev) as (st1 & running & -> & Hinv1 & Hm1 & Hfin1).
  destruct (update_safe st1 Hinv1) as (st2 & -> & Hinv2 & Hfin2).
  exists st2, running. split_and!; try done.
  intros Hf. destruct (Hfin2 (Hfin1 Hf)) as [Hf2 Hg2]. split; [done|]. by rewrite Hg2, Hm1.
Qed.

Lemma main_loop_safe st frames :
  session_inv st -> clicks_in_window frames ->
  exists st', main_loop st frames = Ok st' ∧ session_inv st' ∧
    (maze_finished st ->
       maze_finished st' ∧
       MazeGenerator.grid (maze st') = MazeGenerator.grid (maze st)).
Proof.
  intros Hinv Hfr. revert st Hinv.
  induction Hfr as [|events frames Hev Hfr IH]; intros st Hinv.
  { exists st. by eauto. }
  cbn [main_loop].
  destruct (frame_safe st events Hinv Hev) as (st1 & running & -> & Hinv1 & Hfin1).
  destruct running; [|exists st1; by eauto].
  destruct (IH st1 Hinv1) as (st' & Hloop & Hinv' & Hfin').
  exists st'. split_and!; try done.
  intros Hf. destruct (Hfin1 Hf) as [Hf1 Hg1]. destruct (Hfin' Hf1) as [Hf' Hg'].
  split; [done|]. by rewrite Hg', Hg1.
Qed.

Lemma session_begins r : session_inv (regenerate_maze (new r)).
Proof.
  constructor; fields; cbn [new]; fields; try done.
  all: first [left; unfold maze_pending; fields; by eauto|by eauto].
Qed.

End Session.

(** ** The game: every session *)

Section SessionResults.

Import GameState.

(** X12: the game loop never raises: whatever keys are pressed and wherever
    inside the window the mouse is clicked, in whatever order and at
    whatever moment of the generation or of the search, every frame is
    handled and updated without an exception. *)
Theorem game_never_raises (r : MazeGenerator.Rng) (frames : list (list Event)) :
  clicks_in_window frames -> exists st, main r frames = Ok st.
Proof.
  intros Hfr. unfold main.
  destruct (main_loop_safe _ frames (session_begins r) Hfr) as (st & Hloop & _).
  by exists st.
Qed.

Lemma game_never_raises_witness :
  exists st,
    main (MazeGenerator.mkRng (fun i => i) 0)
      [[]; [MOUSEBUTTONDOWN (12, 12) 1; KEYDOWN K_SPACE];
       [MOUSEBUTTONDOWN (12, 12) 1; MOUSEBUTTONDOWN (28, 12) 3; KEYDOWN K_RETURN];
       [KEYDOWN K_SPACE; OTHER]; [QUIT]] = Ok st.
Proof.
  apply game_never_raises. unfold clicks_in_window.
  repeat (apply Forall_cons; split); try apply Forall_nil_2; try done.
Defined.

(** X13: what the game holds at every frame, whatever keys are pressed and
    wherever inside the window the mouse is clicked: the outer border of
    the grid is wall, the start and the end cell are open cells whenever
    they are set, and the end cell can be reached from the start cell
    through open cells. *)
Theorem game_keeps_maze_sound (r : MazeGenerator.Rng) (frames : list (list Event)) :
  clicks_in_window frames ->
  exists st,
    main r frames = Ok st ∧
    (forall c, on_border GRID_WIDTH GRID_HEIGHT c ->
       is_wall (MazeGenerator.grid (maze st)) c) ∧
    (forall c, start st = Some c -> is_open (MazeGenerator.grid (maze st)) c) ∧
    (forall c, end_ st = Some c -> is_open (MazeGenerator.grid (maze st)) c) ∧
    (forall s e, start st = Some s -> end_ st = Some e ->
       reachable (MazeGenerator.grid (maze st)) s e).
Proof.
  intros Hfr. unfold main.
  destruct (main_loop_safe _ frames (session_begins r) Hfr) as (st & Hloop & Hinv & _).
  exists st. split_and!; [done| | | |].
  - intros c. by apply session_border.
  - apply (gs_start st Hinv).
  - apply (gs_end st Hinv).
  - intros s e Hs He. apply session_connected; [done| |].
    + by apply (gs_start st Hinv).
    + by apply (gs_end st Hinv).
Qed.

Lemma game_keeps_maze_sound_witness :
  exists st,
    main (MazeGenerator.mkRng (fun i => i) 0)
      [[]; [KEYDOWN K_SPACE]; [MOUSEBUTTONDOWN (12, 12) 1; MOUSEBUTTONDOWN (28, 12) 3];
       [KEYDOWN K_RETURN]; []] = Ok st ∧
    (forall c, on_border GRID_WIDTH GRID_HEIGHT c ->
       is_wall (MazeGenerator.grid (maze st)) c) ∧
    (forall c, start st = Some c -> is_open (MazeGenerator.grid (maze st)) c) ∧
    (forall c, end_ st = Some c -> is_open (MazeGenerator.grid (maze st)) c) ∧
    (forall s e, start st = Some s -> end_ st = Some e ->
       reachable (MazeGenerator.grid (maze st)) s e).
Proof.
  apply game_keeps_maze_sound. unfold clicks_in_window.
  repeat (apply Forall_cons; split); try apply Forall_nil_2; try done.
Defined.

Lemma session_finished st :
  session_inv st -> generating st = false -> maze_finished st.
Proof.
  intros [_ _ [(_ & _ & Hg)|(old & Hres & Hroot & Hfin)] _ _ _ _ _] Hgen; [congruence|].
  destruct (Hfin Hgen) as [Hit Hst]. specialize (Hroot Hit).
  unfold stack_rooted in Hroot. rewrite Hst in Hroot. by split.
Qed.

(** X14: once a run of the generator has ended, the maze is final: the
    space key restarts the animation, but no later frame changes a cell of
    the grid, whatever keys are pressed and wherever inside the window the
    mouse is clicked, before and after. *)
Theorem finished_maze_never_changes (r : MazeGenerator.Rng)
    (before after : list (list Event)) :
  clicks_in_window before -> clicks_in_window after ->
  exists st1 st2,
    main r before = Ok st1 ∧ main_loop st1 after = Ok st2 ∧
    (generating st1 = false ->
     MazeGenerator.grid (maze st2) = MazeGenerator.grid (maze st1)).
Proof.
  intros Hb Ha. unfold main.
  destruct (main_loop_safe _ before (session_begins r) Hb) as (st1 & Hloop1 & Hinv1 & _).
  destruct (main_loop_safe st1 after Hinv1 Ha) as (st2 & Hloop2 & Hinv2 & Hfin).
  exists st1, st2. split_and!; try done.
  intros Hgen. by apply Hfin, session_finished.
Qed.

Lemma finished_maze_never_changes_witness :
  exists st1 st2,
    main (MazeGenerator.mkRng (fun i => i) 0) (replicate (101 * 101 + 1) []) = Ok st1 ∧
    main_loop st1 [[KEYDOWN K_SPACE]; []; [MOUSEBUTTONDOWN (12, 12) 1]] = Ok st2 ∧
    (generating st1 = false ->
     MazeGenerator.grid (maze st2) = MazeGenerator.grid (maze st1)).
Proof.
  apply finished_maze_never_changes; unfold clicks_in_window.
  - apply Forall_replicate, Forall_nil_2.
  - repeat (apply Forall_cons; split); try apply Forall_nil_2; try done.
Defined.

End SessionResults.

(** ** The game: frames without events *)

Section Iterators.

Import heapq PathFinder.

Variables (g : Grid) (start end_ : Cell).

Lemma with_grid_same st : grid st = g -> with_grid st g = st.
Proof. intros <-. by destruct st. Qed.

Lemma drain_finished n : drain (S n) g start end_ Finished = Done ([], Finished).
Proof. done. Qed.

Lemma drain_walking n st c path :
  grid st = g ->
  drain (S n) g start end_ (Walking st c path) =
  (r' ← drain n g start end_ (walk_head start st c path).1;
   Done ((walk_head start st c path).2 :: r'.1, r'.2)).
Proof. intros Hg. cbn [drain next]. by rewrite with_grid_same. Qed.

Lemma drain_searching n st it snap :
  grid st = g -> search_head start end_ st = Done (it, snap) ->
  drain (S n) g start end_ (Searching st) =
  (r' ← drain n g start end_ it; Done (snap :: r'.1, r'.2)).
Proof. intros Hg Hs. cbn [drain next]. by rewrite with_grid_same, Hs. Qed.

Lemma drain_fresh n it snap :
  search_head start end_ (mkState g [(0, start)] {[start := None]} {[start := 0]} ∅) =
    Done (it, snap) ->
  drain (S n) g start end_ Fresh =
  (r' ← drain n g start end_ it; Done (snap :: r'.1, r'.2)).
Proof. intros Hs. cbn [drain next]. rewrite initial_eq. cbn [mbind res_bind]. by rewrite Hs. Qed.

(** The reconstruction, one [next] at a time. *)
Lemma walk_drain fuel st c path out out' path' :
  grid st = g ->
  walk_back fuel true start st c path out = (out', Done path') ->
  exists delta tl,
    out' = out ++ delta ∧
    drain (S (length tl)) g start end_ (walk_head start st c path).1 = Done (tl, Finished) ∧
    (walk_head start st c path).2 :: tl =
      delta ++ [snapshot st (Some (reverse (path' ++ [start])))].
Proof.
  intros Hg. revert c path out. induction fuel as [|fuel IH]; intros c path out Hwb; [done|].
  cbn [walk_back] in Hwb. unfold walk_head. case_decide as Hcs.
  { injection Hwb as <- <-. exists [], []. by rewrite app_nil_r. }
  cbv zeta in Hwb |- *.
  destruct (dict_get_cell (came_from st) c) as [prev|] eqn:Hprev.
  - destruct (IH prev (path ++ [c]) _ Hwb) as (delta & tl & -> & Hdrain & Heq).
    exists (snapshot st (Some (path ++ [c])) :: delta),
           ((walk_head start st prev (path ++ [c])).2 :: tl).
    cbn [fst snd]. split_and!.
    + by rewrite <- app_assoc.
    + rewrite drain_walking by done. cbn [length]. rewrite Hdrain. done.
    + cbn [app]. by rewrite Heq.
  - injection Hwb as <- <-. exists [], []. by rewrite app_nil_r.
Qed.

(** The search followed by the reconstruction, one [next] at a time. *)
Lemma search_drain fuel fuel2 st out out1 st' out2 path' :
  grid st = g ->
  search fuel true end_ st out = (out1, Done st') ->
  walk_back fuel2 true start st' end_ [] out1 = (out2, Done path') ->
  exists it snap tl,
    search_head start end_ st = Done (it, snap) ∧
    drain (S (length tl)) g start end_ it = Done (tl, Finished) ∧
    out ++ snap :: tl = out2 ++ [snapshot st' (Some (reverse (path' ++ [start])))].
Proof.
  revert st out. induction fuel as [|fuel IH]; intros st out Hg Hsearch Hwb; [done|].
  cbn [search] in Hsearch. unfold search_head.
  destruct (frontier st) as [|e0 f] eqn:Hf.
  { injection Hsearch as <- <-.
    destruct (walk_drain fuel2 st end_ [] out out2 path' Hg Hwb) as (delta & tl & -> & Hd & Heq).
    destruct (walk_head start st end_ []) as [it snap]. cbn [fst snd] in *.
    exists it, snap, tl. split_and!; try done. by rewrite Heq, app_assoc. }
  rewrite <- Hf in *. clear Hf e0 f.
  destruct (heappop (frontier st)) as [[[p current] rest]| |]; try done.
  cbn [mbind res_bind fst snd]. case_decide as Hend.
  { injection Hsearch as <- <-.
    destruct (walk_drain fuel2 (set_frontier st rest) end_ [] out out2 path' Hg Hwb)
      as (delta & tl & -> & Hd & Heq).
    destruct (walk_head start (set_frontier st rest) end_ []) as [it snap].
    cbn [fst snd] in *.
    exists it, snap, tl. split_and!; try done. by rewrite Heq, app_assoc. }
  destruct (expand end_ current (set_frontier st rest) neighbor_offsets) as [st2| |] eqn:Hexp;
    try done.
  cbn [mbind res_bind].
  assert (grid (add_visited st2 current) = g) as Hg3.
  { destruct (expand_frame _ _ _ _ _ Hexp) as [Hg2 _]. cbn [add_visited grid].
    by rewrite Hg2. }
  destruct (IH (add_visited st2 current) _ Hg3 Hsearch Hwb) as (it3 & snap3 & tl3 & Hsh & Hd & Heq).
  exists (Searching (add_visited st2 current)), (snapshot (add_visited st2 current) None),
         (snap3 :: tl3).
  split_and!; [done| |].
  - rewrite (drain_searching _ _ it3 snap3) by done. cbn [length]. by rewrite Hd.
  - rewrite <- Heq, <- app_assoc. done.
Qed.

(** A completed run of [astar], one [next] at a time: the iterator yields
    the snapshots of the run and stops. *)
Lemma astar_drain fuel st :
  outcome (astar fuel true g start end_) = Done st ->
  drain (S (length (emitted (astar fuel true g start end_)))) g start end_ Fresh =
  Done (emitted (astar fuel true g start end_), Finished).
Proof.
  unfold astar. rewrite initial_eq.
  destruct (search fuel true end_ _ []) as [out1 [st'| |]] eqn:Hsearch; try done.
  destruct (walk_back fuel true start st' end_ [] out1) as [out2 [path'| |]] eqn:Hwb; try done.
  cbn [outcome emitted]. intros _.
  destruct (search_drain fuel fuel (mkState g [(0, start)] {[start := None]} {[start := 0]} ∅)
              [] out1 st' out2 path' eq_refl Hsearch Hwb)
    as (it & snap & tl & Hsh & Hd & Heq).
  cbn [app] in Heq. rewrite <- Heq. cbn [length].
  rewrite (drain_fresh _ it snap) by done. by rewrite Hd.
Qed.

End Iterators.

Section QuietSession.

Import GameState.

Ltac fields :=
  cbn [maze start end_ path visited frontier generating solving animation_speed
       gen_iterator astar_iterator set_start set_end regenerate_maze start_solving
       with_maze] in *.

Lemma frame_nil st :
  frame st [] = match update st with Ok st' => Ok (st', true) | Fail f => Fail f end.
Proof. done. Qed.

(** With nothing to generate and nothing to solve a frame without events
    changes nothing. *)
Lemma idle st n :
  generating st = false -> solving st = false -> main_loop st (replicate n []) = Ok st.
Proof.
  intros Hg Hs. induction n as [|n IH]; [done|].
  cbn [replicate main_loop]. rewrite frame_nil.
  unfold update, update_generating, update_solving. by rewrite Hg, Hs.
Qed.

Lemma step_true_event m x y m1 evs1 :
  MazeGenerator.step true m x y = Done (m1, evs1) -> exists ev, evs1 = [ev].
Proof.
  unfold MazeGenerator.step.
  destruct (MazeGenerator.shuffle _ _) as [dirs r].
  destruct (MazeGenerator.try_carve _ _ _ _ _ _) as [[[g' n]|]| |]; try done;
    cbn [mbind res_bind]; intros [= <- <-]; by eexists.
Qed.

Lemma update_generating_step st x y m1 ev :
  generating st = true -> gen_iterator st = Some true ->
  last (MazeGenerator.stack (maze st)) = Some (x, y) ->
  MazeGenerator.step true (maze st) x y = Done (m1, [ev]) ->
  update_generating st = Ok (with_maze st m1 true).
Proof.
  intros Hgen Hit Hlast Hstep. unfold update_generating, MazeGenerator.next.
  rewrite Hgen, Hit. cbn [mbind res_bind]. rewrite Hlast, Hstep. done.
Qed.

Lemma update_generating_stop st :
  generating st = true -> gen_iterator st = Some true ->
  last (MazeGenerator.stack (maze st)) = None ->
  update_generating st = Ok (with_maze st (maze st) false).
Proof.
  intros Hgen Hit Hlast. unfold update_generating, MazeGenerator.next.
  rewrite Hgen, Hit. cbn [mbind res_bind]. by rewrite Hlast.
Qed.

Lemma update_generating_first st m0 m1 ev :
  generating st = true -> gen_iterator st = Some false ->
  MazeGenerator.begin (maze st) = Done m0 -> MazeGenerator.stack m0 = [(1, 1)] ->
  MazeGenerator.step true m0 1 1 = Done (m1, [ev]) ->
  update_generating st = Ok (with_maze st m1 true).
Proof.
  intros Hgen Hit Hbegin Hst Hstep. unfold update_generating, MazeGenerator.next.
  rewrite Hgen, Hit, Hbegin. cbn [mbind res_bind]. rewrite Hst. cbn [last].
  by rewrite Hstep.
Qed.

Lemma update_solving_off st : solving st = false -> update_solving st = Ok st.
Proof. intros Hs. unfold update_solving. by rewrite Hs. Qed.

(** The loop of [generate], one frame for each turn and one more for the
    [StopIteration]. *)
Lemma loop_frames fuel m0 evs0 m evs st :
  MazeGenerator.loop fuel true m0 evs0 = Done (m, evs) ->
  maze st = m0 -> generating st = true -> gen_iterator st = Some true ->
  solving st = false ->
  exists delta, evs = evs0 ++ delta ∧
    forall n, (length delta < n)%nat ->
      main_loop st (replicate n []) = Ok (with_maze st m false).
Proof.
  revert m0 evs0 st. induction fuel as [|fuel IH]; intros m0 evs0 st Hloop Hm Hgen Hit Hsol;
    [done|].
  cbn [MazeGenerator.loop] in Hloop.
  destruct (last (MazeGenerator.stack m0)) as [[x y]|] eqn:Hlast.
  - destruct (MazeGenerator.step true m0 x y) as [[m1 evs1]| |] eqn:Hstep; try done.
    cbn [mbind res_bind fst snd] in Hloop.
    destruct (step_true_event _ _ _ _ _ Hstep) as [ev ->].
    destruct (IH m1 (evs0 ++ [ev]) (with_maze st m1 true) Hloop) as (delta & -> & Hframes);
      try done.
    exists (ev :: delta). split; [by rewrite <- app_assoc|].
    intros [|n] Hn; cbn [length] in Hn; [lia|].
    cbn [replicate main_loop]. rewrite frame_nil. unfold update.
    rewrite (update_generating_step st x y m1 ev), update_solving_off by (done || by rewrite Hm).
    apply (Hframes n). lia.
  - injection Hloop as <- <-. exists []. split; [by rewrite app_nil_r|].
    intros [|n] Hn; cbn [length] in Hn; [lia|].
    cbn [replicate main_loop]. rewrite frame_nil. unfold update.
    rewrite update_generating_stop, update_solving_off by (done || by rewrite Hm).
    rewrite Hm. apply idle; done.
Qed.

(** The game left alone from its start: the maze of [generate] appears,
    one yielded value a frame. *)
Lemma quiet_generation r fuel :
  (Z.to_nat GRID_WIDTH * Z.to_nat GRID_HEIGHT < fuel)%nat ->
  exists m evs,
    MazeGenerator.generate fuel true GRID_WIDTH GRID_HEIGHT r = Done (m, evs) ∧
    maze_inv m ∧ MazeGenerator.stack m = [] ∧
    MazeGenerator.width m = GRID_WIDTH ∧ MazeGenerator.height m = GRID_HEIGHT ∧
    (length evs <= Z.to_nat GRID_WIDTH * Z.to_nat GRID_HEIGHT)%nat ∧
    forall n, (length evs < n)%nat ->
      main r (replicate n []) = Ok (with_maze (regenerate_maze (new r)) m false).
Proof.
  intros Hfuel.
  destruct (begin_inv GRID_WIDTH GRID_HEIGHT r) as (m0 & Hbegin & Hinv0 & Hw0 & Hh0 & Hm0);
    [done|done|].
  destruct (loop_terminates fuel true m0 [] Hinv0)
    as (m & evs & Hloop & Hinv & Hst & Hw & Hh & Hlen); [lia|].
  exists m, evs. split_and!; try done; try congruence.
  { unfold MazeGenerator.generate. by rewrite Hbegin. }
  { cbn [length] in Hlen. lia. }
  assert (MazeGenerator.stack m0 = [(1, 1)]) as Hst0.
  { revert Hbegin. unfold MazeGenerator.begin.
    destruct (grid_set _ _ _ _); try done. cbn [mbind res_bind]. by intros [= <-]. }
  destruct fuel as [|fuel]; [lia|]. cbn [MazeGenerator.loop] in Hloop.
  rewrite Hst0 in Hloop. cbn [last] in Hloop.
  destruct (MazeGenerator.step true m0 1 1) as [[m1 evs1]| |] eqn:Hstep; try done.
  cbn [mbind res_bind fst snd app] in Hloop.
  destruct (step_true_event _ _ _ _ _ Hstep) as [ev ->].
  destruct (loop_frames fuel m1 [ev] m evs (with_maze (regenerate_maze (new r)) m1 true) Hloop)
    as (delta & -> & Hframes); try done.
  intros [|n] Hn; cbn [length app] in Hn; [lia|].
  unfold main. cbn [replicate main_loop]. rewrite frame_nil. unfold update.
  rewrite (update_generating_first _ m0 m1 ev), update_solving_off by done.
  apply (Hframes n). lia.
Qed.

Lemma update_generating_off st : generating st = false -> update_generating st = Ok st.
Proof. intros Hg. unfold update_generating. by rewrite Hg. Qed.

Lemma drain_S n g s e it :
  PathFinder.drain (S n) g s e it =
  (r ← PathFinder.next g s e it;
   match r.2 with
   | None => Done ([], r.1)
   | Some snap => r' ← PathFinder.drain n g s e r.1; Done (snap :: r'.1, r'.2)
   end).
Proof. done. Qed.

(** A draining iterator of [astar], one frame for each snapshot and one
    more for the [StopIteration]. *)
Lemma drain_frames snaps st s e it :
  generating st = false -> solving st = true ->
  astar_iterator st = Some (s, e, it) ->
  PathFinder.drain (S (length snaps)) (MazeGenerator.grid (maze st)) s e it =
    Done (snaps, PathFinder.Finished) ->
  exists st',
    solving st' = false ∧ generating st' = false ∧ maze st' = maze st ∧
    start st' = start st ∧ end_ st' = end_ st ∧ shows_last snaps st st' ∧
    forall n, (length snaps < n)%nat -> main_loop st (replicate n []) = Ok st'.
Proof.
  revert st it. induction snaps as [|snap snaps IH]; intros st it Hgen Hsol Hit Hdrain;
    cbn [length] in Hdrain; rewrite drain_S in Hdrain;
    destruct (PathFinder.next _ s e it) as [[it1 [[[v f] p]|]]| |] eqn:Hnext; try done;
    cbn [mbind res_bind fst snd] in Hdrain.
  - eexists. split_and!; [..|intros [|n] Hn; [cbn [length] in Hn; lia|]].
    7: { cbn [replicate main_loop]. rewrite frame_nil. unfold update.
         rewrite update_generating_off by done. unfold update_solving.
         rewrite Hsol, Hit, Hnext. apply idle; done. }
    all: done.
  - destruct (PathFinder.drain (S (length snaps)) _ s e it1) as [[snaps' itf]| |] eqn:Hd;
      try done.
    cbn [mbind res_bind fst snd] in Hdrain. injection Hdrain as <- <- ->.
    set (st1 := mkState (maze st) (start st) (end_ st) p v f (generating st) true
                  (animation_speed st) (gen_iterator st) (Some (s, e, it1))).
    destruct (IH st1 it1) as (st' & Hs' & Hg' & Hm' & Hst' & He' & Hshow & Hloop); try done.
    exists st'. split_and!; try done.
    + unfold shows_last in *. destruct snaps' as [|snap2 snaps']; [done|].
      rewrite last_cons_cons. destruct (last (snap2 :: snaps')) eqn:Hl; [done|].
      by apply last_None in Hl.
    + intros [|n] Hn; cbn [length] in Hn; [lia|].
      cbn [replicate main_loop]. rewrite frame_nil. unfold update.
      rewrite update_generating_off by done. unfold update_solving.
      rewrite Hsol, Hit, Hnext. apply Hloop. lia.
Qed.

(** [handle_events] on a frame without [QUIT]. *)
Lemma main_loop_quiet_app st k rest :
  main_loop st (replicate k [] ++ rest) =
  match main_loop st (replicate k []) with
  | Ok st' => main_loop st' rest
  | Fail f => Fail f
  end.
Proof.
  revert st. induction k as [|k IH]; intros st; [done|].
  cbn [replicate app main_loop]. rewrite frame_nil.
  destruct (update st) as [st1|f]; [apply IH|done].
Qed.

End QuietSession.

Section GameResults.

Import GameState.

(** X16: left alone, the game animates [generate]: each frame takes one value
    from the generator, and after one frame more than the values it yields
    the game holds the maze [generate] ends with and has stopped
    generating. *)
Theorem game_animates_generate (r : MazeGenerator.Rng) (fuel : nat) :
  (Z.to_nat GRID_WIDTH * Z.to_nat GRID_HEIGHT < fuel)%nat ->
  exists m evs,
    MazeGenerator.generate fuel true GRID_WIDTH GRID_HEIGHT r = Done (m, evs) ∧
    forall n, (length evs < n)%nat ->
      exists st, main r (replicate n []) = Ok st ∧
        maze st = m ∧ generating st = false ∧ solving st = false ∧
        start st = None ∧ end_ st = None ∧ path st = None.
Proof.
  intros Hfuel.
  destruct (quiet_generation r fuel Hfuel) as (m & evs & Hgen & _ & _ & _ & _ & _ & Hframes).
  exists m, evs. split; [done|]. intros n Hn. eexists. split; [by apply Hframes|]. done.
Qed.

Lemma game_animates_generate_witness :
  exists m evs,
    MazeGenerator.generate (101 * 101 + 1) true GRID_WIDTH GRID_HEIGHT
      (MazeGenerator.mkRng (fun i => i) 0) = Done (m, evs) ∧
    forall n, (length evs < n)%nat ->
      exists st, main (MazeGenerator.mkRng (fun i => i) 0) (replicate n []) = Ok st ∧
        maze st = m ∧ generating st = false ∧ solving st = false ∧
        start st = None ∧ end_ st = None ∧ path st = None.
Proof. apply game_animates_generate. vm_compute. lia. Defined.

Lemma astar_result_shortest (W H : nat) (g : Grid) (s e : Cell) (fuel : nat) :
  rectangular W H g -> is_open g s -> is_open g e -> reachable g s e ->
  (astar_budget W H <= fuel)%nat ->
  exists st p,
    PathFinder.outcome (PathFinder.astar fuel true g s e) = Done st ∧
    PathFinder.final_path (PathFinder.astar fuel true g s e) = Some p ∧
    path_from_to g s e p ∧ distance g s e (length p - 1)%nat.
Proof.
  intros Hrect Hs He [n Hn] Hfuel.
  destruct (astar_result W H g s e Hrect (is_open_rows _ _ _ _ Hrect Hs) fuel true Hfuel)
    as (st & tail & Hout & Hpath & Hinv & Hopt & [(k & Hk & Hchain & Hlen)|[Hnone _]]).
  - exists st, (reverse (tail ++ [s])). split; [done|]. split; [done|].
    split; [by apply back_chain_path|].
    rewrite length_reverse, length_app. cbn [length].
    replace (length tail + 1 - 1)%nat with (length tail) by lia.
    split; [by apply back_chain_walk|].
    intros m Hm. destruct (Hopt m Hm) as (k' & Hk' & Hle).
    assert (k' = k) by congruence. lia.
  - destruct (Hopt n Hn) as (k & Hk & _). congruence.
Qed.

(** Two clicks on open cells and the return key in one frame. *)
Lemma select_and_solve st pos1 pos2 :
  is_open (MazeGenerator.grid (maze st)) (cell_under pos1) ->
  is_open (MazeGenerator.grid (maze st)) (cell_under pos2) ->
  handle_events st [MOUSEBUTTONDOWN pos1 1; MOUSEBUTTONDOWN pos2 3; KEYDOWN K_RETURN] =
  Done (start_solving (set_end (set_start st (Some (cell_under pos1)))
                         (Some (cell_under pos2)))
          (cell_under pos1) (cell_under pos2), true).
Proof.
  intros H1 H2. cbn [handle_events]. unfold handle_mouse_click.
  change (1 =? 1) with true. change (3 =? 1) with false. change (3 =? 3) with true.
  cbv iota.
  rewrite (grid_get_cell _ _ _ _ H1). cbn [mbind res_bind].
  change (0 =? 0) with true. cbv iota. cbn [mbind res_bind set_start maze].
  rewrite (grid_get_cell _ _ _ _ H2). cbn [mbind res_bind].
  change (0 =? 0) with true. cbv iota. cbn [mbind res_bind]. done.
Qed.

(** X17: once the game has generated its maze, the maze stays: whatever
    keys are pressed and cells clicked afterwards, the grid is the one
    [generate] ends with. *)
Theorem generated_maze_stays (r : MazeGenerator.Rng) (wait : nat)
    (after : list (list Event)) :
  (Z.to_nat GRID_WIDTH * Z.to_nat GRID_HEIGHT < wait)%nat ->
  clicks_in_window after ->
  exists m evs st,
    MazeGenerator.generate wait true GRID_WIDTH GRID_HEIGHT r = Done (m, evs) ∧
    main r (replicate wait [] ++ after) = Ok st ∧
    MazeGenerator.grid (maze st) = MazeGenerator.grid m.
Proof.
  intros Hwait Hafter.
  destruct (quiet_generation r wait Hwait) as (m & evs & Hgen & _ & _ & _ & _ & Hlen & Hframes).
  destruct (main_loop_safe _ (replicate wait []) (session_begins r))
    as (st1 & Hloop1 & Hinv1 & _).
  { apply Forall_replicate, Forall_nil_2. }
  change (main_loop (regenerate_maze (new r)) (replicate wait []))
    with (main r (replicate wait [])) in Hloop1.
  rewrite Hframes in Hloop1 by lia. injection Hloop1 as <-.
  destruct (main_loop_safe _ after Hinv1 Hafter) as (st & Hloop & _ & Hfin).
  exists m, evs, st. split_and!; [done| |].
  - unfold main. rewrite main_loop_quiet_app.
    change (main_loop (regenerate_maze (new r)) (replicate wait []))
      with (main r (replicate wait [])).
    by rewrite Hframes by lia.
  - destruct Hfin as [_ Hg]; [by apply session_finished|]. by rewrite Hg.
Qed.

Lemma generated_maze_stays_witness :
  exists m evs st,
    MazeGenerator.generate (101 * 101 + 1) true GRID_WIDTH GRID_HEIGHT
      (MazeGenerator.mkRng (fun i => i) 0) = Done (m, evs) ∧
    main (MazeGenerator.mkRng (fun i => i) 0)
      (replicate (101 * 101 + 1) [] ++
       [[KEYDOWN K_SPACE]; []; [MOUSEBUTTONDOWN (12, 12) 1; KEYDOWN K_SPACE]; []]) = Ok st ∧
    MazeGenerator.grid (maze st) = MazeGenerator.grid m.
Proof.
  apply generated_maze_stays; [vm_compute; lia|].
  unfold clicks_in_window.
  repeat (apply Forall_cons; split); try apply Forall_nil_2; try done.
Defined.

(** X18: the game end to end. Left alone until the maze is generated, then
    given a left click on a room, a right click on a room and the return
    key, the game comes to rest after finitely many frames: it has stopped
    solving, and the path it shows leads from the first room to the second
    through adjacent open cells in as few moves as possible. *)
Theorem game_finds_shortest_path (r : MazeGenerator.Rng) (wait : nat) (pos1 pos2 : Z * Z) :
  (Z.to_nat GRID_WIDTH * Z.to_nat GRID_HEIGHT < wait)%nat ->
  interior GRID_WIDTH GRID_HEIGHT (cell_under pos1) -> is_room (cell_under pos1) = true ->
  interior GRID_WIDTH GRID_HEIGHT (cell_under pos2) -> is_room (cell_under pos2) = true ->
  exists frames st p,
    (forall n, (frames <= n)%nat ->
       main r (replicate wait [] ++
               [MOUSEBUTTONDOWN pos1 1; MOUSEBUTTONDOWN pos2 3; KEYDOWN K_RETURN]
               :: replicate n []) = Ok st) ∧
    generating st = false ∧ solving st = false ∧
    start st = Some (cell_under pos1) ∧ end_ st = Some (cell_under pos2) ∧
    path st = Some p ∧
    path_from_to (MazeGenerator.grid (maze st)) (cell_under pos1) (cell_under pos2) p ∧
    distance (MazeGenerator.grid (maze st)) (cell_under pos1) (cell_under pos2)
      (length p - 1)%nat.
Proof.
  intros Hwait Hi1 Hr1 Hi2 Hr2.
  destruct (quiet_generation r (S (Z.to_nat GRID_WIDTH * Z.to_nat GRID_HEIGHT)))
    as (m & evs & _ & Hinv & Hst & Hw & Hh & Hlen & Hframes); [lia|].
  set (st1 := with_maze (regenerate_maze (new r)) m false) in *.
  set (c1 := cell_under pos1) in *. set (c2 := cell_under pos2) in *.
  assert (is_open (MazeGenerator.grid m) c1) as Ho1.
  { apply maze_inv_spanning; try done. by rewrite Hw, Hh. }
  assert (is_open (MazeGenerator.grid m) c2) as Ho2.
  { apply maze_inv_spanning; try done. by rewrite Hw, Hh. }
  assert (reachable (MazeGenerator.grid m) c1 c2) as Hreach.
  { apply (reachable_via _ (1, 1)); [apply (inv_start m Hinv)| |]; by apply (inv_conn m Hinv). }
  pose proof (inv_rect m Hinv) as Hrect.
  destruct (astar_result_shortest _ _ _ c1 c2 _ Hrect Ho1 Ho2 Hreach (le_n _))
    as (stf & p & Hout & Hpath & Hfrom & Hdist).
  pose proof (astar_drain _ c1 c2 _ stf Hout) as Hdrain.
  set (snaps := PathFinder.emitted _) in *.
  set (st2 := start_solving (set_end (set_start st1 (Some c1)) (Some c2)) c1 c2).
  destruct (drain_frames snaps st2 c1 c2 PathFinder.Fresh)
    as (st' & Hs' & Hg' & Hm' & Hst' & He' & Hshow & Hloop); try done.
  exists (length snaps), st', p.
  assert (path st' = Some p) as Hp.
  { revert Hpath Hshow. unfold PathFinder.final_path, shows_last. fold snaps.
    destruct (last snaps) as [[[v f] p']|]; [|done]. by intros -> (_ & _ & Hp). }
  rewrite Hm'. split_and!; try done.
  intros n Hn. unfold main. rewrite main_loop_quiet_app.
  change (main_loop (regenerate_maze (new r)) (replicate wait []))
    with (main r (replicate wait [])).
  rewrite Hframes by lia. fold st1. cbn [main_loop]. unfold frame.
  rewrite select_and_solve by done. fold c1 c2 st2.
  change (match update st2 with
          | Ok st3 => Ok (st3, true)
          | Fail f => Fail f
          end) with (frame st2 []).
  change (match frame st2 [] with
          | Ok (st3, running) => if (running : bool) then main_loop st3 (replicate n []) else Ok st3
          | Fail f => Fail f
          end) with (main_loop st2 (replicate (S n) [])).
  apply Hloop. lia.
Qed.

Lemma game_finds_shortest_path_witness :
  exists frames st p,
    (forall n, (frames <= n)%nat ->
       main (MazeGenerator.mkRng (fun i => i) 0)
         (replicate (101 * 101 + 1) [] ++
          [MOUSEBUTTONDOWN (12, 12) 1; MOUSEBUTTONDOWN (796, 798) 3; KEYDOWN K_RETURN]
          :: replicate n []) = Ok st) ∧
    generating st = false ∧ solving st = false ∧
    start st = Some (cell_under (12, 12)) ∧ end_ st = Some (cell_under (796, 798)) ∧
    path st = Some p ∧
    path_from_to (MazeGenerator.grid (maze st)) (cell_under (12, 12))
      (cell_under (796, 798)) p ∧
    distance (MazeGenerator.grid (maze st)) (cell_under (12, 12)) (cell_under (796, 798))
      (length p - 1)%nat.
Proof.
  apply game_finds_shortest_path; [vm_compute; lia|..]; by vm_compute.
Defined.

End GameResults.

(** ** The game: the end of the generation *)

Section Termination.

Import GameState.

Lemma update_stopped st :
  session_inv st -> generating st = false ->
  exists st', update st = Ok st' ∧ session_inv st' ∧ generating st' = false.
Proof.
  intros Hinv Hgen. unfold update. rewrite update_generating_off by done.
  destruct (update_solving_safe st Hinv) as (st' & -> & Hinv' & _ & _ & Hg').
  exists st'. split_and!; congruence.
Qed.

Lemma stays_stopped st n :
  session_inv st -> generating st = false ->
  exists st', main_loop st (replicate n []) = Ok st' ∧ session_inv st' ∧
    generating st' = false.
Proof.
  revert st. induction n as [|n IH]; intros st Hinv Hgen; [by exists st|].
  cbn [replicate main_loop]. rewrite frame_nil.
  destruct (update_stopped st Hinv Hgen) as (st1 & -> & Hinv1 & Hgen1). by apply IH.
Qed.

Lemma update_first st :
  session_inv st -> generating st = true -> gen_iterator st = Some false ->
  exists st' old, update st = Ok st' ∧ session_inv st' ∧ generating st' = true ∧
    gen_iterator st' = Some true ∧ resumed_inv old (maze st').
Proof.
  intros Hinv Hgen Hit.
  assert (exists old m0, MazeGenerator.begin (maze st) = Done m0 ∧
            resumed_inv old m0 ∧ MazeGenerator.stack m0 = [(1, 1)])
    as (old & m0 & Hbegin & Hres0 & Hst0).
  { destruct (gs_maze st Hinv) as [([r Hm] & _ & _)|(old & Hres & _ & _)].
    - rewrite Hm.
      destruct (begin_inv GRID_WIDTH GRID_HEIGHT r) as (m0 & Hb & Hinv0 & _); [done|done|].
      exists [], m0. split_and!; [done|by apply maze_inv_resumed|].
      revert Hb. unfold MazeGenerator.begin.
      destruct (grid_set _ _ _ _); try done. cbn [mbind res_bind]. by intros [= <-].
    - destruct (begin_resumed old (maze st) Hres) as (m0 & Hb & _ & Hst0 & _ & _ & Hres0).
      by eauto. }
  destruct (step_cases true old m0 1 1 Hres0) as (m1 & evs & Hstep & Hres1 & _ & _ & _ & Hcases);
    [by rewrite Hst0|].
  assert (exists ev, evs = [ev]) as [ev ->].
  { destruct Hcases as [(? & _ & _ & _ & _ & _ & ->)|(_ & _ & _ & ->)]; by eexists. }
  pose proof (update_generating_first st m0 m1 ev Hgen Hit Hbegin Hst0 Hstep) as Hupd.
  destruct (update_generating_safe st Hinv) as (st1 & Hupd' & Hinv1 & _).
  rewrite Hupd in Hupd'. injection Hupd' as <-.
  unfold update. rewrite Hupd.
  destruct (update_solving_safe _ Hinv1) as (st' & -> & Hinv' & Hm' & Hit' & Hg').
  exists st', old. split_and!; try done. by rewrite Hm'.
Qed.

Lemma update_running st old :
  session_inv st -> generating st = true -> gen_iterator st = Some true ->
  resumed_inv old (maze st) ->
  exists st', update st = Ok st' ∧ session_inv st' ∧ gen_iterator st' = Some true ∧
    (generating st' = false ∨
     (generating st' = true ∧ resumed_inv old (maze st') ∧
      (resumed_measure old (maze st') < resumed_measure old (maze st))%nat)).
Proof.
  intros Hinv Hgen Hit Hres.
  destruct (update_generating_safe st Hinv) as (st1 & Hupd' & Hinv1 & _).
  destruct (last (MazeGenerator.stack (maze st))) as [[x y]|] eqn:Hlast.
  - destruct (step_cases true old (maze st) x y Hres Hlast)
      as (m1 & evs & Hstep & Hres1 & _ & _ & Hlt & Hcases).
    assert (exists ev, evs = [ev]) as [ev ->].
    { destruct Hcases as [(? & _ & _ & _ & _ & _ & ->)|(_ & _ & _ & ->)]; by eexists. }
    pose proof (update_generating_step st x y m1 ev Hgen Hit Hlast Hstep) as Hupd.
    rewrite Hupd in Hupd'. injection Hupd' as <-.
    unfold update. rewrite Hupd.
    destruct (update_solving_safe _ Hinv1) as (st' & -> & Hinv' & Hm' & Hit' & Hg').
    exists st'. split_and!; try done. right. rewrite Hm'. by split_and!.
  - pose proof (update_generating_stop st Hgen Hit Hlast) as Hupd.
    rewrite Hupd in Hupd'. injection Hupd' as <-.
    unfold update. rewrite Hupd.
    destruct (update_solving_safe _ Hinv1) as (st' & -> & Hinv' & Hm' & Hit' & Hg').
    exists st'. split_and!; try done. by left.
Qed.

Lemma running_stops k st old :
  session_inv st -> gen_iterator st = Some true -> resumed_inv old (maze st) ->
  (resumed_measure old (maze st) < k)%nat ->
  exists st', main_loop st (replicate k []) = Ok st' ∧ session_inv st' ∧
    generating st' = false.
Proof.
  revert st. induction k as [|k IH]; intros st Hinv Hit Hres Hk; [lia|].
  destruct (generating st) eqn:Hgen; [|by apply stays_stopped].
  cbn [replicate main_loop]. rewrite frame_nil.
  destruct (update_running st old Hinv Hgen Hit Hres)
    as (st1 & -> & Hinv1 & Hit1 & [Hg1|(Hg1 & Hres1 & Hlt)]).
  - by apply stays_stopped.
  - apply IH; try done. lia.
Qed.

Lemma generation_stops st :
  session_inv st ->
  exists k, forall n, (k <= n)%nat ->
    exists st', main_loop st (replicate n []) = Ok st' ∧ generating st' = false.
Proof.
  intros Hinv.
  assert (forall st1 old, session_inv st1 -> gen_iterator st1 = Some true ->
            resumed_inv old (maze st1) ->
            forall n, (S (resumed_measure old (maze st1)) <= n)%nat ->
              exists st', main_loop st1 (replicate n []) = Ok st' ∧ generating st' = false)
    as Hrun.
  { intros st1 old Hinv1 Hit1 Hres1 n Hn.
    set (k := S (resumed_measure old (maze st1))) in *.
    replace n with (k + (n - k))%nat by lia.
    rewrite replicate_add, main_loop_quiet_app.
    destruct (running_stops k st1 old Hinv1 Hit1 Hres1 (Nat.lt_succ_diag_r _))
      as (st2 & -> & Hinv2 & Hg2).
    destruct (stays_stopped st2 (n - k) Hinv2 Hg2)
      as (st' & Hloop & _ & Hg'). by exists st'. }
  destruct (generating st) eqn:Hgen.
  - destruct (gs_gen st Hinv Hgen) as [[|] Hit].
    + destruct (gs_maze st Hinv) as [(_ & Hp & _)|(old & Hres & _)]; [congruence|].
      exists (S (resumed_measure old (maze st))). by apply (Hrun st old).
    + destruct (update_first st Hinv Hgen Hit) as (st1 & old & Hupd & Hinv1 & Hg1 & Hit1 & Hres1).
      exists (S (S (resumed_measure old (maze st1)))). intros [|n] Hn; [lia|].
      cbn [replicate main_loop]. rewrite frame_nil, Hupd.
      apply (Hrun st1 old); try done. lia.
  - exists 0%nat. intros n _.
    destruct (stays_stopped st n Hinv Hgen) as (st' & Hloop & _ & Hg'). by exists st'.
Qed.

(** X15: the generation always comes to an end: whatever keys were pressed
    and wherever inside the window the mouse was clicked before, restarts
    in the middle of a run included, a bounded number of frames without
    events later the game has stopped generating, and stays so. *)
Theorem game_generation_terminates (r : MazeGenerator.Rng) (frames : list (list Event)) :
  clicks_in_window frames ->
  exists st wait,
    main r frames = Ok st ∧
    forall n, (wait <= n)%nat ->
      exists st', main_loop st (replicate n []) = Ok st' ∧ generating st' = false.
Proof.
  intros Hfr. unfold main.
  destruct (main_loop_safe _ frames (session_begins r) Hfr) as (st & Hloop & Hinv & _).
  destruct (generation_stops st Hinv) as [k Hk]. by exists st, k.
Qed.

Lemma game_generation_terminates_witness :
  exists st wait,
    main (MazeGenerator.mkRng (fun i => i) 0)
      [[]; []; []; [KEYDOWN K_SPACE]; []; [KEYDOWN K_SPACE; MOUSEBUTTONDOWN (12, 12) 1]] =
      Ok st ∧
    forall n, (wait <= n)%nat ->
      exists st', main_loop st (replicate n []) = Ok st' ∧ generating st' = false.
Proof.
  apply game_generation_terminates. unfold clicks_in_window.
  repeat (apply Forall_cons; split); try apply Forall_nil_2; try done.
Defined.

End Termination.

(** ** The game: the screen *)

Section Screen.

Import GameState.

Lemma cell_rect_inj (a b : Cell) : cell_rect a = cell_rect b -> a = b.
Proof.
  destruct a as [x y], b as [x' y']. unfold cell_rect, CELL_SIZE. cbn [fst snd].
  intros [= Hx Hy]. f_equal; lia.
Qed.

Lemma shown_app ops1 ops2 c :
  shown (ops1 ++ ops2) c =
  match shown ops2 c with
  | Some color => Some color
  | None => shown ops1 c
  end.
Proof.
  induction ops1 as [|op ops1 IH]; cbn [app shown].
  - by destruct (shown ops2 c).
  - rewrite IH. by destruct (shown ops2 c).
Qed.

Lemma shown_cells (f : Cell -> Colors) (l : list Cell) c :
  shown (map (fun x => Rect (f x) (cell_rect x)) l) c =
  if decide (c ∈ l) then Some (f c) else None.
Proof.
  induction l as [|x l IH]; cbn [map shown].
  - case_decide as Hin; [by apply elem_of_nil in Hin|done].
  - rewrite IH. destruct (decide (c ∈ l)) as [Hin|Hin].
    + rewrite decide_True; [done|by right].
    + cbn [paints]. destruct (decide (cell_rect x = cell_rect c)) as [Heq|Hne].
      * apply cell_rect_inj in Heq as ->. rewrite decide_True; [done|by left].
      * rewrite decide_False; [done|].
        intros [->|?]%elem_of_cons; [by destruct Hne|done].
Qed.

Lemma elem_of_grid_cells (c : Cell) :
  c ∈ grid_cells <-> 0 <= c.1 < GRID_WIDTH ∧ 0 <= c.2 < GRID_HEIGHT.
Proof.
  unfold grid_cells. rewrite list_elem_of_In, in_flat_map. split.
  - intros (y & Hy & Hc). apply in_map_iff in Hc as (x & <- & Hx).
    apply list_elem_of_In, elem_of_seqZ in Hy. apply list_elem_of_In, elem_of_seqZ in Hx.
    cbn [fst snd]. lia.
  - intros [Hx Hy]. exists c.2. split.
    + apply list_elem_of_In, elem_of_seqZ. lia.
    + apply in_map_iff. exists c.1. split; [by destruct c|].
      apply list_elem_of_In, elem_of_seqZ. lia.
Qed.

Lemma elem_of_option_cell (o : option Cell) (c : Cell) : c ∈ option_list o <-> o = Some c.
Proof.
  destruct o as [c'|]; simpl.
  - rewrite list_elem_of_singleton. split; [by intros ->|by intros [= ->]].
  - split; [by intros ?%elem_of_nil|done].
Qed.

Lemma mapM_res_cons {A B} (f : A -> res B) (x : A) (l : list A) :
  mapM f (x :: l) = (y ← f x; k ← mapM f l; Done (y :: k)).
Proof. done. Qed.

Lemma draw_cells g (cells : list Cell) :
  (forall c, c ∈ cells -> exists v, cell_at g c = Some v) ->
  mapM (fun c : Cell =>
          v ← grid_get g c.1 c.2;
          Done (Rect (if v =? 0 then WHITE else BLACK) (cell_rect c))) cells =
  Done (map (fun c => Rect (if is_openb g c then WHITE else BLACK) (cell_rect c)) cells).
Proof.
  induction cells as [|c cells IH]; intros Hall; [done|].
  rewrite mapM_res_cons. cbn [map]. destruct (Hall c) as [v Hv]; [by left|].
  rewrite (grid_get_cell g c.1 c.2 v) by (by destruct c).
  cbn [mbind res_bind].
  rewrite IH by (intros c' Hc'; apply Hall; by right).
  cbn [mbind res_bind]. unfold is_openb. by rewrite Hv.
Qed.

(** [draw] on a grid of the size of the window. *)
Lemma draw_shows st :
  rectangular (Z.to_nat GRID_WIDTH) (Z.to_nat GRID_HEIGHT) (MazeGenerator.grid (maze st)) ->
  exists ops, draw st = Done ops ∧
    forall c, 0 <= c.1 < GRID_WIDTH -> 0 <= c.2 < GRID_HEIGHT ->
      shown ops c = Some (cell_colour st c).
Proof.
  intros Hrect. unfold draw. rewrite draw_cells.
  2: { intros [x y] [Hx Hy]%elem_of_grid_cells. cbn [fst snd] in *.
       apply (rectangular_cell _ _ _ x y Hrect); lia. }
  cbn [mbind res_bind]. eexists. split; [done|]. intros c Hx Hy.
  assert (match path st with
          | Some (c0 :: p) => map (fun c => Rect BLUE (cell_rect c)) (c0 :: p)
          | _ => []
          end = map (fun c => Rect BLUE (cell_rect c)) (default [] (path st))) as ->.
  { by destruct (path st) as [[|? ?]|]. }
  assert (match start st with
          | Some c0 => [Rect GREEN (cell_rect c0)]
          | None => []
          end = map (fun c => Rect GREEN (cell_rect c)) (option_list (start st))) as ->.
  { by destruct (start st). }
  assert (match end_ st with
          | Some c0 => [Rect RED (cell_rect c0)]
          | None => []
          end = map (fun c => Rect RED (cell_rect c)) (option_list (end_ st))) as ->.
  { by destruct (end_ st). }
  assert (map (fun e : heapq.Entry => Rect PURPLE (cell_rect e.2)) (frontier st) =
          map (fun c => Rect PURPLE (cell_rect c)) (map snd (frontier st))) as ->.
  { by rewrite List.map_map. }
  rewrite !shown_app, !shown_cells. cbn [shown paints].
  unfold cell_colour.
  destruct (decide (end_ st = Some c)) as [He|He].
  { rewrite decide_True; [done|]. apply elem_of_option_cell. by rewrite He. }
  rewrite decide_False by (by intros ?%elem_of_option_cell).
  destruct (decide (start st = Some c)) as [Hs|Hs].
  { rewrite decide_True; [done|]. apply elem_of_option_cell. by rewrite Hs. }
  rewrite decide_False by (by intros ?%elem_of_option_cell).
  destruct (decide (c ∈ default [] (path st))); [done|].
  destruct (decide (c ∈ map snd (frontier st))); [done|].
  destruct (decide (c ∈ visited st)) as [Hv|Hv].
  { rewrite decide_True; [done|]. by apply elem_of_elements. }
  rewrite decide_False by (by intros ?%elem_of_elements).
  rewrite decide_True; [done|]. by apply elem_of_grid_cells.
Qed.

(** X19: at every frame of a game whose mouse clicks all fall inside the
    window, whatever keys are pressed, [draw] completes, and the square of
    each cell of the window ends in one colour, decided in this order: red for
    the end cell, green for the start cell, blue for a cell of the path,
    purple for a frontier cell, grey for a visited cell, and otherwise
    white for an open cell and black for a wall. *)
Theorem game_draws_every_frame (r : MazeGenerator.Rng) (frames : list (list Event)) :
  clicks_in_window frames ->
  exists st ops,
    main r frames = Ok st ∧ draw st = Done ops ∧
    forall c, 0 <= c.1 < GRID_WIDTH -> 0 <= c.2 < GRID_HEIGHT ->
      shown ops c = Some (cell_colour st c).
Proof.
  intros Hfr. unfold main.
  destruct (main_loop_safe _ frames (session_begins r) Hfr) as (st & Hloop & Hinv & _).
  destruct (draw_shows st (session_rect st Hinv)) as (ops & Hdraw & Hshown).
  by exists st, ops.
Qed.

Lemma game_draws_every_frame_witness :
  exists st ops,
    main (MazeGenerator.mkRng (fun i => i) 0)
      [[]; [MOUSEBUTTONDOWN (12, 12) 1; MOUSEBUTTONDOWN (12, 12) 3]; [KEYDOWN K_RETURN]; []] =
      Ok st ∧
    draw st = Done ops ∧
    forall c, 0 <= c.1 < GRID_WIDTH -> 0 <= c.2 < GRID_HEIGHT ->
      shown ops c = Some (cell_colour st c).
Proof.
  apply game_draws_every_frame. unfold clicks_in_window.
  repeat (apply Forall_cons; split); try apply Forall_nil_2; try done.
Defined.

End Screen.
